(** * gitquery: the repository pool and the concurrent row pipeline

    A shallow embedding of [repository_pool.go].  The pool is a Go map from
    identifiers to paths together with the slice of identifiers in insertion
    order; the file system and go-git are an explicit, read-only [World] that
    every operation consults, and every consultation is logged, so that "opens
    this location" and "does not open anything" are statements about a value.
    The goroutines of [NewRowRepoIter] are a labelled transition system over
    unbuffered channels. *)

From Stdlib Require Import ZArith Ascii String List Lia.
From stdpp Require Import base option list gmap strings.

Local Open Scope string_scope.
Local Open Scope list_scope.
Local Open Scope Z_scope.

(** * Part I: the program and the vocabulary of its properties *)

(** ** Errors and results *)

(** Go's [error] values: the sentinel [io.EOF] and every other error, told
    apart by its message. *)
Inductive error : Type :=
  | io_EOF
  | errorString (msg : string).

(** What a call returning a pointer and an [error] can do: return a value
    with a nil error, return nil with an error, or panic at run time. *)
Inductive outcome (A : Type) : Type :=
  | Ok (a : A)
  | Err (e : error)
  | Panic (msg : string).
Arguments Ok {A} a.
Arguments Err {A} e.
Arguments Panic {A} msg.

(** ** path/filepath (Go standard library, Unix build)

    [AddGit] and [AddDir] call [filepath.Base] and [filepath.Join]; they are
    transcribed here from the standard library so that the pool operations
    compute.  [lazybuf] is represented by the bytes written so far. *)
Module filepath.

Definition Separator : ascii := "/"%char.

Definition IsPathSeparator (c : ascii) : bool := Ascii.eqb c Separator.

Definition isDot (c : ascii) : bool := Ascii.eqb c "."%char.

(** [for len(path) > 0 && os.IsPathSeparator(path[len(path)-1])]: scanning
    the reversed bytes from their head. *)
Fixpoint dropSeparators (rpath : list ascii) : list ascii :=
  match rpath with
  | c :: rest => if IsPathSeparator c then dropSeparators rest else rpath
  | [] => []
  end.

(** The bytes before the first separator, and what follows them. *)
Fixpoint element (path : list ascii) : list ascii * list ascii :=
  match path with
  | c :: rest =>
      if IsPathSeparator c then ([], path)
      else let '(e, r) := element rest in (c :: e, r)
  | [] => ([], [])
  end.

Definition Base (path : string) : string :=
  if String.eqb path "" then "."
  else
    (* strip trailing slashes *)
    let rpath := dropSeparators (rev (list_ascii_of_string path)) in
    (* find the last element *)
    let last := rev (fst (element rpath)) in
    (* if empty now, it had only slashes *)
    match last with
    | [] => String Separator ""
    | _ => string_of_list_ascii last
    end.

(** [out.w--; for out.w > dotdot && !os.IsPathSeparator(out.index(out.w))
    { out.w-- }], entered with [w] already decremented once. *)
Fixpoint backtrack (out : list ascii) (dotdot w : nat) : nat :=
  match w with
  | O => O
  | S w' =>
      if (dotdot <? w)%nat
         && negb (IsPathSeparator (nth w out Separator))
      then backtrack out dotdot w'
      else w
  end.

Definition endsElement (rest : list ascii) : bool :=
  match rest with
  | [] => true
  | c :: _ => IsPathSeparator c
  end.

(** The loop [for r < n] of [Clean]: [rest] is [path[r:]], [out] the bytes
    written.  Every turn consumes at least one byte, so [length path] turns
    are enough. *)
Fixpoint cleanLoop (fuel : nat) (rooted : bool) (rest out : list ascii)
    (dotdot : nat) : list ascii :=
  match fuel with
  | O => out
  | S fuel' =>
      match rest with
      | [] => out
      | c :: r1 =>
          if IsPathSeparator c then
            (* empty path element *)
            cleanLoop fuel' rooted r1 out dotdot
          else if isDot c && endsElement r1 then
            (* . element *)
            cleanLoop fuel' rooted r1 out dotdot
          else if isDot c && match r1 with
                             | c1 :: r2 => isDot c1 && endsElement r2
                             | [] => false
                             end then
            (* .. element: remove to last separator *)
            let r2 := tl r1 in
            if (dotdot <? length out)%nat then
              let w := backtrack out dotdot (length out - 1) in
              cleanLoop fuel' rooted r2 (take w out) dotdot
            else if negb rooted then
              let out1 := if (0 <? length out)%nat then out ++ [Separator] else out in
              let out2 := out1 ++ ["."%char; "."%char] in
              cleanLoop fuel' rooted r2 out2 (length out2)
            else cleanLoop fuel' rooted r2 out dotdot
          else
            (* real path element: add slash if needed, copy element *)
            let out1 :=
              if (rooted && negb (length out =? 1)%nat)
                 || (negb rooted && negb (length out =? 0)%nat)
              then out ++ [Separator] else out in
            let '(e, r') := element rest in
            cleanLoop fuel' rooted r' (out1 ++ e) dotdot
      end
  end.

Definition Clean (path : string) : string :=
  match list_ascii_of_string path with
  | [] => "."
  | (c :: _) as p =>
      let rooted := IsPathSeparator c in
      let out :=
        if rooted then cleanLoop (length p) true (tl p) [Separator] 1
        else cleanLoop (length p) false p [] 0 in
      match out with
      | [] => "."
      | _ => string_of_list_ascii out
      end
  end.

(** [strings.Join(elem[i:], "/")] *)
Fixpoint joinWith (elem : list string) : string :=
  match elem with
  | [] => ""
  | [e] => e
  | e :: rest => e +:+ String Separator "" +:+ joinWith rest
  end.

(** [join]: the elements from the first non-empty one on, cleaned. *)
Fixpoint Join (elem : list string) : string :=
  match elem with
  | [] => ""
  | e :: rest =>
      if String.eqb e "" then Join rest else Clean (joinWith elem)
  end.

End filepath.

(** ** The world outside the package *)

(** An opened go-git repository, as far as this package and its tests look
    into it: the commits [CommitObjects] iterates. *)
Record git_Repository : Type := mk_git_Repository {
  CommitObjects : list string
}.

(** [os.FileInfo], as far as [AddDir] reads it. *)
Record FileInfo : Type := mk_FileInfo {
  Name : string;
  IsDir : bool
}.

(** The file system as the package sees it during one call. *)
Record World : Type := mk_World {
  git_PlainOpen : string -> git_Repository + error;
  ioutil_ReadDir : string -> list FileInfo + error
}.

(** The calls a function made to the world, in program order. *)
Inductive event : Type :=
  | EvPlainOpen (path : string)
  | EvReadDir (path : string).

(** A computation that reads the world and logs what it asked. *)
Definition IO (A : Type) : Type := World -> A * list event.

#[global] Instance IO_ret : MRet IO := fun A a _ => (a, []).

#[global] Instance IO_bind : MBind IO := fun A B k m w =>
  let '(a, t1) := m w in
  let '(b, t2) := k a w in
  (b, t1 ++ t2).

Definition PlainOpen (path : string) : IO (git_Repository + error) :=
  fun w => (git_PlainOpen w path, [EvPlainOpen path]).

Definition ReadDir (path : string) : IO (list FileInfo + error) :=
  fun w => (ioutil_ReadDir w path, [EvReadDir path]).

Definition result {A} (m : A * list event) : A := fst m.
Definition asked {A} (m : A * list event) : list event := snd m.

(** ** Repository *)

(** [type Repository struct] *)
Record Repository : Type := mk_Repository {
  ID : string;
  Repo : git_Repository
}.

(** [func NewRepository] *)
Definition NewRepository (id : string) (repo : git_Repository) : Repository :=
  {| ID := id; Repo := repo |}.

(** [func NewRepositoryFromPath] *)
Definition NewRepositoryFromPath (id path : string) : IO (Repository + error) :=
  r ← PlainOpen path;
  match r with
  | inr err => mret (inr err)
  | inl repo => mret (inl (NewRepository id repo))
  end.

(** ** RepositoryPool *)

(** [type RepositoryPool struct] *)
Record RepositoryPool : Type := mk_RepositoryPool {
  repositories : gmap string string;
  idOrder : list string
}.

(** [func NewRepositoryPool] *)
Definition NewRepositoryPool : RepositoryPool :=
  {| repositories := ∅; idOrder := [] |}.

(** [func (p *RepositoryPool) Add]: the receiver is the pool before the call,
    the result the pool after it. *)
Definition Add (p : RepositoryPool) (id path : string) : RepositoryPool :=
  let idOrder' :=
    match repositories p !! id with
    | Some _ => idOrder p
    | None => idOrder p ++ [id]
    end in
  {| repositories := <[id := path]> (repositories p); idOrder := idOrder' |}.

(** [func (p *RepositoryPool) AddGit]: the pool after the call and the
    returned [(string, error)]. *)
Definition AddGit (p : RepositoryPool) (path : string)
    : IO (RepositoryPool * (string * option error)) :=
  r ← PlainOpen path;
  match r with
  | inr err => mret (p, ("", Some err))
  | inl _ =>
      let id := filepath.Base path in
      mret (Add p id path, (id, None))
  end.

(** The body of [for _, f := range dirs] in [AddDir]; the result of [AddGit]
    is dropped, the pool it leaves is kept. *)
Fixpoint AddDir_range (p : RepositoryPool) (path : string) (dirs : list FileInfo)
    : IO RepositoryPool :=
  match dirs with
  | [] => mret p
  | f :: rest =>
      if IsDir f then
        let name := filepath.Join [path; Name f] in
        '(p', _) ← AddGit p name;
        AddDir_range p' path rest
      else AddDir_range p path rest
  end.

(** [func (p *RepositoryPool) AddDir] *)
Definition AddDir (p : RepositoryPool) (path : string)
    : IO (RepositoryPool * option error) :=
  r ← ReadDir path;
  match r with
  | inr err => mret (p, Some err)
  | inl dirs =>
      p' ← AddDir_range p path dirs;
      mret (p', None)
  end.

(** [p.idOrder[pos]] for a Go [int]: a negative or too large index panics. *)
Definition index (l : list string) (pos : Z) : option string :=
  if pos <? 0 then None else l !! Z.to_nat pos.

(** [func (p *RepositoryPool) GetPos] *)
Definition GetPos (p : RepositoryPool) (pos : Z) : IO (outcome Repository) :=
  if pos >=? Z.of_nat (size (repositories p)) then mret (Err io_EOF)
  else
    match index (idOrder p) pos with
    | None => mret (Panic "index out of range")
    | Some id =>
        if String.eqb id "" then mret (Err io_EOF)
        else
          (* the zero value of a missing key is the empty string *)
          let path := default "" (repositories p !! id) in
          r ← NewRepositoryFromPath id path;
          match r with
          | inr err => mret (Err err)
          | inl repo => mret (Ok repo)
          end
    end.

(** ** RepositoryIter *)

(** [type RepositoryIter struct]: [pool] is a pointer; the pool it points to
    is handed to [Next] as it is at the time of the call. *)
Record RepositoryIter : Type := mk_RepositoryIter {
  pos : Z
}.

(** [func (p *RepositoryPool) RepoIter] *)
Definition RepoIter : RepositoryIter * option error :=
  ({| pos := 0 |}, None).

(** [func (i *RepositoryIter) Next]: the cursor after the call and what was
    returned.  [i.pos++] cannot overflow: [GetPos] succeeded, so
    [pos < len(repositories)], itself an [int]. *)
Definition RepositoryIter_Next (pool : RepositoryPool) (i : RepositoryIter)
    : IO (RepositoryIter * outcome Repository) :=
  r ← GetPos pool (pos i);
  match r with
  | Ok repo => mret ({| pos := pos i + 1 |}, Ok repo)
  | Err err => mret (i, Err err)
  | Panic msg => mret (i, Panic msg)
  end.

(** [func (i *RepositoryIter) Close] *)
Definition RepositoryIter_Close (i : RepositoryIter) : option error := None.

(** A fixture: two work trees that open and one directory that does not. *)
Module Fixture.

Definition basic : git_Repository :=
  {| CommitObjects := ["6ecf0ef"; "e8d3ffa"; "918c48b"] |}.

Definition world : World :=
  {| git_PlainOpen := fun path =>
       if String.eqb path "/repos/a" || String.eqb path "/repos/b"
          || String.eqb path "/tmp/wt"
       then inl basic
       else inr (errorString "repository does not exist");
     ioutil_ReadDir := fun path =>
       if String.eqb path "/repos" then
         inl [ {| Name := "a"; IsDir := true |};
               {| Name := "b"; IsDir := true |};
               {| Name := "notes"; IsDir := true |};
               {| Name := "README"; IsDir := false |} ]
       else inr (errorString "no such file or directory") |}.

End Fixture.

(** ** Pools that the exported API can build *)

Inductive reachable : RepositoryPool -> Prop :=
  | reachable_New : reachable NewRepositoryPool
  | reachable_Add p id path :
      reachable p -> reachable (Add p id path)
  | reachable_AddGit p path w :
      reachable p -> reachable (fst (result (AddGit p path w)))
  | reachable_AddDir p path w :
      reachable p -> reachable (fst (result (AddDir p path w))).

(** The representation invariant of the pool. *)
Definition pool_inv (p : RepositoryPool) : Prop :=
  NoDup (idOrder p)
  /\ forall id : string, id ∈ idOrder p <-> is_Some (repositories p !! id).

(** [n] calls of [Next] in a row on one cursor, the pool and the file system
    staying as they are: the cursor at the end and what each call returned. *)
Fixpoint Next_times (n : nat) (pool : RepositoryPool) (i : RepositoryIter)
    (w : World) : RepositoryIter * list (outcome Repository) :=
  match n with
  | O => (i, [])
  | S n' =>
      let '(i', r) := result (RepositoryIter_Next pool i w) in
      let '(i'', rs) := Next_times n' pool i' w in
      (i'', r :: rs)
  end.

(** ** Names of directory entries and what [Clean] keeps of them *)

(** What a directory entry can be called: not empty, not [.] or [..], and
    without a separator. *)
Definition validName (n : string) : bool :=
  negb (String.eqb n "") && negb (String.eqb n ".") && negb (String.eqb n "..")
  && forallb (fun c => negb (filepath.IsPathSeparator c)) (list_ascii_of_string n).

Definition noSeparator (l : list ascii) : Prop :=
  forallb (fun c => negb (filepath.IsPathSeparator c)) l = true.

(** What [Clean] keeps true of its buffer: in a rooted path the buffer starts
    with the separator and [..] never removes it. *)
Definition outInv (rooted : bool) (out : list ascii) (dotdot : nat) : Prop :=
  rooted = true -> dotdot = 1%nat /\ exists t, out = filepath.Separator :: t.

Definition endsWithSep (o : list ascii) : Prop :=
  o = [] \/ exists o', o = o' ++ [filepath.Separator].

Definition legal (n : list ascii) : Prop :=
  n <> [] /\ noSeparator n /\ n <> ["."%char] /\ n <> ["."%char; "."%char].

(** ** [AddDir] *)

(** The path [AddDir] hands to [AddGit] for a directory entry. *)
Definition child (path : string) (f : FileInfo) : string :=
  filepath.Join [path; Name f].

(** The entry is a directory and opens as a repository. *)
Definition opensAsRepo (w : World) (path : string) (f : FileInfo) : bool :=
  IsDir f && match git_PlainOpen w (child path f) with
             | inl _ => true
             | inr _ => false
             end.

(** What [ioutil.ReadDir] returns: entries with distinct names, none of them
    empty, [.], [..] or with a separator in it. *)
Definition listingOK (dirs : list FileInfo) : Prop :=
  NoDup (map Name dirs) /\ Forall (fun f => validName (Name f) = true) dirs.

(** [Add] for each pair in turn. *)
Definition Add_all (p : RepositoryPool) (kvs : list (string * string))
    : RepositoryPool :=
  foldl (fun p kv => Add p (fst kv) (snd kv)) p kvs.

(** ** The concurrent row pipeline *)

(** [sql.Row]: a tuple of column values this package never looks into. *)
Definition Row : Type := list string.

(** [type RowRepoIter interface], for iterators with state [Iter].  A failed
    [NewIterator] returns a nil iterator with its error.  [Next] returns the
    iterator as the call leaves it and a row or an error. *)
Class RowRepoIter (Iter : Type) : Type := {
  NewIterator : Iter -> Repository -> Iter + error;
  Next : Iter -> Iter * (Row + error);
  Close : Iter -> option error
}.

(** [iter, _ := i.iter.NewIterator(repo)]: the error is dropped, the iterator
    kept, nil ([None]) when the construction failed. *)
Definition dropError {Iter : Type} (r : Iter + error) : option Iter :=
  match r with
  | inl iter => Some iter
  | inr _ => None
  end.

(** Where [fillRepoChannel] stands. *)
Inductive feeder : Type :=
  | F_select                          (* at [select] *)
  | F_sendRepo (repo : Repository)    (* at [i.repos <- repo] *)
  | F_closeDone (err : error)         (* at [close(i.done)] *)
  | F_closeRepos (err : error)        (* at [close(i.repos)] *)
  | F_sendErr (err : error)           (* at [i.err <- err] *)
  | F_return
  | F_panic (msg : string).

(** Where one [rowReader] stands. *)
Inductive reader (Iter : Type) : Type :=
  | W_range                                 (* at [range i.repos] *)
  | W_select (iter : option Iter)              (* at [select] *)
  | W_sendRow (iter : option Iter) (row : Row) (* at [i.rows <- row] *)
  | W_sendErr (err : error)                 (* at [i.err <- err] *)
  | W_closeDone                             (* at [close(i.done)] *)
  | W_return                                (* returned, [wg.Done()] ran *)
  | W_panic (msg : string).
Arguments W_range {Iter}.
Arguments W_select {Iter} iter.
Arguments W_sendRow {Iter} iter row.
Arguments W_sendErr {Iter} err.
Arguments W_closeDone {Iter}.
Arguments W_return {Iter}.
Arguments W_panic {Iter} msg.

(** Where the caller that drains the iterator stands: inside [Next] at one of
    its two receives, or done after [Next] returned an error. *)
Inductive caller : Type :=
  | C_recvRow                  (* at [row, ok := <-i.rows] *)
  | C_recvErr                  (* at [<-i.err] *)
  | C_returned (err : error).  (* [Next] returned [nil, err] *)

(** One run of [NewRowRepoIter]: the goroutines, the cursor the feeder owns,
    which channels are closed, and the rows [Next] has returned so far. *)
Record pipeline (Iter : Type) : Type := Pipeline {
  fillRepoChannel : feeder;
  repositoryIter : RepositoryIter;
  rowReaders : list (reader Iter);
  done_closed : bool;
  repos_closed : bool;
  rows_closed : bool;
  yielded : list Row;
  consumer : caller
}.
Arguments Pipeline {Iter}.
Arguments fillRepoChannel {Iter}.
Arguments repositoryIter {Iter}.
Arguments rowReaders {Iter}.
Arguments done_closed {Iter}.
Arguments repos_closed {Iter}.
Arguments rows_closed {Iter}.
Arguments yielded {Iter}.
Arguments consumer {Iter}.

Definition nilDereference : string :=
  "invalid memory address or nil pointer dereference".
Definition closeOfClosed : string := "close of closed channel".
Definition sendOnClosed : string := "send on closed channel".

(** [switch err] in [fillRepoChannel], on what [i.repositoryIter.Next()]
    returned. *)
Definition afterRepoNext (r : outcome Repository) : feeder :=
  match r with
  | Ok repo => F_sendRepo repo
  | Err io_EOF => F_closeRepos io_EOF
  | Err err => F_closeDone err
  | Panic msg => F_panic msg
  end.

(** [switch err] in [rowReader], on what [iter.Next()] returned; [iter.Close()]
    is called in the two error cases. *)
Definition afterRowNext {Iter : Type} (r : Iter * (Row + error)) : reader Iter :=
  match r with
  | (iter, inl row) => W_sendRow (Some iter) row
  | (_, inr io_EOF) => W_range
  | (_, inr err) => W_sendErr err
  end.

(** A panic in any goroutine ends the program. *)
Definition isPanic {Iter : Type} (r : reader Iter) : bool :=
  match r with
  | W_panic _ => true
  | _ => false
  end.

Definition crashed {Iter : Type} (σ : pipeline Iter) : bool :=
  match fillRepoChannel σ with
  | F_panic _ => true
  | _ => existsb isPanic (rowReaders σ)
  end.

Definition hasReturned {Iter : Type} (r : reader Iter) : bool :=
  match r with
  | W_return => true
  | _ => false
  end.

Section PipelineModel.

Context {Iter : Type} `{RowRepoIter Iter}.

(** [i.iter], the iterator [NewRowRepoIter] was given; the file system and
    the pool, which nobody changes during the run. *)
Variable template : Iter.
Variable w : World.
Variable pool : RepositoryPool.

(** What one goroutine does between two points where it can be suspended, or
    two goroutines do together when they meet at an unbuffered channel. *)
Inductive move : pipeline Iter -> pipeline Iter -> Prop :=
  (* fillRepoChannel: [case <-i.done: return] *)
  | fill_cancelled c ws rp rw y cs :
      move (Pipeline F_select c ws true rp rw y cs)
           (Pipeline F_return c ws true rp rw y cs)
  (* fillRepoChannel: [default: repo, err := i.repositoryIter.Next()] *)
  | fill_next c c' r ws rp rw y cs :
      result (RepositoryIter_Next pool c w) = (c', r) ->
      move (Pipeline F_select c ws false rp rw y cs)
           (Pipeline (afterRepoNext r) c' ws false rp rw y cs)
  (* [i.repos <- repo] meets [range i.repos] of reader [j], which goes on to
     [iter, _ := i.iter.NewIterator(repo)] *)
  | fill_send repo c ws j d rw y cs :
      ws !! j = Some W_range ->
      move (Pipeline (F_sendRepo repo) c ws d false rw y cs)
           (Pipeline F_select c
              (<[j := W_select (dropError (NewIterator template repo))]> ws)
              d false rw y cs)
  | fill_send_closed repo c ws d rw y cs :
      move (Pipeline (F_sendRepo repo) c ws d true rw y cs)
           (Pipeline (F_panic sendOnClosed) c ws d true rw y cs)
  (* fillRepoChannel: [close(i.done)] *)
  | fill_closeDone err c ws rp rw y cs :
      move (Pipeline (F_closeDone err) c ws false rp rw y cs)
           (Pipeline (F_closeRepos err) c ws true rp rw y cs)
  | fill_closeDone_closed err c ws rp rw y cs :
      move (Pipeline (F_closeDone err) c ws true rp rw y cs)
           (Pipeline (F_panic closeOfClosed) c ws true rp rw y cs)
  (* fillRepoChannel: [close(i.repos)] *)
  | fill_closeRepos err c ws d rw y cs :
      move (Pipeline (F_closeRepos err) c ws d false rw y cs)
           (Pipeline (F_sendErr err) c ws d true rw y cs)
  | fill_closeRepos_closed err c ws d rw y cs :
      move (Pipeline (F_closeRepos err) c ws d true rw y cs)
           (Pipeline (F_panic closeOfClosed) c ws d true rw y cs)
  (* fillRepoChannel: [i.err <- err] meets [<-i.err] of [Next] *)
  | fill_sendErr err c ws d rp rw y :
      move (Pipeline (F_sendErr err) c ws d rp rw y C_recvErr)
           (Pipeline F_return c ws d rp rw y (C_returned err))
  (* rowReader: [range i.repos] on the closed channel ends the loop *)
  | read_range_closed f c ws j d rw y cs :
      ws !! j = Some W_range ->
      move (Pipeline f c ws d true rw y cs)
           (Pipeline f c (<[j := W_return]> ws) d true rw y cs)
  (* rowReader: [case <-i.done: iter.Close(); return] *)
  | read_cancelled f c ws j iter rp rw y cs :
      ws !! j = Some (W_select (Some iter)) ->
      move (Pipeline f c ws true rp rw y cs)
           (Pipeline f c (<[j := W_return]> ws) true rp rw y cs)
  | read_cancelled_nil f c ws j rp rw y cs :
      ws !! j = Some (W_select None) ->
      move (Pipeline f c ws true rp rw y cs)
           (Pipeline f c (<[j := W_panic nilDereference]> ws) true rp rw y cs)
  (* rowReader: [default: row, err := iter.Next()] and the [switch] *)
  | read_next f c ws j iter rp rw y cs :
      ws !! j = Some (W_select (Some iter)) ->
      move (Pipeline f c ws false rp rw y cs)
           (Pipeline f c (<[j := afterRowNext (Next iter)]> ws) false rp rw y cs)
  | read_next_nil f c ws j rp rw y cs :
      ws !! j = Some (W_select None) ->
      move (Pipeline f c ws false rp rw y cs)
           (Pipeline f c (<[j := W_panic nilDereference]> ws) false rp rw y cs)
  (* rowReader: [i.rows <- row] meets [<-i.rows] of [Next], which returns
     the row; the caller calls [Next] again *)
  | read_sendRow f c ws j iter row d rp y :
      ws !! j = Some (W_sendRow iter row) ->
      move (Pipeline f c ws d rp false y C_recvRow)
           (Pipeline f c (<[j := W_select iter]> ws) d rp false (y ++ [row]) C_recvRow)
  | read_sendRow_closed f c ws j iter row d rp y cs :
      ws !! j = Some (W_sendRow iter row) ->
      move (Pipeline f c ws d rp true y cs)
           (Pipeline f c (<[j := W_panic sendOnClosed]> ws) d rp true y cs)
  (* rowReader: [i.err <- err] meets [<-i.err] of [Next] *)
  | read_sendErr f c ws j err d rp rw y :
      ws !! j = Some (W_sendErr err) ->
      move (Pipeline f c ws d rp rw y C_recvErr)
           (Pipeline f c (<[j := W_closeDone]> ws) d rp rw y (C_returned err))
  (* rowReader: [close(i.done); return] *)
  | read_closeDone f c ws j rp rw y cs :
      ws !! j = Some W_closeDone ->
      move (Pipeline f c ws false rp rw y cs)
           (Pipeline f c (<[j := W_return]> ws) true rp rw y cs)
  | read_closeDone_closed f c ws j rp rw y cs :
      ws !! j = Some W_closeDone ->
      move (Pipeline f c ws true rp rw y cs)
           (Pipeline f c (<[j := W_panic closeOfClosed]> ws) true rp rw y cs)
  (* [repoIter.wg.Wait(); close(repoIter.rows)] *)
  | join_close f c ws d rp y cs :
      forallb hasReturned ws = true ->
      move (Pipeline f c ws d rp false y cs)
           (Pipeline f c ws d rp true y cs)
  (* Next: [row, ok := <-i.rows] on the closed channel *)
  | next_closed f c ws d rp y :
      move (Pipeline f c ws d rp true y C_recvRow)
           (Pipeline f c ws d rp true y C_recvErr).

(** One step of the program: a move, unless a goroutine has panicked. *)
Definition step (σ σ' : pipeline Iter) : Prop :=
  crashed σ = false /\ move σ σ'.

(** The state [NewRowRepoIter] leaves, with [wNum] readers started and a
    caller about to drain the iterator. *)
Definition start (wNum : nat) : pipeline Iter :=
  Pipeline F_select (fst RepoIter) (replicate wNum W_range)
           false false false [] C_recvRow.

(** The states a run with [wNum] readers can be in. *)
Definition runs (wNum : nat) (σ : pipeline Iter) : Prop :=
  rtc step (start wNum) σ.

(** No step is possible. *)
Definition stuck (σ : pipeline Iter) : Prop :=
  forall σ', ~ step σ σ'.

(** Calling [Next] on one iterator until it returns an error: the rows and
    that error. *)
Fixpoint drain (fuel : nat) (iter : Iter) : option (list Row * error) :=
  match fuel with
  | O => None
  | S fuel' =>
      match Next iter with
      | (iter', inl row) =>
          match drain fuel' iter' with
          | Some (rows, err) => Some (row :: rows, err)
          | None => None
          end
      | (_, inr err) => Some ([], err)
      end
  end.

(** What the pipeline is compared with: the rows of every repository in
    turn, as a loop over the sequential iterator gets them, for each
    repository [NewIterator] and then [Next] until [io.EOF].  The loop ends
    when the sequential iterator returns [io.EOF] (no error to report) or at
    the first error of another kind, and returns the rows of each repository
    it has seen. *)
Fixpoint sequential (fuel : nat) (c : RepositoryIter)
    : option (list (list Row) * option error) :=
  match fuel with
  | O => None
  | S fuel' =>
      match result (RepositoryIter_Next pool c w) with
      | (c', Ok repo) =>
          match NewIterator template repo with
          | inr err => Some ([], Some err)
          | inl iter =>
              match drain fuel' iter with
              | None => None
              | Some (rows, io_EOF) =>
                  match sequential fuel' c' with
                  | Some (rest, err) => Some (rows :: rest, err)
                  | None => None
                  end
              | Some (rows, err) => Some ([rows], Some err)
              end
          end
      | (_, Err io_EOF) => Some ([], None)
      | (_, Err err) => Some ([], Some err)
      | (_, Panic _) => None
      end
  end.

End PipelineModel.

(** [r] takes its elements from the lists [ls], those of each list in the
    order of the list. *)
Inductive Interleaving {A : Type} : list (list A) -> list A -> Prop :=
  | Interleaving_done ls :
      Forall (fun l => l = []) ls -> Interleaving ls []
  | Interleaving_take ls ls' x l r :
      ls ≡ₚ (x :: l) :: ls' ->
      Interleaving (l :: ls') r ->
      Interleaving ls (x :: r).

(** Row iterators for the fixture. *)
Module Iterators.

(** [testCommitIter] of the package's tests: one nil row per commit. *)
Definition testCommitIter : RowRepoIter (list string) :=
  {| NewIterator := fun _ repo => inl (CommitObjects (Repo repo));
     Next := fun commits =>
       match commits with
       | _ :: rest => (rest, inl [])
       | [] => ([], inr io_EOF)
       end;
     Close := fun _ => None |}.


(** An iterator whose first [Next] fails. *)
Definition corrupt : RowRepoIter (list string) :=
  {| NewIterator := fun _ repo => inl (CommitObjects (Repo repo));
     Next := fun commits => (commits, inr (errorString "object not found"));
     Close := fun _ => None |}.

(** An iterator whose rows say where they come from: the identifier of the
    repository and the commit. *)
Definition labelled : RowRepoIter (list Row) :=
  {| NewIterator := fun _ repo =>
       inl (map (fun commit => [ID repo; commit]) (CommitObjects (Repo repo)));
     Next := fun rows =>
       match rows with
       | row :: rest => (rest, inl row)
       | [] => ([], inr io_EOF)
       end;
     Close := fun _ => None |}.

Definition pool : RepositoryPool :=
  Add (Add NewRepositoryPool "a" "/repos/a") "b" "/repos/b".

Definition single : RepositoryPool :=
  Add NewRepositoryPool "a" "/repos/a".

End Iterators.

(** ** Readers and nil iterators *)

(** A reader that holds no nil iterator and has not dereferenced one. *)
Definition nonNil {Iter : Type} (r : reader Iter) : Prop :=
  match r with
  | W_select None => False
  | W_sendRow None _ => False
  | W_panic msg => msg <> nilDereference
  | _ => True
  end.

(** ** What holds of the states of a run

    The predicates the proofs about the pipeline are stated with. *)
Section PipelineInvariants.

Context {Iter : Type} `{RowRepoIter Iter}.
Variable template : Iter.
Variable w : World.
Variable pool : RepositoryPool.

(** [NewIterator] succeeds on every repository the pool can hand out. *)
Definition factoryNeverFails : Prop :=
  forall pos repo, result (GetPos pool pos w) = Ok repo ->
    exists iter, NewIterator template repo = inl iter.

(** No reader holds a nil iterator, and what the feeder hands out comes from
    the pool. *)
Definition nilInv (σ : pipeline Iter) : Prop :=
  Forall nonNil (rowReaders σ)
  /\ forall repo, fillRepoChannel σ = F_sendRepo repo ->
       exists pos, result (GetPos pool pos w) = Ok repo.

(** [rows] is closed only after every reader has returned, the caller leaves
    its receive on [rows] only once [rows] is closed, so no reader ever gets
    past [i.err <- err]; and the caller gets its error from the feeder. *)
Definition deliveryInv (σ : pipeline Iter) : Prop :=
  (rows_closed σ = true -> Forall (fun r => hasReturned r = true) (rowReaders σ))
  /\ (consumer σ <> C_recvRow -> rows_closed σ = true)
  /\ Forall (fun r => r <> W_closeDone) (rowReaders σ)
  /\ (forall err, consumer σ = C_returned err -> fillRepoChannel σ = F_return).

(** [Next] on [iter] gives the rows [rows] and then [io.EOF]. *)
Definition Drains (iter : Iter) (rows : list Row) : Prop :=
  exists fuel, drain fuel iter = Some (rows, io_EOF).

(** From cursor [c] on, the sequential loop ends without an error and gets
    the rows [rowss]. *)
Definition Completes (c : RepositoryIter) (rowss : list (list Row)) : Prop :=
  exists fuel, sequential template w pool fuel c = Some (rowss, None).

(** The rows a reader has still to send. *)
Definition readerPending (r : reader Iter) (rows : list Row) : Prop :=
  match r with
  | W_range | W_return => rows = []
  | W_select (Some iter) => Drains iter rows
  | W_sendRow (Some iter) row => exists rows', rows = row :: rows' /\ Drains iter rows'
  | _ => False
  end.

(** The rows of the repositories no reader has received yet. *)
Definition feederPending (f : feeder) (c : RepositoryIter) (repos : bool)
    (rowss : list (list Row)) : Prop :=
  match f with
  | F_select => repos = false /\ Completes c rowss
  | F_sendRepo repo =>
      repos = false
      /\ exists iter rows rest,
           NewIterator template repo = inl iter /\ Drains iter rows
           /\ rowss = rows :: rest /\ Completes c rest
  | F_closeRepos err => repos = false /\ err = io_EOF /\ rowss = []
  | F_sendErr err => repos = true /\ err = io_EOF /\ rowss = []
  | F_return => rowss = []
  | _ => False
  end.

(** Nothing is lost and nothing is made up: whatever the rows still to come
    interleave to, the rows already returned followed by it interleave the
    rows of the sequential loop.  [pw] are the rows each reader has still to
    send, [pf] those of the repositories still with the feeder. *)
Definition cleanAt (rowss : list (list Row)) (σ : pipeline Iter)
    (pw pf : list (list Row)) : Prop :=
  done_closed σ = false
  /\ (forall err, consumer σ = C_returned err -> err = io_EOF)
  /\ (fillRepoChannel σ = F_return -> exists err, consumer σ = C_returned err)
  /\ (repos_closed σ = false ->
      Forall (fun r => hasReturned r = false) (rowReaders σ))
  /\ Forall2 readerPending (rowReaders σ) pw
  /\ feederPending (fillRepoChannel σ) (repositoryIter σ) (repos_closed σ) pf
  /\ forall rest, Interleaving (pw ++ pf) rest ->
                  Interleaving rowss (yielded σ ++ rest).

(** The same, for some rows still to come. *)
Definition cleanInv (rowss : list (list Row)) (σ : pipeline Iter) : Prop :=
  exists pw pf, cleanAt rowss σ pw pf.

(** How many moves are left, at most: for the feeder three per repository
    and what the reader will need for its rows, for a reader two per row. *)
Definition cost (rowss : list (list Row)) : nat :=
  sum_list (map (fun rows => 2 * length rows + 3)%nat rowss).

Definition feederSteps (f : feeder) (rowss : list (list Row)) : nat :=
  match f with
  | F_select => cost rowss + 3
  | F_sendRepo _ => cost rowss + 2
  | F_closeRepos _ => 2
  | F_sendErr _ => 1
  | _ => 0
  end.

Definition readerSteps (r : reader Iter) (rows : list Row) : nat :=
  match r with
  | W_range => 1
  | W_select _ => 2 * length rows + 2
  | W_sendRow _ _ => 2 * length rows + 1
  | _ => 0
  end.

Fixpoint readersSteps (ws : list (reader Iter)) (pw : list (list Row)) : nat :=
  match ws, pw with
  | r :: ws', rows :: pw' => readerSteps r rows + readersSteps ws' pw'
  | _, _ => 0
  end.

Definition callerSteps (cs : caller) : nat :=
  match cs with
  | C_recvRow => 2
  | C_recvErr => 1
  | C_returned _ => 0
  end.

Definition stepsLeft (σ : pipeline Iter) (pw pf : list (list Row)) : nat :=
  feederSteps (fillRepoChannel σ) pf
  + readersSteps (rowReaders σ) pw
  + (if rows_closed σ then 0 else 1)
  + callerSteps (consumer σ).

(** A reader with an iterator in hand, and a reader waiting for a
    repository. *)
Definition working (r : reader Iter) : bool :=
  match r with
  | W_select _ | W_sendRow _ _ => true
  | _ => false
  end.

Definition waiting (r : reader Iter) : bool :=
  match r with
  | W_range => true
  | _ => false
  end.

(** Every registered location opens, under a non-empty identifier. *)
Definition validPool : Prop :=
  pool_inv pool
  /\ forall id path, repositories pool !! id = Some path ->
       id <> "" /\ exists repo, git_PlainOpen w path = inl repo.

(** On every repository a row iterator is built, and it ends with
    [io.EOF]. *)
Definition factoryDrains : Prop :=
  forall repo, exists iter rows,
    NewIterator template repo = inl iter /\ Drains iter rows.

End PipelineInvariants.

(** ** The runs of the examples *)

Definition repoA : Repository := NewRepository "a" Fixture.basic.

Definition objectNotFound : error := errorString "object not found".

(** A reader holds the repository, at [select] or already at
    [i.err <- err]. *)
Definition holdsRepo (r : reader (list string)) : Prop :=
  (exists commits, r = W_select (Some commits)) \/ r = W_sendErr objectNotFound.

(** No reader has a row to send. *)
Definition noRowHeld (r : reader (list string)) : Prop :=
  match r with
  | W_sendRow _ _ => False
  | _ => True
  end.

(** The feeder before the repository has reached a reader, and after. *)
Definition feederBefore (σ : pipeline (list string)) : Prop :=
  repos_closed σ = false
  /\ (fillRepoChannel σ = F_select /\ repositoryIter σ = {| pos := 0 |}
      \/ fillRepoChannel σ = F_sendRepo repoA
         /\ repositoryIter σ = {| pos := 1 |}).

Definition feederAfter (σ : pipeline (list string)) : Prop :=
  fillRepoChannel σ = F_select /\ repositoryIter σ = {| pos := 1 |}
  /\ repos_closed σ = false
  \/ fillRepoChannel σ = F_closeRepos io_EOF /\ repos_closed σ = false
  \/ fillRepoChannel σ = F_sendErr io_EOF.

(** What every state of the run looks like: the caller has been given
    nothing, and either the repository has not reached a reader and all
    readers wait for one, or a reader holds it. *)
Definition corruptInv (n : nat) (σ : pipeline (list string)) : Prop :=
  consumer σ = C_recvRow /\ yielded σ = []
  /\ done_closed σ = false /\ rows_closed σ = false
  /\ length (rowReaders σ) = S n
  /\ Forall noRowHeld (rowReaders σ)
  /\ (feederBefore σ /\ Forall (fun r => r = W_range) (rowReaders σ)
      \/ feederAfter σ
         /\ exists j r, rowReaders σ !! j = Some r /\ holdsRepo r).

(** The state in which the run with one reader ends: the reader at
    [i.err <- err], the feeder at [i.err <- io.EOF], the caller inside
    [Next] at [<-i.rows], and [rows] open. *)
Definition deadlock : pipeline (list string) :=
  Pipeline (F_sendErr io_EOF) {| pos := 1 |} [W_sendErr objectNotFound]
           false true false [] C_recvRow.

(** The state in which the run of the iterator of the tests over one
    repository with one reader ends: three rows returned, then [io.EOF]. *)
Definition finished : pipeline (list string) :=
  Pipeline F_return {| pos := 1 |} [W_return] false true true
           [[]; []; []] (C_returned io_EOF).

(** One more step of a run that is written out. *)
Ltac one_step rule :=
  eapply rtc_l; [split; [reflexivity|rule]|]; cbn.

(** ** Further vocabulary: sequences of calls on a pool *)

(** [p'] is what some calls of [Add], [AddGit] and [AddDir] make of [p]. *)
Inductive extends (p : RepositoryPool) : RepositoryPool -> Prop :=
  | extends_refl : extends p p
  | extends_Add p' id path :
      extends p p' -> extends p (Add p' id path)
  | extends_AddGit p' path w :
      extends p p' -> extends p (fst (result (AddGit p' path w)))
  | extends_AddDir p' path w :
      extends p p' -> extends p (fst (result (AddDir p' path w))).

(** The pools built from [NewRepositoryPool] by [AddGit] and [AddDir]
    alone, as the command line does. *)
Inductive scanned : RepositoryPool -> Prop :=
  | scanned_New : scanned NewRepositoryPool
  | scanned_AddGit p path w :
      scanned p -> scanned (fst (result (AddGit p path w)))
  | scanned_AddDir p path w :
      scanned p -> scanned (fst (result (AddDir p path w))).

(** What [GetPos] returns and asks when it gets as far as opening [path]
    for the identifier [id]. *)
Definition opened (w : World) (id path : string)
    : outcome Repository * list event :=
  (match git_PlainOpen w path with
   | inl repo => Ok (NewRepository id repo)
   | inr err => Err err
   end, [EvPlainOpen path]).

(** ** Further vocabulary: the feeder and the channels *)

Definition isEOF (err : error) : bool :=
  match err with
  | io_EOF => true
  | _ => false
  end.

(** A loop of [Next] on the cursor alone, until it returns an error: that
    error. *)
Fixpoint walk (w : World) (pool : RepositoryPool) (fuel : nat)
    (c : RepositoryIter) : option error :=
  match fuel with
  | O => None
  | S fuel' =>
      match result (RepositoryIter_Next pool c w) with
      | (c', Ok _) => walk w pool fuel' c'
      | (_, Err err) => Some err
      | (_, Panic _) => None
      end
  end.

Definition WalkEnds (w : World) (pool : RepositoryPool) (c : RepositoryIter)
    (err : error) : Prop :=
  exists fuel, walk w pool fuel c = Some err.

(** Where the feeder stands against the channels it closes and the error it
    has for the caller: [done] is closed by it alone, after an error of the
    cursor that is not [io.EOF]; [repos] is open until it closes it; it
    returns only after the caller took its error. *)
Definition feederAt (w : World) (pool : RepositoryPool) (f : feeder)
    (d rp : bool) (cs : caller) : Prop :=
  match f with
  | F_select | F_sendRepo _ => d = false /\ rp = false
  | F_closeDone err =>
      d = false /\ rp = false /\ isEOF err = false
      /\ WalkEnds w pool (fst RepoIter) err
  | F_closeRepos err =>
      d = negb (isEOF err) /\ rp = false /\ WalkEnds w pool (fst RepoIter) err
  | F_sendErr err =>
      d = negb (isEOF err) /\ rp = true /\ WalkEnds w pool (fst RepoIter) err
  | F_return =>
      rp = true
      /\ exists err, cs = C_returned err /\ d = negb (isEOF err)
                     /\ WalkEnds w pool (fst RepoIter) err
  | F_panic msg =>
      d = false /\ rp = false /\ msg = "index out of range" /\ ~ pool_inv pool
  end.

(** A reader that panicked dereferenced a nil iterator. *)
Definition panicIsNil {Iter : Type} (r : reader Iter) : Prop :=
  forall msg, r = W_panic msg -> msg = nilDereference.

Definition protocolInv {Iter : Type} (w : World) (pool : RepositoryPool)
    (σ : pipeline Iter) : Prop :=
  feederAt w pool (fillRepoChannel σ) (done_closed σ) (repos_closed σ)
    (consumer σ)
  /\ 0 <= pos (repositoryIter σ)
  /\ (forall err, WalkEnds w pool (repositoryIter σ) err ->
                  WalkEnds w pool (fst RepoIter) err)
  /\ Forall panicIsNil (rowReaders σ).

(** A pool whose only location does not open, and the state in which the
    run over it with one reader ends: [done] closed by the feeder, the open
    error returned by [Next]. *)
Definition repositoryNotExists : error := errorString "repository does not exist".

Definition broken : RepositoryPool :=
  Add NewRepositoryPool "notes" "/repos/notes".

Definition cancelled : pipeline (list string) :=
  Pipeline F_return {| pos := 0 |} [W_return] true true true []
           (C_returned repositoryNotExists).

(** A state in the middle of the run of the iterator of the tests over one
    repository with one reader: one row of three returned. *)
Definition midway : pipeline (list string) :=
  Pipeline F_select {| pos := 1 |} [W_select (Some ["e8d3ffa"; "918c48b"])]
           false false false [[]] C_recvRow.

(** ** Further vocabulary: a cursor that ends with an error *)

Section FailingCursor.

Context {Iter : Type} `{RowRepoIter Iter}.
Variable template : Iter.
Variable w : World.
Variable pool : RepositoryPool.

(** From the cursor [c] on, [Next] gives repositories on which
    [NewIterator] succeeds and whose iterators give the rows [rowss], each
    ending with [io.EOF]; then [Next] on the cursor returns the error
    [err], [io.EOF] or another one. *)
Fixpoint EndsWith (rowss : list (list Row)) (c : RepositoryIter)
    (err : error) : Prop :=
  match rowss with
  | [] => exists c', result (RepositoryIter_Next pool c w) = (c', Err err)
  | rows :: rest =>
      exists c' repo iter,
        result (RepositoryIter_Next pool c w) = (c', Ok repo)
        /\ NewIterator template repo = inl iter /\ Drains iter rows
        /\ EndsWith rest c' err
  end.

(** The rows of the repositories no reader has received yet, and what the
    feeder has closed. *)
Definition feederLeft (err : error) (f : feeder) (c : RepositoryIter)
    (d rp : bool) (pf : list (list Row)) : Prop :=
  match f with
  | F_select => d = false /\ rp = false /\ EndsWith pf c err
  | F_sendRepo repo =>
      d = false /\ rp = false
      /\ exists iter rows rest,
           NewIterator template repo = inl iter /\ Drains iter rows
           /\ pf = rows :: rest /\ EndsWith rest c err
  | F_closeDone e => d = false /\ rp = false /\ e = err /\ pf = []
  | F_closeRepos e => rp = false /\ e = err /\ pf = []
  | F_sendErr e => rp = true /\ e = err /\ pf = []
  | F_return => pf = []
  | F_panic _ => False
  end.

(** Nothing is made up, and what is lost is lost to a cancelled reader:
    [pw] are the rows each reader has still to send, [pf] those of the
    repositories still with the feeder, [lost] those the readers dropped
    when they found [done] closed. *)
Definition endsAt (rowss : list (list Row)) (err : error) (σ : pipeline Iter)
    (pw pf lost : list (list Row)) : Prop :=
  (forall e, consumer σ = C_returned e -> e = err)
  /\ (fillRepoChannel σ = F_return -> exists e, consumer σ = C_returned e)
  /\ (done_closed σ = false -> repos_closed σ = false ->
      Forall (fun r => hasReturned r = false) (rowReaders σ))
  /\ Forall2 readerPending (rowReaders σ) pw
  /\ feederLeft err (fillRepoChannel σ) (repositoryIter σ) (done_closed σ)
       (repos_closed σ) pf
  /\ forall rest, Interleaving (pw ++ pf ++ lost) rest ->
                  Interleaving rowss (yielded σ ++ rest).

(** How many moves are left, at most, when the feeder may still have to
    close [done]. *)
Definition feederStepsLeft (f : feeder) (pf : list (list Row)) : nat :=
  match f with
  | F_select => cost pf + 4
  | F_sendRepo _ => cost pf + 3
  | F_closeDone _ => 3
  | F_closeRepos _ => 2
  | F_sendErr _ => 1
  | _ => 0
  end.

Definition movesLeft (σ : pipeline Iter) (pw pf : list (list Row)) : nat :=
  feederStepsLeft (fillRepoChannel σ) pf
  + readersSteps (rowReaders σ) pw
  + (if rows_closed σ then 0 else 1)
  + callerSteps (consumer σ).

End FailingCursor.

(** A pool whose second location does not open, and a state in which a run
    over it with one reader ends: one row of the first repository was
    returned before the feeder closed [done], the other two were dropped,
    and [Next] returned the open error. *)
Definition mixed : RepositoryPool :=
  Add (Add NewRepositoryPool "a" "/repos/a") "notes" "/repos/notes".

Definition interrupted : pipeline (list string) :=
  Pipeline F_return {| pos := 1 |} [W_return] true true true [[]]
           (C_returned repositoryNotExists).

(** ** The final segment of a path *)




(** * Part II: the properties and their proofs *)

(** ** The fixture, computed *)

Example Base_examples :
  filepath.Base "/repos/a" = "a" /\ filepath.Base "/repos/a//" = "a"
  /\ filepath.Base "" = "." /\ filepath.Base "///" = "/"
  /\ filepath.Base "a" = "a".
Proof. repeat split; reflexivity. Qed.

Example Join_examples :
  filepath.Join ["/repos"; "a"] = "/repos/a"
  /\ filepath.Join ["/repos/"; "a"] = "/repos/a"
  /\ filepath.Join [""; "a"] = "a"
  /\ filepath.Join ["x/../y/."; "b"] = "y/b"
  /\ filepath.Join ["../../x"; "b"] = "../../x/b"
  /\ filepath.Join ["/.."; "b"] = "/b"
  /\ filepath.Join ["a/b/../.."; ".."] = ".."
  /\ filepath.Join ["abc/def/../.."; "x"] = "x"
  /\ filepath.Join ["/abc/def/../../.."; "x"] = "/x".
Proof. repeat split; reflexivity. Qed.

Example AddDir_example :
  let r := AddDir NewRepositoryPool "/repos" Fixture.world in
  idOrder (fst (result r)) = ["a"; "b"] /\ snd (result r) = None
  /\ asked r = [EvReadDir "/repos"; EvPlainOpen "/repos/a";
                EvPlainOpen "/repos/b"; EvPlainOpen "/repos/notes"].
Proof. repeat split; vm_compute; reflexivity. Qed.

(** ** Pools that the exported API can build *)

Lemma pool_inv_New : pool_inv NewRepositoryPool.
Proof.
  split; [constructor|].
  intros id; cbn. rewrite lookup_empty. split.
  - intros H; inversion H.
  - intros [? H]; discriminate.
Qed.

Lemma pool_inv_Add p id path : pool_inv p -> pool_inv (Add p id path).
Proof.
  intros [Hnd Hdom]. unfold Add, pool_inv; cbn.
  destruct (repositories p !! id) as [old|] eqn:Hid.
  - split; [assumption|]. intros id'.
    destruct (decide (id = id')) as [<-|Hne].
    + rewrite lookup_insert_eq. split; [eauto|]. intros _. apply Hdom. eauto.
    + rewrite lookup_insert_ne by assumption. apply Hdom.
  - assert (id ∉ idOrder p) as Hfresh.
    { intros Hin. apply Hdom in Hin. rewrite Hid in Hin. destruct Hin; discriminate. }
    split.
    + apply NoDup_app. repeat split; [assumption| |apply NoDup_singleton].
      intros x Hx Hx'. apply list_elem_of_singleton in Hx'. subst. contradiction.
    + intros id'. rewrite elem_of_app, list_elem_of_singleton.
      destruct (decide (id = id')) as [<-|Hne].
      * rewrite lookup_insert_eq. split; eauto.
      * rewrite lookup_insert_ne by assumption. rewrite Hdom.
        split; [intros [?|?]; [assumption|congruence]|auto].
Qed.

Lemma AddGit_eq p path w :
  AddGit p path w =
    (match git_PlainOpen w path with
     | inr err => (p, ("", Some err))
     | inl _ => (Add p (filepath.Base path) path, (filepath.Base path, None))
     end, [EvPlainOpen path]).
Proof.
  unfold AddGit, mbind, IO_bind, PlainOpen, mret, IO_ret.
  destruct (git_PlainOpen w path); reflexivity.
Qed.

Lemma pool_inv_AddGit p path w :
  pool_inv p -> pool_inv (fst (result (AddGit p path w))).
Proof.
  intros Hp. rewrite AddGit_eq. unfold result; cbn.
  destruct (git_PlainOpen w path); cbn; [apply pool_inv_Add|]; assumption.
Qed.

Lemma AddDir_range_cons p path f rest w :
  AddDir_range p path (f :: rest) w =
    if IsDir f then
      let name := filepath.Join [path; Name f] in
      let r := AddDir_range (fst (result (AddGit p name w))) path rest w in
      (fst r, EvPlainOpen name :: snd r)
    else AddDir_range p path rest w.
Proof.
  cbn [AddDir_range]. destruct (IsDir f); [|reflexivity].
  unfold mbind, IO_bind. rewrite AddGit_eq. unfold result; cbn.
  destruct (git_PlainOpen w _); cbn;
    match goal with |- context [AddDir_range ?a ?b ?c ?d] =>
      destruct (AddDir_range a b c d) end; reflexivity.
Qed.

Lemma pool_inv_AddDir_range path w dirs :
  forall p, pool_inv p -> pool_inv (fst (AddDir_range p path dirs w)).
Proof.
  induction dirs as [|f rest IH]; intros p Hp.
  - exact Hp.
  - rewrite AddDir_range_cons. destruct (IsDir f); cbn.
    + apply IH. apply pool_inv_AddGit, Hp.
    + apply IH, Hp.
Qed.

Lemma AddDir_eq p path w :
  AddDir p path w =
    match ioutil_ReadDir w path with
    | inr err => ((p, Some err), [EvReadDir path])
    | inl dirs =>
        let r := AddDir_range p path dirs w in
        ((fst r, None), EvReadDir path :: snd r)
    end.
Proof.
  unfold AddDir, mbind, IO_bind, ReadDir, mret, IO_ret.
  destruct (ioutil_ReadDir w path) as [dirs|err]; [|reflexivity].
  destruct (AddDir_range p path dirs w) as [p' t]; cbn.
  rewrite app_nil_r. reflexivity.
Qed.

Lemma pool_inv_AddDir p path w :
  pool_inv p -> pool_inv (fst (result (AddDir p path w))).
Proof.
  intros Hp. rewrite AddDir_eq. unfold result.
  destruct (ioutil_ReadDir w path); cbn; [|assumption].
  apply pool_inv_AddDir_range, Hp.
Qed.

Lemma reachable_inv p : reachable p -> pool_inv p.
Proof.
  induction 1;
    auto using pool_inv_New, pool_inv_Add, pool_inv_AddGit, pool_inv_AddDir.
Qed.

(** Under the invariant the map has as many keys as the slice has entries. *)
Lemma pool_inv_size p : pool_inv p -> size (repositories p) = length (idOrder p).
Proof.
  intros [Hnd Hdom].
  rewrite <- size_dom.
  assert (dom (repositories p) = list_to_set (idOrder p)) as ->.
  { apply set_eq. intros id.
    rewrite elem_of_dom, elem_of_list_to_set. symmetry. apply Hdom. }
  apply size_list_to_set, Hnd.
Qed.

Lemma index_Some l pos id :
  index l pos = Some id <-> 0 <= pos /\ l !! Z.to_nat pos = Some id.
Proof.
  unfold index. destruct (Z.ltb_spec pos 0); split.
  - discriminate.
  - intros [? _]; lia.
  - auto.
  - intros [_ ?]; assumption.
Qed.

Lemma index_in_bounds l pos :
  0 <= pos < Z.of_nat (length l) -> is_Some (index l pos).
Proof.
  intros [H0 Hlt]. unfold index.
  destruct (Z.ltb_spec pos 0); [lia|].
  apply lookup_lt_is_Some. lia.
Qed.

(** [GetPos] with the monad unfolded: what it returns and what it asks. *)
Lemma GetPos_eq p pos w :
  GetPos p pos w =
    if pos >=? Z.of_nat (size (repositories p)) then (Err io_EOF, [])
    else match index (idOrder p) pos with
         | None => (Panic "index out of range", [])
         | Some id =>
             if String.eqb id "" then (Err io_EOF, [])
             else
               let path := default "" (repositories p !! id) in
               (match git_PlainOpen w path with
                | inl repo => Ok (NewRepository id repo)
                | inr err => Err err
                end, [EvPlainOpen path])
         end.
Proof.
  unfold GetPos.
  destruct (pos >=? _); [reflexivity|].
  destruct (index (idOrder p) pos) as [id|]; [|reflexivity].
  destruct (String.eqb id ""); [reflexivity|].
  unfold NewRepositoryFromPath, mbind, IO_bind, PlainOpen, mret, IO_ret; cbn.
  destruct (git_PlainOpen w _); reflexivity.
Qed.

(** C3.  At every position that is at least the number of registered
    identifiers, whatever the pool holds (the empty pool included) and
    whatever the file system looks like, [GetPos] returns [io.EOF] and no
    repository, and opens nothing. *)
Theorem GetPos_beyond_is_EOF (p : RepositoryPool) (pos : Z) (w : World) :
  Z.of_nat (size (repositories p)) <= pos ->
  GetPos p pos w = (Err io_EOF, []).
Proof.
  intros Hge. rewrite GetPos_eq.
  destruct (Z.geb_spec pos (Z.of_nat (size (repositories p)))); [reflexivity|lia].
Qed.

Lemma GetPos_beyond_is_EOF_witness :
  GetPos NewRepositoryPool 0 Fixture.world = (Err io_EOF, [])
  /\ GetPos (Add NewRepositoryPool "0" "/tmp/wt") 1 Fixture.world = (Err io_EOF, []).
Proof.
  split; apply GetPos_beyond_is_EOF; vm_compute; discriminate.
Defined.




(** C10.  When the identifier stored at an in-bounds position is the empty
    string, [GetPos] returns [io.EOF] and does not open the location the map
    holds for it. *)
Theorem GetPos_empty_id_is_EOF (p : RepositoryPool) (pos : Z) (w : World) :
  pos < Z.of_nat (size (repositories p)) ->
  index (idOrder p) pos = Some "" ->
  GetPos p pos w = (Err io_EOF, []).
Proof.
  intros Hlt Hid. rewrite GetPos_eq.
  destruct (Z.geb_spec pos (Z.of_nat (size (repositories p)))); [reflexivity|].
  rewrite Hid. reflexivity.
Qed.

Lemma GetPos_empty_id_is_EOF_witness :
  let p := Add NewRepositoryPool "" "/tmp/wt" in
  repositories p !! "" = Some "/tmp/wt"
  /\ git_PlainOpen Fixture.world "/tmp/wt" = inl Fixture.basic
  /\ GetPos p 0 Fixture.world = (Err io_EOF, []).
Proof.
  cbv zeta. split; [reflexivity|]. split; [reflexivity|].
  apply GetPos_empty_id_is_EOF; [vm_compute|]; reflexivity.
Defined.

Lemma Add_registers p id path :
  pool_inv p ->
  repositories (Add p id path) !! id = Some path /\ id ∈ idOrder (Add p id path).
Proof.
  intros Hp. split; [apply lookup_insert_eq|].
  apply (pool_inv_Add p id path) in Hp. destruct Hp as [_ Hdom].
  apply Hdom. cbn. rewrite lookup_insert_eq. eauto.
Qed.

Lemma index_lt_length l pos id :
  index l pos = Some id -> 0 <= pos < Z.of_nat (length l).
Proof.
  intros H. apply index_Some in H as [H0 H].
  apply lookup_lt_Some in H. lia.
Qed.

Lemma elem_of_index (l : list string) id :
  id ∈ l -> exists pos, index l pos = Some id.
Proof.
  intros Hin. apply list_elem_of_lookup in Hin as [i Hi].
  exists (Z.of_nat i). apply index_Some. split; [lia|].
  rewrite Nat2Z.id. exact Hi.
Qed.

Lemma String_eqb_false id : id <> "" -> String.eqb id "" = false.
Proof. intros H. apply String.eqb_neq, H. Qed.

(** C5, as stated, fails for the empty identifier: after [Add] of the empty
    identifier with [a] and then with [b] the slice has one entry, the empty identifier sits at position
    0 and the map holds [b] for it, but [GetPos(0)] returns [io.EOF] without
    opening [b]. *)
Lemma Add_twice_empty_id_counterexample :
  let p1 := Add NewRepositoryPool "" "/repos/a" in
  let p2 := Add p1 "" "/repos/b" in
  reachable NewRepositoryPool
  /\ "/repos/b" <> "/repos/a"
  /\ length (idOrder p2) = length (idOrder p1)
  /\ index (idOrder p2) 0 = Some ""
  /\ repositories p2 !! "" = Some "/repos/b"
  /\ GetPos p2 0 Fixture.world = (Err io_EOF, [])
  /\ asked (GetPos p2 0 Fixture.world) <> [EvPlainOpen "/repos/b"].
Proof.
  cbv zeta. split; [constructor|]. split; [discriminate|].
  split; [reflexivity|]. split; [reflexivity|]. split; [reflexivity|].
  split; [reflexivity|]. vm_compute. discriminate.
Qed.

(** C5, amended.  For a pool the API built and a non-empty identifier, after
    [Add(id, loc1)] and [Add(id, loc2)] with [loc2] different from [loc1]
    the slice is as long as after the first [Add], the identifier has a
    position, and [GetPos] at a position holding it opens [loc2] and nothing
    else (so not [loc1]) and returns what that open gives. *)
Theorem Add_twice_opens_second (p : RepositoryPool) (id loc1 loc2 : string)
    (w : World) :
  reachable p -> id <> "" -> loc2 <> loc1 ->
  let p1 := Add p id loc1 in
  let p2 := Add p1 id loc2 in
  length (idOrder p2) = length (idOrder p1)
  /\ (exists pos, index (idOrder p2) pos = Some id)
  /\ (forall pos, index (idOrder p2) pos = Some id ->
        GetPos p2 pos w =
          (match git_PlainOpen w loc2 with
           | inl repo => Ok (NewRepository id repo)
           | inr err => Err err
           end, [EvPlainOpen loc2])
        /\ EvPlainOpen loc1 ∉ asked (GetPos p2 pos w)).
Proof.
  intros Hr Hid Hloc p1 p2.
  assert (pool_inv p1) as Hp1 by (apply pool_inv_Add, reachable_inv, Hr).
  assert (pool_inv p2) as Hp2 by (apply pool_inv_Add, Hp1).
  assert (repositories p1 !! id = Some loc1) as Hl1 by apply lookup_insert_eq.
  assert (idOrder p2 = idOrder p1) as Hsame.
  { unfold p2, Add at 1; cbn [idOrder]. rewrite Hl1. reflexivity. }
  split; [rewrite Hsame; reflexivity|].
  assert (forall pos, index (idOrder p2) pos = Some id ->
            GetPos p2 pos w =
              (match git_PlainOpen w loc2 with
               | inl repo => Ok (NewRepository id repo)
               | inr err => Err err
               end, [EvPlainOpen loc2])) as Hget.
  { intros pos Hpos. rewrite GetPos_eq.
    pose proof (index_lt_length _ _ _ Hpos) as Hb.
    rewrite (pool_inv_size p2 Hp2).
    destruct (Z.geb_spec pos (Z.of_nat (length (idOrder p2)))); [lia|].
    rewrite Hpos, (String_eqb_false id Hid).
    assert (repositories p2 !! id = Some loc2) as -> by apply lookup_insert_eq.
    reflexivity. }
  split.
  - apply elem_of_index. rewrite Hsame.
    apply (Add_registers p id loc1), reachable_inv, Hr.
  - intros pos Hpos. split; [apply Hget, Hpos|].
    rewrite (Hget pos Hpos). unfold asked; cbn.
    intros Hin. apply list_elem_of_singleton in Hin. congruence.
Qed.

Lemma Add_twice_opens_second_witness :
  let p1 := Add NewRepositoryPool "a" "/repos/notes" in
  let p2 := Add p1 "a" "/repos/a" in
  length (idOrder p2) = length (idOrder p1)
  /\ GetPos p2 0 Fixture.world
     = (Ok (NewRepository "a" Fixture.basic), [EvPlainOpen "/repos/a"]).
Proof.
  cbv zeta.
  destruct (Add_twice_opens_second NewRepositoryPool "a" "/repos/notes"
              "/repos/a" Fixture.world reachable_New)
    as (Hlen & _ & Hget); [discriminate|discriminate|].
  split; [exact Hlen|].
  apply (Hget 0). reflexivity.
Defined.

Lemma RepositoryIter_Next_eq pool i w :
  RepositoryIter_Next pool i w =
    (match result (GetPos pool (pos i) w) with
     | Ok repo => ({| pos := pos i + 1 |}, Ok repo)
     | Err err => (i, Err err)
     | Panic msg => (i, Panic msg)
     end, asked (GetPos pool (pos i) w)).
Proof.
  unfold RepositoryIter_Next, mbind, IO_bind, result, asked.
  destruct (GetPos pool (pos i) w) as [[repo|err|msg] t]; cbn;
    rewrite app_nil_r; reflexivity.
Qed.

(** C6.  [Next] does what [GetPos] at the cursor's position does to the file
    system.  If [GetPos] succeeds, [Next] returns the repository and the
    cursor has advanced by exactly one; if it returns [io.EOF], [Next] returns
    [io.EOF] and the cursor has not moved, so any number of further calls
    return [io.EOF] again and leave the cursor where it is; any other error
    is returned as it is. *)
Theorem RepositoryIter_Next_spec (pool : RepositoryPool) (i : RepositoryIter)
    (w : World) :
  asked (RepositoryIter_Next pool i w) = asked (GetPos pool (pos i) w)
  /\ (forall repo, result (GetPos pool (pos i) w) = Ok repo ->
        result (RepositoryIter_Next pool i w) = ({| pos := pos i + 1 |}, Ok repo))
  /\ (result (GetPos pool (pos i) w) = Err io_EOF ->
        result (RepositoryIter_Next pool i w) = (i, Err io_EOF)
        /\ forall n, Next_times n pool i w = (i, repeat (Err io_EOF) n))
  /\ (forall err, result (GetPos pool (pos i) w) = Err err ->
        result (RepositoryIter_Next pool i w) = (i, Err err)).
Proof.
  rewrite RepositoryIter_Next_eq. unfold asked at 1, result at 2 4 6; cbn [fst snd].
  split; [reflexivity|]. split; [intros repo ->; reflexivity|].
  split; [|intros err ->; reflexivity].
  intros Heof. rewrite Heof. split; [reflexivity|].
  induction n as [|n IH]; [reflexivity|].
  cbn [Next_times]. rewrite RepositoryIter_Next_eq.
  unfold result at 1; cbn [fst]. rewrite Heof, IH. reflexivity.
Qed.

Lemma RepositoryIter_Next_spec_witness :
  let pool := Add (Add NewRepositoryPool "0" "/tmp/wt") "1" "/repos/notes" in
  result (RepositoryIter_Next pool {| pos := 0 |} Fixture.world)
    = ({| pos := 1 |}, Ok (NewRepository "0" Fixture.basic))
  /\ result (RepositoryIter_Next pool {| pos := 1 |} Fixture.world)
     = ({| pos := 1 |}, Err (errorString "repository does not exist"))
  /\ Next_times 3 pool {| pos := 2 |} Fixture.world
     = ({| pos := 2 |}, [Err io_EOF; Err io_EOF; Err io_EOF]).
Proof.
  cbv zeta.
  split; [|split].
  - apply (proj1 (proj2 (RepositoryIter_Next_spec _ {| pos := 0 |} Fixture.world))).
    reflexivity.
  - apply (proj2 (proj2 (proj2 (RepositoryIter_Next_spec _ {| pos := 1 |}
                                  Fixture.world)))).
    reflexivity.
  - apply (proj2 (proj2 (RepositoryIter_Next_spec _ {| pos := 2 |} Fixture.world))).
    reflexivity.
Defined.

(** ** [filepath.Base (filepath.Join [path; name])] is [name] *)

Lemma element_noSeparator l tail :
  noSeparator l -> filepath.endsElement tail = true ->
  filepath.element (l ++ tail) = (l, tail).
Proof.
  unfold noSeparator. induction l as [|c l IH]; cbn; intros Hl Ht.
  - destruct tail as [|c t]; [reflexivity|]. cbn in Ht |- *. rewrite Ht. reflexivity.
  - apply andb_true_iff in Hl as [Hc Hl]. apply negb_true_iff in Hc.
    rewrite Hc, (IH Hl Ht). reflexivity.
Qed.

(** Cutting [pre ++ "/" ++ n] at its first separator leaves [pre' ++ "/" ++ n]
    with [pre'] no longer than [pre]. *)
Lemma element_before_name pre n :
  exists e pre',
    filepath.element (pre ++ filepath.Separator :: n)
      = (e, pre' ++ filepath.Separator :: n)
    /\ (length pre' <= length pre)%nat.
Proof.
  induction pre as [|c pre IH]; cbn.
  - exists [], []. split; [reflexivity|cbn; lia].
  - destruct (filepath.IsPathSeparator c) eqn:Hc.
    + exists [], (c :: pre). split; [reflexivity|cbn; lia].
    + destruct IH as (e & pre' & -> & Hlen).
      exists (c :: e), pre'. split; [reflexivity|cbn; lia].
Qed.

Lemma isDot_true c : filepath.isDot c = true -> c = "."%char.
Proof. unfold filepath.isDot. apply Ascii.eqb_eq. Qed.

Lemma noSeparator_head c l :
  noSeparator (c :: l) -> filepath.IsPathSeparator c = false /\ noSeparator l.
Proof.
  unfold noSeparator; cbn. intros H. apply andb_true_iff in H as [Hc Hl].
  apply negb_true_iff in Hc. split; assumption.
Qed.

Lemma noSeparator_endsElement l :
  noSeparator l -> filepath.endsElement l = true -> l = [].
Proof.
  destruct l as [|c l]; [reflexivity|].
  intros Hl He. apply noSeparator_head in Hl as [Hc _]. cbn in He. congruence.
Qed.

(** The last element of the joined path is a real element: it is copied to
    the buffer after a separator, or as the buffer's first bytes. *)
Lemma cleanLoop_name rooted n out dotdot fuel :
  legal n -> outInv rooted out dotdot -> (0 < fuel)%nat ->
  exists o, filepath.cleanLoop fuel rooted n out dotdot = o ++ n /\ endsWithSep o.
Proof.
  intros (Hne & Hns & Hdot & Hdotdot) Hinv Hfuel.
  destruct fuel as [|fuel]; [lia|].
  destruct n as [|c r1]; [congruence|].
  pose proof (noSeparator_head _ _ Hns) as [Hc Hr1].
  cbn [filepath.cleanLoop]. rewrite Hc.
  destruct (filepath.isDot c && filepath.endsElement r1) eqn:E1.
  { apply andb_true_iff in E1 as [Hd He]. apply isDot_true in Hd.
    apply (noSeparator_endsElement _ Hr1) in He. subst. congruence. }
  destruct (filepath.isDot c && match r1 with
                                | c1 :: r2 => filepath.isDot c1 && filepath.endsElement r2
                                | [] => false
                                end) eqn:E2.
  { apply andb_true_iff in E2 as [Hd He]. apply isDot_true in Hd.
    destruct r1 as [|c1 r2]; [discriminate|].
    apply andb_true_iff in He as [Hd1 He]. apply isDot_true in Hd1.
    apply noSeparator_head in Hr1 as [_ Hr2].
    apply (noSeparator_endsElement _ Hr2) in He. subst. congruence. }
  pose proof (element_noSeparator (c :: r1) [] Hns eq_refl) as Hel.
  rewrite app_nil_r in Hel. rewrite Hel.
  match goal with |- context [if ?b then out ++ _ else out] =>
    destruct b eqn:Hcond end.
  - exists (out ++ [filepath.Separator]).
    split; [destruct fuel; reflexivity|]. right. eauto.
  - exists out. split; [destruct fuel; reflexivity|].
    apply orb_false_iff in Hcond as [H1 H2].
    destruct rooted.
    + destruct (Hinv eq_refl) as (_ & t & ->). cbn in H1.
      apply negb_false_iff, Nat.eqb_eq in H1.
      destruct t; [|discriminate]. right. exists []. reflexivity.
    + cbn in H2. apply negb_false_iff, Nat.eqb_eq in H2.
      destruct out; [|discriminate]. left. reflexivity.
Qed.

Lemma backtrack_ge out dotdot w :
  (dotdot <= w)%nat -> (dotdot <= filepath.backtrack out dotdot w)%nat.
Proof.
  induction w as [|w IH]; intros Hle; cbn [filepath.backtrack]; [lia|].
  destruct (Nat.ltb_spec dotdot (S w)); cbn [andb]; [|lia].
  destruct (negb _); [apply IH|]; lia.
Qed.

Lemma outInv_app rooted out dotdot l :
  outInv rooted out dotdot -> outInv rooted (out ++ l) dotdot.
Proof.
  intros Hinv Hr. destruct (Hinv Hr) as (Hd & t & ->).
  split; [exact Hd|]. exists (t ++ l). reflexivity.
Qed.

(** Whatever precedes the last element, the loop reaches the last element
    with fuel left and the buffer as [Clean] keeps it. *)
Lemma cleanLoop_prefix rooted n k :
  forall pre fuel out dotdot,
    (length pre <= k)%nat ->
    (length pre + 1 + length n <= fuel)%nat -> (0 < length n)%nat ->
    outInv rooted out dotdot ->
    exists fuel' out' dotdot',
      filepath.cleanLoop fuel rooted (pre ++ filepath.Separator :: n) out dotdot
        = filepath.cleanLoop fuel' rooted n out' dotdot'
      /\ (0 < fuel')%nat /\ outInv rooted out' dotdot'.
Proof.
  induction k as [|k IH]; intros pre fuel out dotdot Hk Hfuel Hn Hinv.
  - destruct pre; [|cbn in Hk; lia].
    destruct fuel as [|fuel]; [cbn in Hfuel; lia|].
    exists fuel, out, dotdot. cbn in Hfuel.
    split; [reflexivity|]. split; [lia|assumption].
  - destruct pre as [|c pre1].
    { destruct fuel as [|fuel]; [cbn in Hfuel; lia|].
      exists fuel, out, dotdot. cbn in Hfuel.
      split; [reflexivity|]. split; [lia|assumption]. }
    destruct fuel as [|fuel]; [cbn in Hfuel; lia|].
    cbn [length] in Hk, Hfuel.
    rewrite <- app_comm_cons. cbn [filepath.cleanLoop].
    destruct (filepath.IsPathSeparator c) eqn:Hc.
    { apply IH; [lia|lia|assumption|assumption]. }
    destruct (filepath.isDot c
              && filepath.endsElement (pre1 ++ filepath.Separator :: n)) eqn:E1.
    { apply IH; [lia|lia|assumption|assumption]. }
    match goal with |- context [if ?b then _ else _] => destruct b eqn:E2 end.
    + destruct pre1 as [|c1 pre2].
      { cbn in E2. rewrite andb_false_r in E2. discriminate. }
      rewrite <- app_comm_cons. cbn [tl]. cbn [length] in Hk, Hfuel.
      destruct (dotdot <? length out)%nat eqn:Hdd.
      * apply IH; [lia|lia|assumption|].
        intros Hr. destruct (Hinv Hr) as (-> & t & ->). split; [reflexivity|].
        apply Nat.ltb_lt in Hdd.
        pose proof (backtrack_ge (filepath.Separator :: t) 1
                      (length (filepath.Separator :: t) - 1)) as Hge.
        destruct (filepath.backtrack _ 1 _) as [|w]; [cbn in Hdd, Hge; lia|].
        exists (take w t). reflexivity.
      * destruct rooted; cbn [negb].
        -- apply IH; [lia|lia|assumption|assumption].
        -- apply IH; [lia|lia|assumption|]. intros Hr; discriminate.
    + cbn [filepath.element]. rewrite Hc.
      destruct (element_before_name pre1 n) as (e & pre' & -> & Hlen).
      apply IH; [lia|lia|assumption|].
      apply outInv_app.
      destruct (_ || _); [apply outInv_app|]; assumption.
Qed.

Lemma noSeparator_rev n : noSeparator n -> noSeparator (rev n).
Proof.
  unfold noSeparator. induction n as [|c n IH]; cbn; [reflexivity|].
  intros H. apply andb_true_iff in H as [Hc Hn].
  rewrite forallb_app, (IH Hn). cbn. rewrite Hc. reflexivity.
Qed.

Lemma endsWithSep_rev o : endsWithSep o -> filepath.endsElement (rev o) = true.
Proof.
  intros [->|[o' ->]]; [reflexivity|].
  rewrite rev_app_distr. reflexivity.
Qed.

Lemma string_of_list_ascii_nonempty l :
  l <> [] -> String.eqb (string_of_list_ascii l) "" = false.
Proof. destruct l; [congruence|reflexivity]. Qed.

(** [Base] of a path whose last element is a legal name, right after a
    separator or at the start, is that name. *)
Lemma Base_last o n :
  legal n -> endsWithSep o ->
  filepath.Base (string_of_list_ascii (o ++ n)) = string_of_list_ascii n.
Proof.
  intros (Hne & Hns & _) Ho. unfold filepath.Base.
  rewrite string_of_list_ascii_nonempty by (destruct o, n; cbn; congruence).
  rewrite list_ascii_of_string_of_list_ascii, rev_app_distr.
  pose proof (noSeparator_rev n Hns) as Hrev.
  assert (rev n <> []) as Hrne.
  { intros H. apply (f_equal (@rev ascii)) in H. rewrite rev_involutive in H.
    cbn in H. congruence. }
  assert (filepath.dropSeparators (rev n ++ rev o) = rev n ++ rev o) as ->.
  { destruct (rev n) as [|c t]; [congruence|].
    apply noSeparator_head in Hrev as [Hc _]. cbn. rewrite Hc. reflexivity. }
  rewrite (element_noSeparator _ _ Hrev (endsWithSep_rev o Ho)). cbn [fst].
  rewrite rev_involutive. destruct n; [congruence|reflexivity].
Qed.

Lemma list_ascii_of_string_app a b :
  list_ascii_of_string (a +:+ b) = list_ascii_of_string a ++ list_ascii_of_string b.
Proof.
  induction a as [|c a IH]; [reflexivity|].
  change (String c a +:+ b) with (String c (a +:+ b)).
  cbn [list_ascii_of_string]. rewrite IH. reflexivity.
Qed.

(** [Clean] keeps a legal last element as the last element. *)
Lemma Clean_keeps_name pre n :
  legal n ->
  exists o,
    filepath.Clean (string_of_list_ascii (pre ++ filepath.Separator :: n))
      = string_of_list_ascii (o ++ n)
    /\ endsWithSep o.
Proof.
  intros Hn. pose proof Hn as (Hne & _).
  assert (0 < length n)%nat as Hlen by (destruct n; cbn; [congruence|lia]).
  assert (forall out : list ascii, forall o, out = o ++ n ->
            match out with [] => "." | _ => string_of_list_ascii out end
            = string_of_list_ascii (o ++ n)) as Hout.
  { intros out o ->. destruct o, n; cbn; congruence. }
  unfold filepath.Clean. rewrite list_ascii_of_string_of_list_ascii.
  destruct pre as [|c pre1].
  - cbn [app]. change (filepath.IsPathSeparator filepath.Separator) with true.
    cbv zeta. cbn [tl].
    destruct (cleanLoop_name true n [filepath.Separator] 1
                (length (filepath.Separator :: n)) Hn) as (o & Ho & Hends).
    { intros _. split; [reflexivity|]. exists []. reflexivity. }
    { cbn; lia. }
    exists o. split; [|exact Hends]. rewrite Ho. apply (Hout _ o eq_refl).
  - rewrite <- app_comm_cons. cbv zeta. cbn [tl].
    destruct (filepath.IsPathSeparator c) eqn:Hc.
    + destruct (cleanLoop_prefix true n (length pre1) pre1
                  (length (c :: pre1 ++ filepath.Separator :: n))
                  [filepath.Separator] 1) as (fuel' & out' & dd' & -> & Hf & Hinv).
      { lia. } { cbn. rewrite length_app. cbn. lia. } { exact Hlen. }
      { intros _. split; [reflexivity|]. exists []. reflexivity. }
      destruct (cleanLoop_name true n out' dd' fuel' Hn Hinv Hf) as (o & -> & Hends).
      exists o. split; [|exact Hends]. apply (Hout _ o eq_refl).
    + destruct (cleanLoop_prefix false n (length (c :: pre1)) (c :: pre1)
                  (length (c :: pre1 ++ filepath.Separator :: n))
                  [] 0) as (fuel' & out' & dd' & Heq & Hf & Hinv).
      { lia. } { cbn. rewrite length_app. cbn. lia. } { exact Hlen. }
      { intros Hr; discriminate. }
      rewrite <- app_comm_cons in Heq. rewrite Heq.
      destruct (cleanLoop_name false n out' dd' fuel' Hn Hinv Hf) as (o & -> & Hends).
      exists o. split; [|exact Hends]. apply (Hout _ o eq_refl).
Qed.

Lemma validName_legal name :
  validName name = true -> legal (list_ascii_of_string name).
Proof.
  unfold validName, legal. intros H.
  repeat (apply andb_true_iff in H as [H ?]).
  apply negb_true_iff, String.eqb_neq in H.
  repeat match goal with
         | H : negb (String.eqb _ _) = true |- _ =>
             apply negb_true_iff, String.eqb_neq in H
         end.
  repeat split; try assumption; intros Heq;
    apply (f_equal string_of_list_ascii) in Heq;
    rewrite string_of_list_ascii_of_string in Heq; cbn in Heq; congruence.
Qed.

(** The identifier [AddGit] derives for a child of a directory is the
    child's name. *)
Lemma Base_Join_name path name :
  validName name = true ->
  filepath.Base (filepath.Join [path; name]) = name.
Proof.
  intros Hv. pose proof (validName_legal name Hv) as Hn.
  assert (String.eqb name "" = false) as Hne.
  { destruct name; [discriminate Hv|reflexivity]. }
  cbn [filepath.Join]. rewrite Hne.
  destruct (String.eqb path "") eqn:Hp.
  - cbn [filepath.joinWith].
    destruct (list_ascii_of_string name) as [|c r] eqn:Hl.
    { destruct Hn as [Hn _]. congruence. }
    rewrite <- (string_of_list_ascii_of_string name) at 1.
    unfold filepath.Clean. rewrite list_ascii_of_string_of_list_ascii, Hl.
    pose proof Hn as (_ & Hns & _).
    apply noSeparator_head in Hns as [Hc _]. rewrite Hc. cbv zeta.
    destruct (cleanLoop_name false (c :: r) [] 0 (length (c :: r)) Hn)
      as (o & -> & Hends); [intros Hr; discriminate|cbn; lia|].
    assert (match o ++ c :: r with [] => "." | _ => string_of_list_ascii (o ++ c :: r) end
            = string_of_list_ascii (o ++ c :: r)) as -> by (destruct o; reflexivity).
    rewrite (Base_last o (c :: r) Hn Hends), <- Hl.
    apply string_of_list_ascii_of_string.
  - cbn [filepath.joinWith].
    rewrite <- (string_of_list_ascii_of_string (path +:+ _ +:+ name)).
    rewrite !list_ascii_of_string_app. cbn [list_ascii_of_string app].
    destruct (Clean_keeps_name (list_ascii_of_string path)
                (list_ascii_of_string name) Hn) as (o & -> & Hends).
    rewrite (Base_last o _ Hn Hends).
    apply string_of_list_ascii_of_string.
Qed.

(** ** [filepath.Base] and the final segment of a path *)








(** ** [AddDir] *)

Lemma Add_all_lookup_other kvs :
  forall p id, id ∉ map fst kvs ->
    repositories (Add_all p kvs) !! id = repositories p !! id.
Proof.
  induction kvs as [|[k v] kvs IH]; intros p id Hid; [reflexivity|].
  cbn in Hid |- *. apply not_elem_of_cons in Hid as [Hne Hid].
  unfold Add_all in IH. rewrite IH by assumption. cbn.
  apply lookup_insert_ne. congruence.
Qed.

Lemma Add_all_lookup kvs :
  forall p id path, NoDup (map fst kvs) -> (id, path) ∈ kvs ->
    repositories (Add_all p kvs) !! id = Some path.
Proof.
  induction kvs as [|[k v] kvs IH]; intros p id path Hnd Hin.
  - inversion Hin.
  - cbn in Hnd. apply NoDup_cons in Hnd as [Hk Hnd].
    apply elem_of_cons in Hin as [Heq|Hin].
    + injection Heq as -> ->. cbn.
      fold (Add_all (Add p k v) kvs).
      rewrite Add_all_lookup_other by assumption.
      apply lookup_insert_eq.
    + cbn. apply IH; assumption.
Qed.

Lemma Add_all_fresh kvs :
  forall p, NoDup (map fst kvs) ->
    (forall id, id ∈ map fst kvs -> repositories p !! id = None) ->
    idOrder (Add_all p kvs) = idOrder p ++ map fst kvs
    /\ size (repositories (Add_all p kvs)) = (size (repositories p) + length kvs)%nat.
Proof.
  induction kvs as [|[k v] kvs IH]; intros p Hnd Hfresh.
  - cbn. rewrite app_nil_r. split; [reflexivity|lia].
  - cbn in Hnd. apply NoDup_cons in Hnd as [Hk Hnd].
    assert (repositories p !! k = None) as Hpk by (apply Hfresh; cbn; left).
    cbn. fold (Add_all (Add p k v) kvs).
    destruct (IH (Add p k v) Hnd) as [Hord Hsize].
    { intros id Hid. cbn. rewrite lookup_insert_ne by (intros ->; contradiction).
      apply Hfresh. cbn. right. exact Hid. }
    rewrite Hord, Hsize. unfold Add; cbn. rewrite Hpk.
    rewrite map_size_insert_None by assumption.
    rewrite <- app_assoc. split; [reflexivity|lia].
Qed.

(** The loop of [AddDir] is [Add] for the entries that are directories and
    open, in the order of the listing. *)
Lemma AddDir_range_Add_all path w dirs :
  forall p,
    fst (AddDir_range p path dirs w) =
      Add_all p (map (fun f => (filepath.Base (child path f), child path f))
                     (filter (fun f => opensAsRepo w path f = true) dirs)).
Proof.
  induction dirs as [|f rest IH]; intros p; [reflexivity|].
  rewrite AddDir_range_cons.
  destruct (IsDir f) eqn:Hd.
  - cbv zeta. cbn [fst]. rewrite IH, AddGit_eq. unfold result; cbn [fst].
    fold (child path f).
    destruct (git_PlainOpen w (child path f)) eqn:Ho; cbn [fst].
    + rewrite filter_cons_True by (unfold opensAsRepo; rewrite Hd, Ho; reflexivity).
      reflexivity.
    + rewrite filter_cons_False
        by (unfold opensAsRepo; rewrite Hd, Ho; discriminate).
      reflexivity.
  - rewrite filter_cons_False by (unfold opensAsRepo; rewrite Hd; discriminate).
    apply IH.
Qed.

Lemma NoDup_map_filter {A B} (f : A -> B) (P : A -> Prop)
    `{forall x, Decision (P x)} (l : list A) :
  NoDup (map f l) -> NoDup (map f (filter P l)).
Proof.
  induction l as [|x l IH]; [constructor|].
  cbn [map]. intros Hnd. apply NoDup_cons in Hnd as [Hx Hnd].
  rewrite filter_cons. destruct (decide (P x)); [|apply IH, Hnd].
  cbn. apply NoDup_cons. split; [|apply IH, Hnd].
  intros Hin. apply Hx.
  apply list_elem_of_In, in_map_iff in Hin as (y & Hy & Hiny).
  apply list_elem_of_In, in_map_iff. exists y. split; [exact Hy|].
  apply list_elem_of_In. apply list_elem_of_In in Hiny.
  apply list_elem_of_filter in Hiny as [_ Hiny]. exact Hiny.
Qed.

Lemma Name_inj_listing dirs f g :
  NoDup (map Name dirs) -> f ∈ dirs -> g ∈ dirs -> Name f = Name g -> f = g.
Proof.
  induction dirs as [|x dirs IH]; intros Hnd Hf Hg Heq; [inversion Hf|].
  cbn in Hnd. apply NoDup_cons in Hnd as [Hx Hnd].
  assert (forall y, y ∈ dirs -> Name y <> Name x) as Hfresh.
  { intros y Hy Hn. apply Hx. rewrite <- Hn.
    apply list_elem_of_In, in_map, list_elem_of_In, Hy. }
  apply elem_of_cons in Hf as [->|Hf]; apply elem_of_cons in Hg as [->|Hg].
  - reflexivity.
  - symmetry in Heq. destruct (Hfresh g Hg Heq).
  - destruct (Hfresh f Hf Heq).
  - apply IH; assumption.
Qed.

(** C8.  [AddDir] returns an error exactly when listing the path fails, and
    then the pool is what it was.  When the listing succeeds, [AddDir] returns
    nil; every entry that is a directory and opens as a repository is
    registered under its name with its path; the map is unchanged at the name
    of every other entry (the directories that do not open are skipped) and at
    every identifier that is not the name of a registered entry; and in a
    pool that held none of these names, [idOrder] grows by exactly the names
    of the directories that open, in listing order, and the map by as many
    keys. *)
Theorem AddDir_spec (p : RepositoryPool) (path : string) (w : World) :
  (snd (result (AddDir p path w)) <> None
   <-> exists err, ioutil_ReadDir w path = inr err)
  /\ (forall err, ioutil_ReadDir w path = inr err ->
        result (AddDir p path w) = (p, Some err))
  /\ (forall dirs, ioutil_ReadDir w path = inl dirs -> listingOK dirs ->
        let p' := fst (result (AddDir p path w)) in
        let valid := filter (fun f => opensAsRepo w path f = true) dirs in
        snd (result (AddDir p path w)) = None
        /\ (forall f, f ∈ dirs -> opensAsRepo w path f = true ->
              repositories p' !! Name f = Some (child path f))
        /\ (forall f, f ∈ dirs -> opensAsRepo w path f = false ->
              repositories p' !! Name f = repositories p !! Name f)
        /\ (forall id, id ∉ map Name valid ->
              repositories p' !! id = repositories p !! id)
        /\ ((forall f, f ∈ valid -> repositories p !! Name f = None) ->
              idOrder p' = idOrder p ++ map Name valid
              /\ size (repositories p')
                 = (size (repositories p) + length valid)%nat)).
Proof.
  rewrite AddDir_eq. unfold result.
  split; [|split].
  - destruct (ioutil_ReadDir w path) as [dirs|err]; cbn; split.
    + intros H; congruence.
    + intros [err H]; discriminate.
    + eauto.
    + discriminate.
  - intros err ->. reflexivity.
  - intros dirs -> [Hnd Hvalid]. cbv zeta. cbn [fst snd].
    set (valid := filter (fun f => opensAsRepo w path f = true) dirs).
    assert (forall f, f ∈ valid -> f ∈ dirs /\ opensAsRepo w path f = true) as Hsub.
    { intros f Hf. apply list_elem_of_filter in Hf as [? ?]. split; assumption. }
    assert (fst (AddDir_range p path dirs w)
            = Add_all p (map (fun f => (Name f, child path f)) valid)) as ->.
    { rewrite AddDir_range_Add_all. fold valid. f_equal.
      apply map_ext_in. intros f Hf. apply list_elem_of_In, Hsub in Hf as [Hf _].
      rewrite Forall_forall in Hvalid. unfold child.
      rewrite (Base_Join_name path (Name f)) by (apply Hvalid, Hf). reflexivity. }
    assert (map fst (map (fun f => (Name f, child path f)) valid) = map Name valid)
      as Hkeys by (rewrite List.map_map; reflexivity).
    assert (NoDup (map Name valid)) as Hndv by (apply NoDup_map_filter, Hnd).
    assert (forall id, id ∉ map Name valid ->
              repositories (Add_all p (map (fun f => (Name f, child path f)) valid)) !! id
              = repositories p !! id) as Hother.
    { intros id Hid. apply Add_all_lookup_other. rewrite Hkeys. exact Hid. }
    split; [reflexivity|]. split; [|split; [|split; [exact Hother|]]].
    + intros f Hf Hopen. apply Add_all_lookup; [rewrite Hkeys; exact Hndv|].
      apply list_elem_of_In, in_map_iff. exists f. split; [reflexivity|].
      apply list_elem_of_In, list_elem_of_filter. split; assumption.
    + intros f Hf Hfail. apply Hother. intros Hin.
      apply list_elem_of_In, in_map_iff in Hin as (g & Hg & Hgin).
      apply list_elem_of_In, Hsub in Hgin as [Hgin Hgopen].
      assert (g = f) by (apply (Name_inj_listing dirs); assumption).
      subst. congruence.
    + intros Hfresh.
      destruct (Add_all_fresh (map (fun f => (Name f, child path f)) valid) p)
        as [Hord Hsize].
      * rewrite Hkeys. exact Hndv.
      * rewrite Hkeys. intros id Hid.
        apply list_elem_of_In, in_map_iff in Hid as (g & <- & Hgin).
        apply Hfresh, list_elem_of_In, Hgin.
      * rewrite Hord, Hsize, Hkeys, length_map. split; reflexivity.
Qed.

Lemma AddDir_spec_witness :
  let r := result (AddDir NewRepositoryPool "/repos" Fixture.world) in
  snd r = None
  /\ idOrder (fst r) = ["a"; "b"]
  /\ size (repositories (fst r)) = 2%nat
  /\ repositories (fst r) !! "a" = Some "/repos/a"
  /\ repositories (fst r) !! "notes" = None
  /\ result (AddDir NewRepositoryPool "/nowhere" Fixture.world)
     = (NewRepositoryPool, Some (errorString "no such file or directory")).
Proof.
  cbv zeta.
  destruct (AddDir_spec NewRepositoryPool "/repos" Fixture.world)
    as (_ & _ & Hlist).
  destruct (Hlist _ eq_refl) as (Herr & Hreg & Hskip & _ & Hfresh).
  { split.
    - cbn. apply (bool_decide_unpack _). vm_compute. exact I.
    - repeat constructor. }
  destruct Hfresh as [Hord Hsize]; [intros f _; apply lookup_empty|].
  split; [exact Herr|]. split; [exact Hord|]. split; [exact Hsize|].
  split; [|split].
  - apply (Hreg {| Name := "a"; IsDir := true |}); [|reflexivity].
    apply list_elem_of_In. cbn. auto.
  - refine (eq_trans (Hskip {| Name := "notes"; IsDir := true |} _ eq_refl) eq_refl).
    apply list_elem_of_In. cbn. auto.
  - apply (proj1 (proj2 (AddDir_spec NewRepositoryPool "/nowhere" Fixture.world))).
    reflexivity.
Defined.

(** ** C9: the error of [NewIterator] *)

Section NilIterator.

Context {Iter : Type} `{RowRepoIter Iter}.
Variable template : Iter.
Variable w : World.
Variable pool : RepositoryPool.
Implicit Types σ : pipeline Iter.

Lemma afterRowNext_nonNil iter : nonNil (afterRowNext (Next iter)).
Proof.
  unfold afterRowNext. destruct (Next iter) as [iter' [row|[|msg]]]; exact I.
Qed.

Lemma afterRepoNext_sendRepo c c' r repo :
  result (RepositoryIter_Next pool c w) = (c', r) ->
  afterRepoNext r = F_sendRepo repo ->
  result (GetPos pool (pos c) w) = Ok repo.
Proof.
  rewrite RepositoryIter_Next_eq. unfold result at 1; cbn [fst].
  destruct (result (GetPos pool (pos c) w)) as [repo'|[|msg]|msg];
    intros Heq Hafter; injection Heq as <- <-; cbn in Hafter;
    try discriminate.
  injection Hafter as ->. reflexivity.
Qed.

Lemma nilInv_move σ σ' :
  factoryNeverFails template w pool -> nilInv w pool σ ->
  move template w pool σ σ' -> nilInv w pool σ'.
Proof.
  intros Hfactory [Hws Hfeed] Hmove.
  inversion Hmove; subst; cbn [rowReaders fillRepoChannel] in *;
    try match goal with
        | Hj : ?ws !! _ = Some (W_select None) |- _ =>
            exfalso; rewrite Forall_lookup in Hws; exact (Hws _ _ Hj)
        end;
    (split; [try assumption; try (apply Forall_insert; [assumption|])
            | try (intros repo' Hrepo; discriminate Hrepo);
              try (exact Hfeed)]).
  all: try exact I.
  all: try (cbn; discriminate).
  - intros repo Hrepo. exists (pos c).
    eapply afterRepoNext_sendRepo; eassumption.
  - destruct (Hfeed repo eq_refl) as [p Hp].
    destruct (Hfactory p repo Hp) as [iter ->]. exact I.
  - apply afterRowNext_nonNil.
  - rewrite Forall_lookup in Hws.
    match goal with Hj : _ !! _ = Some _ |- _ => specialize (Hws _ _ Hj) end.
    destruct iter; [exact I|exact Hws].
Qed.

Lemma nilInv_start wNum : nilInv w pool (@start Iter wNum).
Proof.
  split; cbn.
  - apply Forall_replicate. exact I.
  - intros repo Hrepo; discriminate.
Qed.

Lemma nilInv_runs wNum σ :
  factoryNeverFails template w pool -> runs template w pool wNum σ -> nilInv w pool σ.
Proof.
  intros Hfactory Hruns. unfold runs in Hruns.
  revert σ Hruns. apply rtc_ind_r; [apply nilInv_start|].
  intros σ1 σ2 _ [_ Hmove] IH. eapply nilInv_move; eassumption.
Qed.



End NilIterator.

(** ** C2: which error [Next] returns *)

Section Delivery.

Context {Iter : Type} `{RowRepoIter Iter}.
Variable template : Iter.
Variable w : World.
Variable pool : RepositoryPool.
Implicit Types σ : pipeline Iter.

Lemma forallb_hasReturned (ws : list (reader Iter)) :
  forallb hasReturned ws = true -> Forall (fun r => hasReturned r = true) ws.
Proof.
  induction ws as [|r ws IH]; cbn; [constructor|].
  intros Hall. apply andb_true_iff in Hall as [Hr Hws].
  constructor; [exact Hr|apply IH, Hws].
Qed.

Lemma afterRowNext_not_closeDone (iter : Iter) :
  afterRowNext (Next iter) <> W_closeDone.
Proof.
  unfold afterRowNext. destruct (Next iter) as [iter' [row|[|msg]]]; discriminate.
Qed.

(** A reader that has not returned shows that [rows] is open. *)
Lemma not_returned_rows_open (ws : list (reader Iter)) j r rw :
  (rw = true -> Forall (fun r => hasReturned r = true) ws) ->
  ws !! j = Some r -> hasReturned r = false -> rw = false.
Proof.
  intros Hall Hj Hr. destruct rw; [|reflexivity].
  specialize (Hall eq_refl). rewrite Forall_lookup in Hall.
  specialize (Hall _ _ Hj). congruence.
Qed.

Lemma deliveryInv_move σ σ' :
  deliveryInv σ -> move template w pool σ σ' -> deliveryInv σ'.
Proof.
  intros (Hclosed & Hcaller & Hnone & Hfeed) Hmove.
  inversion Hmove; subst; unfold deliveryInv;
    cbn [rowReaders fillRepoChannel rows_closed consumer] in *;
    try match goal with
        | Hj : ?ws !! _ = Some ?r |- _ =>
            assert (rw = false) as ->
              by (eapply not_returned_rows_open; [exact Hclosed|exact Hj|reflexivity])
        end.
  all: repeat split.
  all: try assumption.
  all: try discriminate.
  all: try (intros ? ?; discriminate).
  all: try (intros Hc; specialize (Hfeed _ Hc); discriminate).
  all: try (apply Forall_insert; [assumption|discriminate]).
  all: try (apply Forall_insert; [assumption|apply afterRowNext_not_closeDone]).
  all: try (intros _; apply forallb_hasReturned; assumption).
  all: try (intros Hc; contradiction).
  all: try (intros _; reflexivity).
  all: try (exfalso; assert (false = true) by (apply Hcaller; discriminate);
            discriminate).
  all: try (intros Hc; apply Hcaller in Hc; discriminate).
  all: try (intros err' Hc; specialize (Hfeed _ Hc); discriminate).
  - intros _. apply Hcaller. discriminate.
  - intros _. exfalso.
    assert (true = false) by
      (eapply not_returned_rows_open; [exact Hclosed|eassumption|reflexivity]).
    discriminate.
Qed.

Lemma deliveryInv_start wNum : deliveryInv (@start Iter wNum).
Proof.
  unfold deliveryInv; cbn. repeat split; try discriminate.
  - intros Hc; contradiction.
  - apply Forall_replicate. discriminate.
Qed.

Lemma deliveryInv_rtc σ σ' :
  deliveryInv σ -> rtc (step template w pool) σ σ' -> deliveryInv σ'.
Proof.
  intros Hinv Hrtc. induction Hrtc as [|σ1 σ2 σ3 [_ Hmove] _ IH]; [exact Hinv|].
  apply IH. eapply deliveryInv_move; eassumption.
Qed.

Lemma deliveryInv_runs wNum σ :
  runs template w pool wNum σ -> deliveryInv σ.
Proof. apply deliveryInv_rtc, deliveryInv_start. Qed.

(** While a reader has not returned the caller is still receiving on
    [rows]. *)
Lemma deliveryInv_waiting σ j r :
  deliveryInv σ -> rowReaders σ !! j = Some r -> hasReturned r = false ->
  rows_closed σ = false /\ consumer σ = C_recvRow.
Proof.
  intros (Hclosed & Hcaller & _) Hj Hr.
  assert (rows_closed σ = false) as Hrows
    by (eapply not_returned_rows_open; eassumption).
  split; [exact Hrows|].
  destruct (consumer σ) eqn:Hc; [reflexivity| |];
    (assert (rows_closed σ = true) by (apply Hcaller; discriminate); congruence).
Qed.

(** A reader at [i.err <- err] stays there. *)
Lemma sendErr_move σ σ' j err :
  deliveryInv σ -> rowReaders σ !! j = Some (W_sendErr err) ->
  move template w pool σ σ' ->
  rowReaders σ' !! j = Some (W_sendErr err).
Proof.
  intros Hinv Hj Hmove.
  destruct (deliveryInv_waiting σ j _ Hinv Hj eq_refl) as [Hrows Hcs].
  inversion Hmove; subst; cbn [rowReaders rows_closed consumer] in *;
    try assumption; try discriminate;
    match goal with
    | Hj0 : ?ws !! ?j0 = Some _ |- <[?j0 := _]> ?ws !! _ = _ =>
        destruct (decide (j0 = j)) as [->|Hne];
        [congruence|rewrite list_lookup_insert_ne by exact Hne; exact Hj]
    end.
Qed.

Lemma sendErr_rtc σ σ' j err :
  deliveryInv σ -> rowReaders σ !! j = Some (W_sendErr err) ->
  rtc (step template w pool) σ σ' ->
  rowReaders σ' !! j = Some (W_sendErr err).
Proof.
  intros Hinv Hj Hrtc.
  induction Hrtc as [|σ1 σ2 σ3 [_ Hmove] _ IH]; [exact Hj|].
  apply IH.
  - eapply deliveryInv_move; eassumption.
  - eapply sendErr_move; eassumption.
Qed.

(** Once a reader holds an error of its iterator, in every continuation of
    the run the reader is still at [i.err <- err], [rows] is open and the
    caller is still inside [Next] at the receive on [rows]: [Next] returns
    no error, neither this one nor [io.EOF]. *)
Lemma reader_error_blocks wNum σ σ' j err :
  runs template w pool wNum σ ->
  rowReaders σ !! j = Some (W_sendErr err) ->
  rtc (step template w pool) σ σ' ->
  rowReaders σ' !! j = Some (W_sendErr err)
  /\ rows_closed σ' = false /\ consumer σ' = C_recvRow.
Proof.
  intros Hruns Hj Hrtc.
  pose proof (deliveryInv_runs wNum σ Hruns) as Hinv.
  pose proof (sendErr_rtc σ σ' j err Hinv Hj Hrtc) as Hj'.
  split; [exact Hj'|].
  eapply deliveryInv_waiting; [|exact Hj'|reflexivity].
  eapply deliveryInv_rtc; eassumption.
Qed.

(** An error [Next] returns is one the feeder sent. *)
Lemma returned_error_from_feeder wNum σ err :
  runs template w pool wNum σ -> consumer σ = C_returned err ->
  fillRepoChannel σ = F_return
  /\ Forall (fun r => hasReturned r = true) (rowReaders σ).
Proof.
  intros Hruns Hc.
  destruct (deliveryInv_runs wNum σ Hruns) as (Hclosed & Hcaller & _ & Hfeed).
  split; [eapply Hfeed, Hc|].
  apply Hclosed, Hcaller. rewrite Hc. discriminate.
Qed.

End Delivery.

(** *** The failing run: one repository whose row iterator fails *)

Section CorruptRun.

#[local] Existing Instance Iterators.corrupt.

Lemma Next_single_0 :
  result (RepositoryIter_Next Iterators.single {| pos := 0 |} Fixture.world)
  = ({| pos := 1 |}, Ok repoA).
Proof. reflexivity. Qed.

Lemma Next_single_1 :
  result (RepositoryIter_Next Iterators.single {| pos := 1 |} Fixture.world)
  = ({| pos := 1 |}, Err io_EOF).
Proof. reflexivity. Qed.

Lemma all_range_not_returned (ws : list (reader (list string))) n :
  Forall (fun r => r = W_range) ws -> length ws = S n ->
  forallb hasReturned ws = false.
Proof.
  intros Hall Hlen. destruct ws as [|r ws]; [discriminate|].
  apply Forall_cons in Hall as [-> _]. reflexivity.
Qed.

Lemma held_not_all_returned {Iter} (ws : list (reader Iter)) j r :
  ws !! j = Some r -> hasReturned r = false -> forallb hasReturned ws = false.
Proof.
  revert j. induction ws as [|x ws IH]; intros j Hj Hr; [discriminate|].
  destruct j as [|j]; cbn in Hj |- *.
  - injection Hj as ->. rewrite Hr. reflexivity.
  - rewrite (IH j Hj Hr). apply andb_false_r.
Qed.

Lemma holdsRepo_not_returned r : holdsRepo r -> hasReturned r = false.
Proof. intros [[commits ->]| ->]; reflexivity. Qed.

Lemma corruptInv_start n : corruptInv n (start (S n)).
Proof.
  unfold corruptInv, feederBefore;
    cbn [start consumer yielded done_closed rows_closed
         rowReaders repos_closed fillRepoChannel repositoryIter].
  repeat split.
  - apply length_replicate.
  - apply Forall_replicate. exact I.
  - left. split; [|apply Forall_replicate; reflexivity].
    split; [reflexivity|]. left. split; reflexivity.
Qed.

Lemma all_range_lookup (ws : list (reader (list string))) j r :
  Forall (fun r => r = W_range) ws -> ws !! j = Some r -> r = W_range.
Proof. intros Hall Hj. rewrite Forall_lookup in Hall. exact (Hall _ _ Hj). Qed.

(** A move of a reader that is not the one holding the repository leaves the
    holder where it is. *)
Lemma holder_insert_other (ws : list (reader (list string))) j0 r0 new :
  ws !! j0 = Some r0 -> ~ holdsRepo r0 ->
  (exists j r, ws !! j = Some r /\ holdsRepo r) ->
  exists j r, <[j0 := new]> ws !! j = Some r /\ holdsRepo r.
Proof.
  intros Hj0 Hr0 (j & r & Hj & Hr). exists j, r. split; [|exact Hr].
  rewrite list_lookup_insert_ne; [exact Hj|].
  intros ->. rewrite Hj0 in Hj. injection Hj as ->. contradiction.
Qed.

Lemma holder_insert (ws : list (reader (list string))) j0 r0 new :
  ws !! j0 = Some r0 -> holdsRepo new ->
  exists j r, <[j0 := new]> ws !! j = Some r /\ holdsRepo r.
Proof.
  intros Hj0 Hnew. exists j0, new. split; [|exact Hnew].
  apply list_lookup_insert_eq. eapply lookup_lt_Some, Hj0.
Qed.

Lemma corruptInv_move n σ σ' :
  deliveryInv σ -> corruptInv n σ ->
  move [] Fixture.world Iterators.single σ σ' -> corruptInv n σ'.
Proof.
  intros (_ & _ & Hnone & _) (Hcs & Hy & Hd & Hrw & Hlen & Hnorow & Hphase) Hmove.
  inversion Hmove; subst; unfold corruptInv, feederBefore, feederAfter in *;
    cbn [consumer yielded done_closed rows_closed rowReaders repos_closed
         fillRepoChannel repositoryIter] in *;
    try discriminate;
    rewrite ?length_insert.
  all: try match goal with
       | Hj : ?ws !! _ = Some W_closeDone |- _ =>
           exfalso; rewrite Forall_lookup in Hnone; exact (Hnone _ _ Hj eq_refl)
       | Hj : ?ws !! _ = Some (W_sendRow _ _) |- _ =>
           exfalso; rewrite Forall_lookup in Hnorow; exact (Hnorow _ _ Hj)
       end.
  all: destruct Hphase as
         [[[Hrp [[Hf Hc]|[Hf Hc]]] Hall]
         |[[(Hf & Hc & Hrp)|[[Hf Hrp]|Hf]] (j' & r' & Hj' & Hr')]];
       try discriminate Hf; try discriminate Hrp; subst.
  all: try match goal with
       | Hj : ?ws !! _ = Some ?r, Hall : Forall (fun r => r = W_range) ?ws |- _ =>
           discriminate (all_range_lookup ws _ r Hall Hj)
       end.
  all: try (erewrite all_range_not_returned in * by eassumption; discriminate).
  all: try (erewrite (held_not_all_returned _ j' r' Hj'
                        (holdsRepo_not_returned _ Hr')) in *;
            discriminate).
  all: repeat (split; [first [reflexivity|assumption
                             |apply Forall_insert; [assumption|exact I]]|]).
  - (* the feeder takes the repository from the pool *)
    rewrite Next_single_0 in H. injection H as <- <-.
    left. repeat split; [|assumption]. right. split; reflexivity.
  - (* the feeder finds the pool exhausted *)
    rewrite Next_single_1 in H. injection H as <- <-.
    right. split; [right; left; split; reflexivity|]. eauto.
  - (* a reader receives the repository *)
    right. split; [left; repeat split; reflexivity|].
    eapply holder_insert; [eassumption|]. left. eauto.
  - injection Hf as ->. right. split; [right; right; reflexivity|]. eauto.
  - right. split; [right; right; reflexivity|].
    eapply holder_insert_other; [eassumption| |eauto].
    intros [[? Heq]|Heq]; discriminate.
  - right. split; [left; repeat split; reflexivity|].
    eapply holder_insert; [eassumption|]. right. reflexivity.
  - right. split; [right; left; split; reflexivity|].
    eapply holder_insert; [eassumption|]. right. reflexivity.
  - right. split; [right; right; reflexivity|].
    eapply holder_insert; [eassumption|]. right. reflexivity.
  - right. split; [left; repeat split; reflexivity|].
    eapply holder_insert_other; [eassumption| |eauto].
    intros [[? Heq]|Heq]; discriminate.
  - right. split; [right; left; split; reflexivity|].
    eapply holder_insert_other; [eassumption| |eauto].
    intros [[? Heq]|Heq]; discriminate.
  - right. split; [right; right; reflexivity|].
    eapply holder_insert_other; [eassumption| |eauto].
    intros [[? Heq]|Heq]; discriminate.
Qed.

Lemma corruptInv_runs n σ :
  runs [] Fixture.world Iterators.single (S n) σ -> corruptInv n σ.
Proof.
  revert σ. apply rtc_ind_r; [apply corruptInv_start|].
  intros σ1 σ2 Hruns [_ Hmove] IH.
  eapply corruptInv_move; [|exact IH|exact Hmove].
  eapply deliveryInv_runs, Hruns.
Qed.

Lemma deadlock_runs : runs [] Fixture.world Iterators.single 1 deadlock.
Proof.
  unfold runs, start, deadlock. cbn [replicate].
  eapply rtc_l.
  { split; [reflexivity|]. apply fill_next. apply Next_single_0. }
  eapply rtc_l.
  { split; [reflexivity|]. apply (fill_send _ _ _ repoA _ _ 0%nat). reflexivity. }
  eapply rtc_l.
  { split; [reflexivity|].
    apply (read_next _ _ _ _ _ _ 0%nat (CommitObjects Fixture.basic)). reflexivity. }
  eapply rtc_l.
  { split; [reflexivity|]. apply fill_next. apply Next_single_1. }
  eapply rtc_l.
  { split; [reflexivity|]. apply fill_closeRepos. }
  apply rtc_refl.
Qed.

Lemma deadlock_stuck : stuck [] Fixture.world Iterators.single deadlock.
Proof.
  intros σ' [_ Hmove]. unfold deadlock in Hmove.
  inversion Hmove; subst;
    try match goal with
        | Hj : [_] !! ?j = Some _ |- _ => destruct j as [|[|?]]; discriminate Hj
        end.
  discriminate.
Qed.

(** C2, at the failing input: a pool with one repository that opens, a row
    iterator whose [Next] fails, any positive number of readers.  Whatever
    the schedule, the caller is never given anything: in every state of every
    run it is still inside its first [Next], at the receive on [rows].  With
    one reader the run ends in a state from which nothing can move, the
    reader still holding the error it wanted to report. *)
Theorem reader_error_never_returned :
  (forall n σ,
     runs [] Fixture.world Iterators.single (S n) σ ->
     consumer σ = C_recvRow /\ yielded σ = [])
  /\ (exists σ,
        runs [] Fixture.world Iterators.single 1 σ
        /\ rowReaders σ = [W_sendErr objectNotFound]
        /\ consumer σ = C_recvRow
        /\ stuck [] Fixture.world Iterators.single σ).
Proof.
  split.
  - intros n σ Hruns.
    destruct (corruptInv_runs n σ Hruns) as (Hcs & Hy & _). split; assumption.
  - exists deadlock. split; [exact deadlock_runs|].
    split; [reflexivity|]. split; [reflexivity|exact deadlock_stuck].
Qed.

End CorruptRun.

Lemma reader_error_never_returned_witness :
  rowReaders deadlock = [W_sendErr objectNotFound]
  /\ consumer deadlock = C_recvRow /\ yielded deadlock = [].
Proof.
  split; [reflexivity|].
  apply (proj1 reader_error_never_returned 0%nat deadlock).
  exact deadlock_runs.
Defined.

(** ** C1: the rows of a run without errors *)

Lemma Interleaving_perm {A} (ls ls' : list (list A)) r :
  ls ≡ₚ ls' -> Interleaving ls r -> Interleaving ls' r.
Proof.
  intros Hperm Hint. destruct Hint as [ls Hall|ls ls0 x l r Hls Hint].
  - apply Interleaving_done. rewrite <- Hperm. exact Hall.
  - eapply Interleaving_take; [|exact Hint]. rewrite <- Hperm. exact Hls.
Qed.

(** A list with nothing left to give can be added. *)
Lemma Interleaving_nil_cons {A} (ls : list (list A)) r :
  Interleaving ls r -> Interleaving ([] :: ls) r.
Proof.
  induction 1 as [ls Hall|ls ls0 x l r Hls Hint IH].
  - apply Interleaving_done. constructor; [reflexivity|exact Hall].
  - apply (Interleaving_take _ ([] :: ls0) x l).
    + rewrite Hls. apply Permutation_swap.
    + eapply Interleaving_perm; [|exact IH]. apply Permutation_swap.
Qed.

Lemma delete_insert_same {A} (l : list A) j x :
  delete j (<[j := x]> l) = delete j l.
Proof.
  revert j. induction l as [|y l IH]; intros [|j]; cbn; try reflexivity.
  f_equal. apply IH.
Qed.

(** Taking the head of the list at position [j]. *)
Lemma Interleaving_take_at {A} (ls : list (list A)) j x l r :
  ls !! j = Some (x :: l) ->
  Interleaving (<[j := l]> ls) r -> Interleaving ls (x :: r).
Proof.
  intros Hj Hint.
  assert (j < length ls)%nat as Hlt by (eapply lookup_lt_Some, Hj).
  apply (Interleaving_take _ (delete j ls) x l).
  - apply delete_Permutation, Hj.
  - eapply Interleaving_perm; [|exact Hint].
    rewrite (delete_Permutation (<[j := l]> ls) j l)
      by (apply list_lookup_insert_eq, Hlt).
    rewrite delete_insert_same. reflexivity.
Qed.

(** The list a reader is handed may as well have been its own from the
    start. *)
Lemma Interleaving_hand_over {A} (pw pf : list (list A)) j l r :
  pw !! j = Some [] ->
  Interleaving (<[j := l]> pw ++ pf) r -> Interleaving (pw ++ l :: pf) r.
Proof.
  intros Hj Hint.
  assert (j < length pw)%nat as Hlt by (eapply lookup_lt_Some, Hj).
  apply (Interleaving_perm ([] :: l :: delete j pw ++ pf)).
  - rewrite (delete_Permutation pw j [] Hj) at 2. cbn.
    apply perm_skip. apply Permutation_middle.
  - apply Interleaving_nil_cons.
    eapply Interleaving_perm; [|exact Hint].
    rewrite (delete_Permutation (<[j := l]> pw) j l)
      by (apply list_lookup_insert_eq, Hlt).
    rewrite delete_insert_same. reflexivity.
Qed.

(** An interleaving has the elements of the lists, each as often. *)
Lemma Interleaving_concat {A} (ls : list (list A)) r :
  Interleaving ls r -> r ≡ₚ concat ls.
Proof.
  induction 1 as [ls Hall|ls ls0 x l r Hls Hint IH].
  - induction Hall as [|l ls -> _ IH]; [reflexivity|exact IH].
  - rewrite Hls. cbn. apply perm_skip. exact IH.
Qed.

(** A list with nothing to give can be left out. *)
Lemma Interleaving_nil_inv {A} (ls : list (list A)) r :
  Interleaving ([] :: ls) r -> Interleaving ls r.
Proof.
  intros Hint. remember ([] :: ls) as ls0 eqn:Heq.
  assert (ls0 ≡ₚ [] :: ls) as Hperm by (rewrite Heq; reflexivity).
  clear Heq. revert ls Hperm.
  induction Hint as [ls0 Hall|ls0 ls1 x l r Hls Hint IH]; intros ls Hperm.
  - apply Interleaving_done. rewrite Hperm in Hall.
    apply Forall_cons in Hall as [_ Hall]. exact Hall.
  - assert (x :: l ∈ ls) as Hin.
    { assert (x :: l ∈ [] :: ls) as Hin'
        by (rewrite <- Hperm, Hls; apply elem_of_cons; left; reflexivity).
      apply elem_of_cons in Hin' as [Hnil|Hin']; [discriminate|exact Hin']. }
    apply elem_of_Permutation in Hin as [ls' Hls'].
    assert (ls1 ≡ₚ [] :: ls') as Hls1.
    { apply (inj (cons (x :: l))).
      rewrite <- Hls, Hperm, Hls'. apply Permutation_swap. }
    apply (Interleaving_take _ ls' x l); [exact Hls'|].
    apply IH. rewrite Hls1. apply Permutation_swap.
Qed.

Lemma Interleaving_replicate_nil {A} n (ls : list (list A)) r :
  Interleaving (replicate n [] ++ ls) r -> Interleaving ls r.
Proof.
  induction n as [|n IH]; cbn; [auto|].
  intros Hint. apply IH, Interleaving_nil_inv, Hint.
Qed.

Section CleanRun.

Context {Iter : Type} `{RowRepoIter Iter}.
Variable template : Iter.
Variable w : World.
Variable pool : RepositoryPool.
Implicit Types σ : pipeline Iter.

Lemma Drains_row iter iter' row rows :
  Drains iter rows -> Next iter = (iter', inl row) ->
  exists rows', rows = row :: rows' /\ Drains iter' rows'.
Proof.
  intros [fuel Hfuel] Hnext. destruct fuel as [|fuel]; [discriminate|].
  cbn in Hfuel. rewrite Hnext in Hfuel.
  destruct (drain fuel iter') as [[rows' err]|] eqn:Hrest; [|discriminate].
  injection Hfuel as <- ->. exists rows'. split; [reflexivity|].
  exists fuel. exact Hrest.
Qed.

Lemma Drains_err iter iter' err rows :
  Drains iter rows -> Next iter = (iter', inr err) ->
  err = io_EOF /\ rows = [].
Proof.
  intros [fuel Hfuel] Hnext. destruct fuel as [|fuel]; [discriminate|].
  cbn in Hfuel. rewrite Hnext in Hfuel. injection Hfuel as <- <-.
  split; reflexivity.
Qed.

(** One turn of the sequential loop. *)
Lemma Completes_next c c' r rowss :
  Completes template w pool c rowss ->
  result (RepositoryIter_Next pool c w) = (c', r) ->
  match r with
  | Ok repo =>
      exists iter rows rest,
        NewIterator template repo = inl iter /\ Drains iter rows
        /\ rowss = rows :: rest /\ Completes template w pool c' rest
  | Err err => err = io_EOF /\ rowss = []
  | Panic _ => False
  end.
Proof.
  intros [fuel Hfuel] Hnext. destruct fuel as [|fuel]; [discriminate|].
  cbn [sequential] in Hfuel. rewrite Hnext in Hfuel.
  destruct r as [repo|[|msg]|msg]; try discriminate.
  - destruct (NewIterator template repo) as [iter|err]; [|discriminate].
    destruct (drain fuel iter) as [[rows [|msg]]|] eqn:Hdrain; try discriminate.
    destruct (sequential template w pool fuel c') as [[rest err]|] eqn:Hrest;
      [|discriminate].
    injection Hfuel as <- ->.
    exists iter, rows, rest. split; [reflexivity|].
    split; [exists fuel; exact Hdrain|]. split; [reflexivity|].
    exists fuel. exact Hrest.
  - injection Hfuel as <-. split; reflexivity.
Qed.

Lemma readersSteps_insert (ws : list (reader Iter)) pw j r rows r' rows' :
  ws !! j = Some r -> pw !! j = Some rows ->
  (readersSteps (<[j := r']> ws) (<[j := rows']> pw) + readerSteps r rows
   = readersSteps ws pw + readerSteps r' rows')%nat.
Proof.
  revert pw j. induction ws as [|x ws IH]; intros [|y pw] [|j] Hr Hrows;
    try discriminate.
  - injection Hr as ->. injection Hrows as ->.
    change (<[0%nat := r']> (r :: ws)) with (r' :: ws).
    change (<[0%nat := rows']> (rows :: pw)) with (rows' :: pw).
    cbn [readersSteps]. lia.
  - change (<[S j := r']> (x :: ws)) with (x :: <[j := r']> ws).
    change (<[S j := rows']> (y :: pw)) with (y :: <[j := rows']> pw).
    cbn [readersSteps]. specialize (IH pw j Hr Hrows). lia.
Qed.

(** The same when the rows the reader has to send stay what they are. *)
Lemma readersSteps_insert_l (ws : list (reader Iter)) pw j r rows r' :
  ws !! j = Some r -> pw !! j = Some rows ->
  (readersSteps (<[j := r']> ws) pw + readerSteps r rows
   = readersSteps ws pw + readerSteps r' rows)%nat.
Proof.
  intros Hr Hrows.
  rewrite <- (list_insert_id pw j rows Hrows) at 1.
  apply readersSteps_insert; assumption.
Qed.

Lemma cost_cons rows rest :
  cost (rows :: rest) = (2 * length rows + 3 + cost rest)%nat.
Proof. reflexivity. Qed.

Lemma afterRowNext_not_returned (iter : Iter) :
  hasReturned (afterRowNext (Next iter)) = false.
Proof.
  unfold afterRowNext. destruct (Next iter) as [iter' [row|[|msg]]]; reflexivity.
Qed.

(** Every move of a run without errors keeps the invariant and uses up at
    least one of the moves that are left. *)
Lemma cleanAt_move rowss σ σ' pw pf :
  deliveryInv σ -> cleanAt template w pool rowss σ pw pf ->
  move template w pool σ σ' ->
  exists pw' pf',
    cleanAt template w pool rowss σ' pw' pf'
    /\ (stepsLeft σ' pw' pf' < stepsLeft σ pw pf)%nat.
Proof.
  intros (Hclosed & _) (Hd & Herr & Hret & Hopen & Hpw & Hpf & Hint) Hmove.
  inversion Hmove; subst; unfold cleanAt, stepsLeft;
    cbn [consumer yielded done_closed rows_closed rowReaders repos_closed
         fillRepoChannel repositoryIter] in *;
    try discriminate;
    try match goal with
        | Hj : ?ws !! _ = Some _ |- _ =>
            destruct (Forall2_lookup_l _ _ _ _ _ Hpw Hj) as (l & Hl & Hpend);
            cbn [readerPending] in Hpend; try contradiction
        end;
    cbn [feederPending] in Hpf; try contradiction.
  - (* the feeder asks the sequential iterator *)
    destruct Hpf as [-> Hc]. pose proof (Completes_next c c' r pf Hc H0) as Hr.
    exists pw, pf.
    destruct r as [repo|[|msg]|msg]; cbn [afterRepoNext feederPending feederSteps];
      [| |destruct Hr as [Hr _]; discriminate Hr|contradiction].
    + split; [|lia]. repeat split; try assumption; try reflexivity.
      intros Hf; discriminate Hf.
    + destruct Hr as [_ ->]. split; [|cbn; lia].
      repeat split; try assumption; try reflexivity.
      intros Hf; discriminate Hf.
  - (* a reader receives a repository *)
    destruct Hpf as (_ & iter & rows & rest & Hnew & Hrows & -> & Hrest).
    subst l. exists (<[j := rows]> pw), rest. split.
    + split; [exact Hd|]. split; [exact Herr|].
      split; [intros Hf; discriminate Hf|].
      split; [intros _; apply Forall_insert; [auto|reflexivity]|].
      split; [apply Forall2_insert; [exact Hpw|]; rewrite Hnew; exact Hrows|].
      split; [split; [reflexivity|exact Hrest]|].
      intros rest0 Hi. apply Hint, (Interleaving_hand_over pw rest j); assumption.
    + pose proof (readersSteps_insert ws pw j W_range []
                    (W_select (dropError (NewIterator template repo))) rows H0 Hl)
        as Hsteps.
      cbn [feederSteps readerSteps length] in *. rewrite cost_cons. lia.
  - destruct Hpf as [Hrp _]. discriminate Hrp.
  - destruct Hpf as (_ & -> & ->). exists pw, []. split; [|cbn; lia].
    repeat split; try assumption; try reflexivity.
    + intros Hf; discriminate Hf.
    + intros Hrp; discriminate Hrp.
  - destruct Hpf as [Hrp _]. discriminate Hrp.
  - (* [Next] receives the feeder's [io.EOF] *)
    destruct Hpf as (-> & -> & ->). exists pw, []. split; [|cbn; lia].
    split; [exact Hd|]. split; [intros e He; injection He as <-; reflexivity|].
    split; [intros _; eauto|].
    split; [intros Hrp; discriminate Hrp|].
    split; [exact Hpw|]. split; [reflexivity|exact Hint].
  - (* a reader finds [repos] closed *)
    exists pw, pf. split.
    + split; [exact Hd|]. split; [exact Herr|]. split; [exact Hret|].
      split; [intros Hrp; discriminate Hrp|].
      split; [|split; [exact Hpf|exact Hint]].
      rewrite <- (list_insert_id pw j l Hl).
      apply Forall2_insert; [exact Hpw|exact Hpend].
    + pose proof (readersSteps_insert_l ws pw j W_range l W_return H0 Hl) as Hsteps.
      cbn [readerSteps] in Hsteps. lia.
  - (* a reader asks its row iterator *)
    exists pw, pf. split.
    + split; [reflexivity|]. split; [exact Herr|]. split; [exact Hret|].
      split; [intros Hrp; apply Forall_insert;
              [auto|apply afterRowNext_not_returned]|].
      split; [|split; [exact Hpf|exact Hint]].
      rewrite <- (list_insert_id pw j l Hl).
      apply Forall2_insert; [exact Hpw|].
      destruct (Next iter) as [iter' [row|err]] eqn:Hnext.
      * exact (Drains_row iter iter' row l Hpend Hnext).
      * destruct (Drains_err iter iter' err l Hpend Hnext) as [-> ->]. reflexivity.
    + pose proof (readersSteps_insert_l ws pw j (W_select (Some iter)) l
                    (afterRowNext (Next iter)) H0 Hl) as Hsteps.
      destruct (Next iter) as [iter' [row|err]] eqn:Hnext.
      * cbn [afterRowNext readerSteps] in *. lia.
      * destruct (Drains_err iter iter' err l Hpend Hnext) as [-> ->].
        cbn [afterRowNext readerSteps length] in *. lia.
  - (* [Next] receives a row and returns it *)
    destruct iter as [iter|]; [|contradiction].
    destruct Hpend as (rows & -> & Hrows).
    assert (j < length pw)%nat as Hlt by (eapply lookup_lt_Some, Hl).
    exists (<[j := rows]> pw), pf. split.
    + split; [exact Hd|]. split; [intros e He; discriminate He|].
      split; [exact Hret|].
      split; [intros Hrp; apply Forall_insert; [auto|reflexivity]|].
      split; [apply Forall2_insert; [exact Hpw|exact Hrows]|].
      split; [exact Hpf|].
      intros rest Hi. rewrite <- app_assoc. apply Hint.
      apply (Interleaving_take_at (pw ++ pf) j row rows).
      * apply lookup_app_l_Some, Hl.
      * rewrite insert_app_l by exact Hlt. exact Hi.
    + pose proof (readersSteps_insert ws pw j (W_sendRow (Some iter) row)
                    (row :: rows) (W_select (Some iter)) rows H0 Hl) as Hsteps.
      cbn [readerSteps length] in Hsteps. lia.
  - exfalso. specialize (Hclosed eq_refl). rewrite Forall_lookup in Hclosed.
    specialize (Hclosed _ _ H0). discriminate Hclosed.
  - (* the last reader has returned: [rows] is closed *)
    exists pw, pf. split; [|lia]. repeat split; assumption.
  - (* [Next] finds [rows] closed *)
    exists pw, pf. split; [|cbn; lia].
    split; [exact Hd|]. split; [intros e He; discriminate He|].
    split; [intros Hf; destruct (Hret Hf) as [e He]; discriminate He|].
    repeat split; assumption.
Qed.

Lemma cleanAt_start wNum rowss :
  Completes template w pool (fst RepoIter) rowss ->
  cleanAt template w pool rowss (start wNum) (replicate wNum []) rowss
  /\ stepsLeft (@start Iter wNum) (replicate wNum []) rowss
     = (cost rowss + wNum + 6)%nat.
Proof.
  intros Hc. unfold cleanAt, stepsLeft, start;
    cbn [consumer yielded done_closed rowReaders repos_closed rows_closed
         fillRepoChannel repositoryIter].
  split.
  - split; [reflexivity|]. split; [intros e He; discriminate He|].
    split; [intros Hf; discriminate Hf|].
    split; [intros _; apply Forall_replicate; reflexivity|].
    split; [apply Forall2_replicate; reflexivity|].
    split; [split; [reflexivity|exact Hc]|].
    intros rest Hi. apply (Interleaving_replicate_nil wNum), Hi.
  - assert (readersSteps (replicate wNum W_range) (replicate wNum []) = wNum)
      as -> by (induction wNum as [|n IH]; cbn; [reflexivity|rewrite IH; reflexivity]).
    cbn. lia.
Qed.

(** After [n] steps the invariant holds and at most the initial number of
    moves less [n] are left. *)
Lemma clean_nsteps wNum rowss n :
  Completes template w pool (fst RepoIter) rowss ->
  forall σ, nsteps (step template w pool) n (start wNum) σ ->
  exists pw pf,
    cleanAt template w pool rowss σ pw pf
    /\ (n + stepsLeft σ pw pf <= cost rowss + wNum + 6)%nat.
Proof.
  intros Hc. induction n as [|n IH]; intros σ Hn.
  - inversion Hn; subst. destruct (cleanAt_start wNum rowss Hc) as [Hinv Hsteps].
    exists (replicate wNum []), rowss. split; [exact Hinv|]. rewrite Hsteps. lia.
  - apply nsteps_inv_r in Hn as (σ1 & Hn & [_ Hmove]).
    destruct (IH σ1 Hn) as (pw & pf & Hinv & Hle).
    assert (deliveryInv σ1) as Hdel.
    { eapply deliveryInv_runs. eapply rtc_nsteps_2, Hn. }
    destruct (cleanAt_move rowss σ1 σ pw pf Hdel Hinv Hmove)
      as (pw' & pf' & Hinv' & Hlt).
    exists pw', pf'. split; [exact Hinv'|lia].
Qed.

Lemma cleanInv_runs wNum rowss σ :
  Completes template w pool (fst RepoIter) rowss ->
  runs template w pool wNum σ -> cleanInv template w pool rowss σ.
Proof.
  intros Hc Hruns. apply rtc_nsteps_1 in Hruns as [n Hn].
  destruct (clean_nsteps wNum rowss n Hc σ Hn) as (pw & pf & Hinv & _).
  exists pw, pf. exact Hinv.
Qed.

Lemma readerPending_returned (ws : list (reader Iter)) pw :
  Forall2 readerPending ws pw ->
  Forall (fun r => hasReturned r = true) ws ->
  Forall (fun l => l = []) pw.
Proof.
  induction 1 as [|r l ws pw Hr _ IH]; intros Hall; [constructor|].
  apply Forall_cons in Hall as [Hret Hall].
  constructor; [|apply IH, Hall].
  destruct r; try discriminate Hret. exact Hr.
Qed.

(** When [Next] has returned an error in a run whose sequential counterpart
    ends without one, the error is [io.EOF] and the rows returned before it
    interleave the rows of the repositories. *)
Lemma clean_run_rows wNum rowss σ err :
  Completes template w pool (fst RepoIter) rowss ->
  runs template w pool wNum σ -> consumer σ = C_returned err ->
  err = io_EOF /\ Interleaving rowss (yielded σ).
Proof.
  intros Hc Hruns Hret.
  destruct (cleanInv_runs wNum rowss σ Hc Hruns)
    as (pw & pf & _ & Herr & _ & _ & Hpw & Hpf & Hint).
  destruct (returned_error_from_feeder template w pool wNum σ err Hruns Hret)
    as [Hfeed Hall].
  split; [exact (Herr err Hret)|].
  rewrite Hfeed in Hpf. cbn in Hpf. subst pf.
  rewrite <- (app_nil_r (yielded σ)). apply Hint.
  rewrite app_nil_r. apply Interleaving_done.
  eapply readerPending_returned; eassumption.
Qed.

Lemma existsb_lookup {A} (p : A -> bool) (l : list A) :
  existsb p l = true -> exists j x, l !! j = Some x /\ p x = true.
Proof.
  induction l as [|x l IH]; cbn; [discriminate|].
  destruct (p x) eqn:Hx; cbn.
  - intros _. exists 0%nat, x. split; [reflexivity|exact Hx].
  - intros Hl. destruct (IH Hl) as (j & y & Hj & Hy).
    exists (S j), y. split; assumption.
Qed.

(** Readers that neither work nor wait have returned. *)
Lemma idle_readers_returned (ws : list (reader Iter)) pw :
  Forall2 readerPending ws pw ->
  existsb working ws = false -> existsb waiting ws = false ->
  forallb hasReturned ws = true.
Proof.
  induction 1 as [|r l ws pw Hr _ IH]; cbn; [reflexivity|].
  intros Hwork Hwait.
  apply orb_false_iff in Hwork as [Hr1 Hwork].
  apply orb_false_iff in Hwait as [Hr2 Hwait].
  rewrite (IH Hwork Hwait).
  destruct r; try discriminate; try contradiction. reflexivity.
Qed.

Lemma readerPending_no_panic (ws : list (reader Iter)) pw :
  Forall2 readerPending ws pw -> existsb isPanic ws = false.
Proof.
  induction 1 as [|r l ws pw Hr _ IH]; cbn; [reflexivity|].
  destruct r as [|[iter|]|[iter|] row| | | |]; cbn in Hr |- *;
    first [contradiction|exact IH].
Qed.

Lemma cleanAt_not_crashed rowss σ pw pf :
  cleanAt template w pool rowss σ pw pf -> crashed σ = false.
Proof.
  intros (_ & _ & _ & _ & Hpw & Hpf & _). unfold crashed.
  rewrite (readerPending_no_panic _ _ Hpw).
  destruct (fillRepoChannel σ); try reflexivity. contradiction.
Qed.

(** In a run without errors with at least one reader, as long as [Next] has
    not returned an error some goroutine can move. *)
Lemma clean_progress rowss σ pw pf :
  deliveryInv σ -> cleanAt template w pool rowss σ pw pf ->
  (0 < length (rowReaders σ))%nat ->
  (exists err, consumer σ = C_returned err)
  \/ exists σ', step template w pool σ σ'.
Proof.
  intros Hdel Hinv Hlen.
  pose proof (cleanAt_not_crashed rowss σ pw pf Hinv) as Hcrash.
  destruct Hinv as (Hd & Herr & Hret & Hopen & Hpw & Hpf & _).
  destruct σ as [f c ws d rp rw y cs].
  cbn [consumer yielded done_closed rows_closed rowReaders repos_closed
       fillRepoChannel repositoryIter] in *. subst d.
  destruct (existsb working ws) eqn:Hwork.
  { (* a reader with an iterator asks it, or hands its row to [Next] *)
    right. apply existsb_lookup in Hwork as (j & r & Hj & Hr).
    destruct (Forall2_lookup_l _ _ _ _ _ Hpw Hj) as (l & Hl & Hpend).
    destruct r as [|[iter|]|[iter|] row| | | |]; try discriminate Hr;
      try contradiction.
    - eexists. split; [exact Hcrash|]. eapply read_next, Hj.
    - destruct (deliveryInv_waiting _ j _ Hdel Hj eq_refl) as [Hrw Hcs].
      cbn in Hrw, Hcs. subst rw cs.
      eexists. split; [exact Hcrash|]. eapply read_sendRow, Hj. }
  destruct f as [|repo|err|err|err| |msg]; cbn [feederPending] in Hpf;
    try contradiction.
  - right. destruct (result (RepositoryIter_Next pool c w)) as [c' r] eqn:Hnext.
    eexists. split; [exact Hcrash|]. eapply fill_next, Hnext.
  - (* the feeder hands over a repository: a reader is waiting for it *)
    right. destruct Hpf as [-> _].
    destruct (existsb waiting ws) eqn:Hwait.
    + apply existsb_lookup in Hwait as (j & r & Hj & Hr).
      destruct r; try discriminate Hr.
      eexists. split; [exact Hcrash|]. eapply fill_send, Hj.
    + exfalso. pose proof (idle_readers_returned ws pw Hpw Hwork Hwait) as Hall.
      specialize (Hopen eq_refl).
      destruct ws as [|r ws]; [cbn in Hlen; lia|].
      apply Forall_cons in Hopen as [Hr _]. cbn in Hall.
      rewrite Hr in Hall. discriminate Hall.
  - right. destruct Hpf as [-> _].
    eexists. split; [exact Hcrash|]. apply fill_closeRepos.
  - destruct Hpf as [-> _].
    destruct (existsb waiting ws) eqn:Hwait.
    { right. apply existsb_lookup in Hwait as (j & r & Hj & Hr).
      destruct r; try discriminate Hr.
      eexists. split; [exact Hcrash|]. eapply read_range_closed, Hj. }
    pose proof (idle_readers_returned ws pw Hpw Hwork Hwait) as Hall.
    destruct rw.
    + destruct cs as [| |err'].
      * right. eexists. split; [exact Hcrash|]. apply next_closed.
      * right. eexists. split; [exact Hcrash|]. apply fill_sendErr.
      * left. eauto.
    + right. eexists. split; [exact Hcrash|]. apply join_close, Hall.
  - left. apply Hret. reflexivity.
Qed.

Lemma move_length σ σ' :
  move template w pool σ σ' -> length (rowReaders σ') = length (rowReaders σ).
Proof.
  intros Hmove. inversion Hmove; subst; cbn [rowReaders];
    rewrite ?length_insert; reflexivity.
Qed.

Lemma runs_length wNum σ :
  runs template w pool wNum σ -> length (rowReaders σ) = wNum.
Proof.
  revert σ. apply rtc_ind_r; [apply length_replicate|].
  intros σ1 σ2 _ [_ Hmove] IH. rewrite (move_length _ _ Hmove). exact IH.
Qed.

Lemma drain_mono fuel fuel' iter res :
  drain fuel iter = Some res -> (fuel <= fuel')%nat ->
  drain fuel' iter = Some res.
Proof.
  revert fuel' iter res. induction fuel as [|fuel IH]; intros fuel' iter res;
    [discriminate|].
  intros Hd Hle. destruct fuel' as [|fuel']; [lia|].
  cbn [drain] in Hd |- *. destruct (Next iter) as [iter' [row|err]]; [|exact Hd].
  destruct (drain fuel iter') as [[rows err]|] eqn:Hrest; [|discriminate].
  rewrite (IH fuel' iter' _ Hrest) by lia. exact Hd.
Qed.

Lemma sequential_mono fuel fuel' c res :
  sequential template w pool fuel c = Some res -> (fuel <= fuel')%nat ->
  sequential template w pool fuel' c = Some res.
Proof.
  revert fuel' c res. induction fuel as [|fuel IH]; intros fuel' c res;
    [discriminate|].
  intros Hs Hle. destruct fuel' as [|fuel']; [lia|].
  cbn [sequential] in Hs |- *.
  destruct (result (RepositoryIter_Next pool c w)) as [c' [repo|err|msg]];
    try exact Hs.
  destruct (NewIterator template repo) as [iter|err]; [|exact Hs].
  destruct (drain fuel iter) as [[rows err]|] eqn:Hdrain; [|discriminate].
  rewrite (drain_mono fuel fuel' iter _ Hdrain) by lia.
  destruct err as [|msg]; [|exact Hs].
  destruct (sequential template w pool fuel c') as [[rest err]|] eqn:Hrest;
    [|discriminate].
  rewrite (IH fuel' c' _ Hrest) by lia. exact Hs.
Qed.

Lemma GetPos_valid p id :
  validPool w pool -> idOrder pool !! p = Some id ->
  exists repo, result (GetPos pool (Z.of_nat p) w) = Ok repo.
Proof.
  intros [Hinv Hvalid] Hid. rewrite GetPos_eq.
  pose proof (pool_inv_size pool Hinv) as Hsize.
  pose proof (lookup_lt_Some _ _ _ Hid) as Hlt.
  destruct (Z.geb_spec (Z.of_nat p) (Z.of_nat (size (repositories pool)))); [lia|].
  assert (index (idOrder pool) (Z.of_nat p) = Some id) as ->.
  { apply index_Some. split; [lia|]. rewrite Nat2Z.id. exact Hid. }
  destruct Hinv as [_ Hdom].
  assert (id ∈ idOrder pool) as Hin by (eapply list_elem_of_lookup_2, Hid).
  apply Hdom in Hin as [path Hpath].
  destruct (Hvalid id path Hpath) as [Hne [repo Hopen]].
  rewrite (String_eqb_false id Hne), Hpath. cbn. rewrite Hopen.
  eexists. reflexivity.
Qed.

(** With valid repositories and iterators that end, the sequential loop
    ends without an error, with the rows of one repository after the
    other. *)
Lemma sequential_completes :
  validPool w pool -> factoryDrains template ->
  forall n p, (p + n = length (idOrder pool))%nat ->
    exists rowss,
      Completes template w pool {| pos := Z.of_nat p |} rowss /\ length rowss = n.
Proof.
  intros Hvalid Hfactory. induction n as [|n IH]; intros p Hp.
  - exists []. split; [|reflexivity]. exists 1%nat. cbn [sequential].
    rewrite RepositoryIter_Next_eq. unfold result at 1. cbn [fst pos].
    rewrite GetPos_eq, (pool_inv_size pool (proj1 Hvalid)).
    destruct (Z.geb_spec (Z.of_nat p) (Z.of_nat (length (idOrder pool))));
      [reflexivity|lia].
  - assert (is_Some (idOrder pool !! p)) as [id Hid]
      by (apply lookup_lt_is_Some; lia).
    destruct (GetPos_valid p id Hvalid Hid) as [repo Hrepo].
    destruct (Hfactory repo) as (iter & rows & Hnew & [fuel1 Hdrain]).
    destruct (IH (S p)) as (rest & [fuel2 Hrest] & Hlen); [lia|].
    exists (rows :: rest). split; [|cbn; rewrite Hlen; reflexivity].
    exists (S (fuel1 + fuel2)). cbn [sequential].
    rewrite RepositoryIter_Next_eq. unfold result at 1. cbn [fst pos].
    rewrite Hrepo, Hnew.
    rewrite (drain_mono fuel1 (fuel1 + fuel2) iter _ Hdrain) by lia.
    replace (Z.of_nat p + 1) with (Z.of_nat (S p)) by lia.
    rewrite (sequential_mono fuel2 (fuel1 + fuel2) _ _ Hrest) by lia.
    reflexivity.
Qed.

(** C1.  When every registered location opens under a non-empty identifier
    and every row iterator ends, the sequential loop over the pool ends
    without an error and gets the rows of each repository, one list for each
    registered identifier.  Whenever the sequential loop ends without an
    error, with the rows [rowss]: in every run of the pipeline, with any
    number of readers and under any schedule, once [Next] has returned an
    error that error is [io.EOF], and the rows [Next] returned before it are
    an interleaving of [rowss], the rows of each repository in the order its
    iterator gave them, so that they are the rows of the sequential loop up
    to their order.  With at least one reader every state in which [Next]
    has not yet returned an error has a next step, and no run is longer than
    [cost rowss + wNum + 6] steps: the run gets there. *)
Theorem pipeline_yields_sequential_rows (wNum : nat) :
  (validPool w pool -> factoryDrains template ->
     exists rowss,
       Completes template w pool (fst RepoIter) rowss
       /\ length rowss = length (idOrder pool))
  /\ (forall rowss,
        Completes template w pool (fst RepoIter) rowss ->
        (forall σ err,
           runs template w pool wNum σ -> consumer σ = C_returned err ->
           err = io_EOF
           /\ Interleaving rowss (yielded σ)
           /\ yielded σ ≡ₚ concat rowss)
        /\ ((0 < wNum)%nat ->
            forall σ, runs template w pool wNum σ ->
              (exists err, consumer σ = C_returned err)
              \/ exists σ', step template w pool σ σ')
        /\ (forall n σ,
              nsteps (step template w pool) n (start wNum) σ ->
              (n <= cost rowss + wNum + 6)%nat)).
Proof.
  split.
  - intros Hvalid Hfactory.
    apply (sequential_completes Hvalid Hfactory _ 0%nat). reflexivity.
  - intros rowss Hc. split; [|split].
    + intros σ err Hruns Hret.
      destruct (clean_run_rows wNum rowss σ err Hc Hruns Hret) as [Herr Hint].
      split; [exact Herr|]. split; [exact Hint|].
      apply Interleaving_concat, Hint.
    + intros HwNum σ Hruns.
      destruct (cleanInv_runs wNum rowss σ Hc Hruns) as (pw & pf & Hinv).
      apply (clean_progress rowss σ pw pf); [|exact Hinv|].
      * eapply deliveryInv_runs, Hruns.
      * rewrite (runs_length wNum σ Hruns). exact HwNum.
    + intros n σ Hn.
      destruct (clean_nsteps wNum rowss n Hc σ Hn) as (pw & pf & _ & Hle). lia.
Qed.

End CleanRun.

(** A run of the pipeline over the pool of one repository with the row
    iterator of the tests and one reader, from start to [io.EOF]. *)
Section CommitRun.

#[local] Existing Instance Iterators.testCommitIter.

Lemma finished_runs : runs [] Fixture.world Iterators.single 1 finished.
Proof.
  unfold runs, start, finished. cbn [replicate fst RepoIter].
  one_step ltac:(apply fill_next, Next_single_0).
  one_step ltac:(apply (fill_send _ _ _ repoA _ _ 0%nat); reflexivity).
  do 3 (one_step ltac:(eapply (read_next _ _ _ _ _ _ 0%nat); reflexivity);
        one_step ltac:(eapply (read_sendRow _ _ _ _ _ _ 0%nat); reflexivity)).
  one_step ltac:(eapply (read_next _ _ _ _ _ _ 0%nat); reflexivity).
  one_step ltac:(apply fill_next, Next_single_1).
  one_step ltac:(apply fill_closeRepos).
  one_step ltac:(eapply (read_range_closed _ _ _ _ _ _ 0%nat); reflexivity).
  one_step ltac:(apply join_close; reflexivity).
  one_step ltac:(apply next_closed).
  one_step ltac:(apply fill_sendErr).
  apply rtc_refl.
Qed.

End CommitRun.

Lemma testCommitIter_drains (commits : list string) :
  @Drains _ Iterators.testCommitIter commits (map (fun _ => []) commits).
Proof.
  exists (S (length commits)).
  induction commits as [|commit commits IH]; [reflexivity|].
  cbn [length map]. cbn [drain Next Iterators.testCommitIter].
  cbn [drain Next Iterators.testCommitIter] in IH. rewrite IH. reflexivity.
Qed.

Lemma single_valid : validPool Fixture.world Iterators.single.
Proof.
  split.
  - apply reachable_inv, reachable_Add, reachable_New.
  - intros id path Hpath. unfold Iterators.single, Add in Hpath.
    cbn [repositories NewRepositoryPool] in Hpath.
    destruct (decide (id = "a")) as [->|Hne].
    + rewrite lookup_insert_eq in Hpath. injection Hpath as <-.
      split; [discriminate|]. eexists. reflexivity.
    + rewrite lookup_insert_ne, lookup_empty in Hpath by congruence.
      discriminate Hpath.
Qed.

Lemma pipeline_yields_sequential_rows_witness :
  let rowss := [[[]; []; []]] : list (list Row) in
  (exists rowss',
     @Completes _ Iterators.testCommitIter [] Fixture.world Iterators.single
        (fst RepoIter) rowss'
     /\ length rowss' = length (idOrder Iterators.single))
  /\ @sequential _ Iterators.testCommitIter [] Fixture.world Iterators.single
       5 (fst RepoIter) = Some (rowss, None)
  /\ @runs _ Iterators.testCommitIter [] Fixture.world Iterators.single 1 finished
  /\ consumer finished = C_returned io_EOF
  /\ Interleaving rowss (yielded finished)
  /\ yielded finished ≡ₚ concat rowss.
Proof.
  cbv zeta.
  destruct (@pipeline_yields_sequential_rows _ Iterators.testCommitIter []
              Fixture.world Iterators.single 1) as [Hseq Hrows].
  split.
  { apply Hseq; [exact single_valid|].
    intros repo. eexists _, _. split; [reflexivity|].
    apply testCommitIter_drains. }
  split; [reflexivity|]. split; [exact finished_runs|]. split; [reflexivity|].
  destruct (Hrows [[[]; []; []]]) as (Hsafe & _ & _).
  { exists 5%nat. reflexivity. }
  destruct (Hsafe finished io_EOF finished_runs eq_refl) as (_ & Hint & Hperm).
  split; assumption.
Defined.


(** Across repositories the order is the schedule's: with two readers the
    first row [Next] returns can be one of the second repository, which the
    sequential loop reaches only after all rows of the first. *)
Section LabelledRun.

#[local] Existing Instance Iterators.labelled.

Lemma later_repository_first :
  sequential [] Fixture.world Iterators.pool 6 (fst RepoIter)
  = Some ([[["a"; "6ecf0ef"]; ["a"; "e8d3ffa"]; ["a"; "918c48b"]];
           [["b"; "6ecf0ef"]; ["b"; "e8d3ffa"]; ["b"; "918c48b"]]], None)
  /\ exists σ,
       runs [] Fixture.world Iterators.pool 2 σ
       /\ yielded σ = [["b"; "6ecf0ef"]].
Proof.
  split; [reflexivity|].
  eexists. split.
  - unfold runs, start. cbn [replicate fst RepoIter].
    one_step ltac:(eapply fill_next; reflexivity).
    one_step ltac:(eapply (fill_send _ _ _ _ _ _ 0%nat); reflexivity).
    one_step ltac:(eapply fill_next; reflexivity).
    one_step ltac:(eapply (fill_send _ _ _ _ _ _ 1%nat); reflexivity).
    one_step ltac:(eapply (read_next _ _ _ _ _ _ 1%nat); reflexivity).
    one_step ltac:(eapply (read_sendRow _ _ _ _ _ _ 1%nat); reflexivity).
    apply rtc_refl.
  - reflexivity.
Qed.

End LabelledRun.

(** * Part III: further properties of the code *)

(** ** The pool only grows *)

Lemma Add_grows p id path :
  idOrder p `prefix_of` idOrder (Add p id path)
  /\ forall id', is_Some (repositories p !! id') ->
                 is_Some (repositories (Add p id path) !! id').
Proof.
  split.
  - unfold Add; cbn. destruct (repositories p !! id).
    + reflexivity.
    + apply prefix_app_r. reflexivity.
  - intros id' Hid'. cbn. destruct (decide (id = id')) as [->|Hne].
    + rewrite lookup_insert_eq. eauto.
    + rewrite lookup_insert_ne by exact Hne. exact Hid'.
Qed.

Lemma Add_all_grows kvs :
  forall p,
    idOrder p `prefix_of` idOrder (Add_all p kvs)
    /\ forall id', is_Some (repositories p !! id') ->
                   is_Some (repositories (Add_all p kvs) !! id').
Proof.
  induction kvs as [|[k v] kvs IH]; intros p; [split; [reflexivity|auto]|].
  cbn. fold (Add_all (Add p k v) kvs).
  destruct (Add_grows p k v) as [Hpre Hdom].
  destruct (IH (Add p k v)) as [Hpre' Hdom'].
  split; [etransitivity; eassumption|auto].
Qed.

Lemma AddGit_grows p path w :
  idOrder p `prefix_of` idOrder (fst (result (AddGit p path w)))
  /\ forall id', is_Some (repositories p !! id') ->
                 is_Some (repositories (fst (result (AddGit p path w))) !! id').
Proof.
  rewrite AddGit_eq. unfold result; cbn [fst].
  destruct (git_PlainOpen w path); cbn [fst]; [apply Add_grows|].
  split; [reflexivity|auto].
Qed.

Lemma AddDir_grows p path w :
  idOrder p `prefix_of` idOrder (fst (result (AddDir p path w)))
  /\ forall id', is_Some (repositories p !! id') ->
                 is_Some (repositories (fst (result (AddDir p path w))) !! id').
Proof.
  rewrite AddDir_eq. unfold result.
  destruct (ioutil_ReadDir w path) as [dirs|err]; cbn [fst];
    [|split; [reflexivity|auto]].
  rewrite AddDir_range_Add_all. apply Add_all_grows.
Qed.

Lemma index_prefix (l l' : list string) pos id :
  l `prefix_of` l' -> index l pos = Some id -> index l' pos = Some id.
Proof.
  intros [k ->] Hid. apply index_Some in Hid as [H0 Hid].
  apply index_Some. split; [exact H0|]. apply lookup_app_l_Some, Hid.
Qed.

(** X1.  Whatever further calls of [Add], [AddGit] and [AddDir] are made on
    a pool, in whatever file system, the slice of identifiers only gets
    longer at its end and no key leaves the map: an identifier keeps the
    position it has, for good. *)
Theorem pool_only_grows (p p' : RepositoryPool) :
  extends p p' ->
  idOrder p `prefix_of` idOrder p'
  /\ (forall id, is_Some (repositories p !! id) ->
                 is_Some (repositories p' !! id))
  /\ (forall pos id, index (idOrder p) pos = Some id ->
                     index (idOrder p') pos = Some id).
Proof.
  intros Hext.
  assert (idOrder p `prefix_of` idOrder p'
          /\ forall id, is_Some (repositories p !! id) ->
                        is_Some (repositories p' !! id)) as [Hpre Hdom].
  { induction Hext as [|p' id path _ [IH1 IH2]|p' path w _ [IH1 IH2]
                       |p' path w _ [IH1 IH2]].
    - split; [reflexivity|auto].
    - destruct (Add_grows p' id path) as [H1 H2].
      split; [etransitivity; eassumption|auto].
    - destruct (AddGit_grows p' path w) as [H1 H2].
      split; [etransitivity; eassumption|auto].
    - destruct (AddDir_grows p' path w) as [H1 H2].
      split; [etransitivity; eassumption|auto]. }
  split; [exact Hpre|]. split; [exact Hdom|].
  intros pos id. apply index_prefix, Hpre.
Qed.

Lemma pool_only_grows_witness :
  let p := Add NewRepositoryPool "0" "/tmp/wt" in
  let p' := fst (result (AddDir (Add p "0" "/repos/notes") "/repos" Fixture.world)) in
  index (idOrder p) 0 = Some "0" /\ index (idOrder p') 0 = Some "0"
  /\ idOrder p' = ["0"; "a"; "b"].
Proof.
  cbv zeta. split; [reflexivity|]. split; [|vm_compute; reflexivity].
  refine (proj2 (proj2 (pool_only_grows (Add NewRepositoryPool "0" "/tmp/wt") _ _))
            0 "0" eq_refl).
  apply extends_AddDir, extends_Add, extends_refl.
Defined.

(** ** [Add] and [GetPos] *)

(** [GetPos] at a position that holds a non-empty identifier with a location
    in the map. *)
Lemma GetPos_at p pos id path w :
  pool_inv p -> index (idOrder p) pos = Some id -> id <> "" ->
  repositories p !! id = Some path ->
  GetPos p pos w = opened w id path.
Proof.
  intros Hinv Hid Hne Hpath. rewrite GetPos_eq.
  pose proof (index_lt_length _ _ _ Hid) as Hb.
  rewrite (pool_inv_size p Hinv).
  destruct (Z.geb_spec pos (Z.of_nat (length (idOrder p)))); [lia|].
  rewrite Hid, (String_eqb_false id Hne), Hpath. reflexivity.
Qed.

(** X2.  In a pool the API built, an identifier that is new and not empty
    goes to the end of the slice: the position that was the first one past
    the end, where [GetPos] returned [io.EOF] without opening anything,
    now opens the path given to [Add] and returns what that open gives,
    under the new identifier. *)
Theorem Add_fresh_GetPos (p : RepositoryPool) (id path : string) (w : World) :
  reachable p -> id <> "" -> repositories p !! id = None ->
  let last := Z.of_nat (length (idOrder p)) in
  GetPos p last w = (Err io_EOF, [])
  /\ idOrder (Add p id path) = idOrder p ++ [id]
  /\ GetPos (Add p id path) last w = opened w id path.
Proof.
  intros Hr Hne Hnew last. pose proof (reachable_inv p Hr) as Hinv.
  assert (idOrder (Add p id path) = idOrder p ++ [id]) as Horder.
  { unfold Add; cbn. rewrite Hnew. reflexivity. }
  split; [|split; [exact Horder|]].
  - rewrite GetPos_eq, (pool_inv_size p Hinv). unfold last.
    destruct (Z.geb_spec (Z.of_nat (length (idOrder p)))
                (Z.of_nat (length (idOrder p)))); [reflexivity|lia].
  - apply GetPos_at; [apply pool_inv_Add, Hinv| |exact Hne|apply lookup_insert_eq].
    apply index_Some. split; [unfold last; lia|].
    unfold last. rewrite Nat2Z.id, Horder.
    rewrite lookup_app_r by lia. rewrite Nat.sub_diag. reflexivity.
Qed.

Lemma Add_fresh_GetPos_witness :
  let p := Add NewRepositoryPool "0" "/repos/notes" in
  GetPos p 1 Fixture.world = (Err io_EOF, [])
  /\ GetPos (Add p "1" "/tmp/wt") 1 Fixture.world
     = (Ok (NewRepository "1" Fixture.basic), [EvPlainOpen "/tmp/wt"]).
Proof.
  cbv zeta.
  destruct (Add_fresh_GetPos (Add NewRepositoryPool "0" "/repos/notes") "1"
              "/tmp/wt" Fixture.world) as (Hbefore & _ & Hafter).
  - apply reachable_Add, reachable_New.
  - discriminate.
  - reflexivity.
  - split; [exact Hbefore|exact Hafter].
Defined.

(** X3.  [Add] touches one identifier only: at every position that holds
    another identifier, [GetPos] returns and opens after the call what it
    did before it, whether the added identifier was new or not. *)
Theorem Add_keeps_others (p : RepositoryPool) (id path : string) (w : World)
    (pos : Z) (id' : string) :
  reachable p -> index (idOrder p) pos = Some id' -> id' <> id ->
  GetPos (Add p id path) pos w = GetPos p pos w.
Proof.
  intros Hr Hpos Hne. pose proof (reachable_inv p Hr) as Hinv.
  pose proof (pool_inv_Add p id path Hinv) as Hinv'.
  assert (index (idOrder (Add p id path)) pos = Some id') as Hpos'.
  { eapply index_prefix; [apply Add_grows|exact Hpos]. }
  pose proof (index_lt_length _ _ _ Hpos) as Hb.
  pose proof (index_lt_length _ _ _ Hpos') as Hb'.
  rewrite !GetPos_eq, (pool_inv_size p Hinv), (pool_inv_size _ Hinv').
  destruct (Z.geb_spec pos (Z.of_nat (length (idOrder p)))); [lia|].
  destruct (Z.geb_spec pos (Z.of_nat (length (idOrder (Add p id path)))));
    [lia|].
  rewrite Hpos, Hpos'. cbn [repositories Add].
  rewrite lookup_insert_ne by congruence. reflexivity.
Qed.

Lemma Add_keeps_others_witness :
  let p := Add NewRepositoryPool "0" "/tmp/wt" in
  GetPos (Add p "1" "/repos/a") 0 Fixture.world
  = (Ok (NewRepository "0" Fixture.basic), [EvPlainOpen "/tmp/wt"]).
Proof.
  cbv zeta.
  rewrite (Add_keeps_others (Add NewRepositoryPool "0" "/tmp/wt") "1" "/repos/a"
             Fixture.world 0 "0").
  - reflexivity.
  - apply reachable_Add, reachable_New.
  - reflexivity.
  - discriminate.
Defined.

(** ** A sequence of [Add]s *)

Lemma Add_all_snoc p kvs k v :
  Add_all p (kvs ++ [(k, v)]) = Add (Add_all p kvs) k v.
Proof. unfold Add_all. rewrite foldl_app. reflexivity. Qed.

(** The map after a sequence of [Add]s: the pairs laid over the old map, a
    later pair over an earlier one with the same identifier. *)
Lemma Add_all_repositories kvs :
  forall p,
    repositories (Add_all p kvs)
    = list_to_map (reverse kvs) ∪ repositories p.
Proof.
  induction kvs as [|[k v] kvs IH] using rev_ind; intros p.
  - cbn. rewrite (left_id_L ∅ (∪)). reflexivity.
  - rewrite Add_all_snoc, reverse_app. cbn [reverse rev_append app].
    cbn [Add repositories list_to_map foldr fst snd uncurry].
    rewrite IH. rewrite insert_union_l. reflexivity.
Qed.

Lemma elem_of_map_fst (kvs : list (string * string)) k :
  k ∈ map fst kvs <-> exists v, (k, v) ∈ kvs.
Proof.
  induction kvs as [|[k' v'] kvs IH]; cbn.
  - split; [intros H; inversion H|intros [v H]; inversion H].
  - rewrite elem_of_cons, IH. split.
    + intros [->|[v Hv]]; [exists v'; left|exists v; right; exact Hv].
    + intros [v Hv]. apply elem_of_cons in Hv as [Heq|Hv];
        [left; congruence|right; eauto].
Qed.

Lemma lookup_list_to_map_reverse (kvs : list (string * string)) k :
  is_Some ((list_to_map (reverse kvs) : gmap string string) !! k)
  <-> k ∈ map fst kvs.
Proof.
  rewrite elem_of_map_fst. split.
  - intros [v Hv]. exists v.
    apply elem_of_list_to_map_2 in Hv. rewrite elem_of_reverse in Hv. exact Hv.
  - intros [v Hv].
    destruct ((list_to_map (reverse kvs) : gmap string string) !! k) eqn:Hk;
      [eauto|].
    exfalso. apply not_elem_of_list_to_map_2 in Hk. apply Hk.
    apply list_elem_of_fmap. exists (k, v). split; [reflexivity|].
    rewrite elem_of_reverse. exact Hv.
Qed.

(** The slice after a sequence of [Add]s on the empty pool: the identifiers
    in the order in which each one came first. *)
Lemma Add_all_idOrder kvs :
  idOrder (Add_all NewRepositoryPool kvs)
  = reverse (remove_dups (reverse (map fst kvs))).
Proof.
  induction kvs as [|[k v] kvs IH] using rev_ind; [reflexivity|].
  rewrite Add_all_snoc, map_app, reverse_app. cbn [map fst reverse rev_append app].
  cbn [remove_dups]. unfold Add at 1; cbn [idOrder].
  rewrite Add_all_repositories. cbn [repositories NewRepositoryPool].
  rewrite (right_id_L ∅ (∪)).
  pose proof (lookup_list_to_map_reverse kvs k) as Hiff.
  destruct (decide_rel elem_of k (reverse (map fst kvs))) as [Hin|Hnin].
  - rewrite elem_of_reverse in Hin. apply Hiff in Hin as [old ->]. exact IH.
  - destruct (list_to_map (reverse kvs) !! k) as [old|] eqn:Hk.
    + exfalso. apply Hnin. rewrite elem_of_reverse. apply Hiff. eauto.
    + rewrite reverse_cons, IH. reflexivity.
Qed.

(** X4.  A sequence of [Add] calls on a new pool, with whatever repeated
    identifiers: the slice lists the distinct identifiers in the order in
    which each was added first, and each identifier's location is the one
    of the last [Add] that named it; the map has as many keys as the slice
    has entries. *)
Theorem Add_all_first_order_last_path (kvs : list (string * string)) :
  idOrder (Add_all NewRepositoryPool kvs)
  = reverse (remove_dups (reverse (map fst kvs)))
  /\ repositories (Add_all NewRepositoryPool kvs) = list_to_map (reverse kvs)
  /\ size (repositories (Add_all NewRepositoryPool kvs))
     = length (idOrder (Add_all NewRepositoryPool kvs)).
Proof.
  split; [apply Add_all_idOrder|]. split.
  - rewrite Add_all_repositories. apply (right_id_L ∅ (∪)).
  - apply pool_inv_size.
    induction kvs as [|[k v] kvs IH] using rev_ind; [apply pool_inv_New|].
    rewrite Add_all_snoc. apply pool_inv_Add, IH.
Qed.

(** ** Identifiers that [AddGit] and [AddDir] make *)

(** [filepath.Base] never returns the empty string. *)
Lemma Base_nonempty path : filepath.Base path <> "".
Proof.
  unfold filepath.Base. destruct (String.eqb path ""); [discriminate|].
  destruct (rev (fst (filepath.element _))) as [|c l]; discriminate.
Qed.

Lemma Add_all_nonempty kvs :
  forall p, Forall (fun kv => fst kv <> "") kvs ->
    "" ∉ idOrder p -> "" ∉ idOrder (Add_all p kvs).
Proof.
  induction kvs as [|[k v] kvs IH]; intros p Hkvs Hp; [exact Hp|].
  apply Forall_cons in Hkvs as [Hk Hkvs]. cbn in Hk.
  cbn. fold (Add_all (Add p k v) kvs). apply IH; [exact Hkvs|].
  unfold Add; cbn. destruct (repositories p !! k); [exact Hp|].
  rewrite elem_of_app, list_elem_of_singleton. intros [?|?]; auto.
Qed.

Lemma scanned_reachable p : scanned p -> reachable p.
Proof. induction 1; auto using reachable. Qed.

Lemma scanned_nonempty p : scanned p -> "" ∉ idOrder p.
Proof.
  induction 1 as [|p path w _ IH|p path w _ IH].
  - cbn. apply not_elem_of_nil.
  - rewrite AddGit_eq. unfold result; cbn [fst].
    destruct (git_PlainOpen w path); cbn [fst]; [|exact IH].
    unfold Add; cbn. destruct (repositories p !! _); [exact IH|].
    rewrite elem_of_app, list_elem_of_singleton. intros [?|Heq]; [auto|].
    symmetry in Heq. exact (Base_nonempty path Heq).
  - rewrite AddDir_eq. unfold result.
    destruct (ioutil_ReadDir w path) as [dirs|err]; cbn [fst]; [|exact IH].
    rewrite AddDir_range_Add_all. apply Add_all_nonempty; [|exact IH].
    apply Forall_forall. intros kv Hin.
    apply list_elem_of_In, in_map_iff in Hin as (f & <- & _). cbn.
    apply Base_nonempty.
Qed.

(** X5.  [AddGit] and [AddDir] never register the empty identifier, since
    [filepath.Base] returns no empty string.  So in a pool that only these
    two built, the guard for the empty identifier in [GetPos] is never
    taken: at every position from 0 up to the length of the slice [GetPos]
    opens the location the map holds for the identifier there, and returns
    what the open gives. *)
Theorem scanned_GetPos_opens (p : RepositoryPool) (pos : Z) (w : World) :
  scanned p -> 0 <= pos < Z.of_nat (length (idOrder p)) ->
  exists id path,
    index (idOrder p) pos = Some id /\ id <> ""
    /\ repositories p !! id = Some path
    /\ GetPos p pos w = opened w id path.
Proof.
  intros Hs Hpos.
  pose proof (reachable_inv p (scanned_reachable p Hs)) as Hinv.
  destruct (index_in_bounds _ _ Hpos) as [id Hid].
  assert (id ∈ idOrder p) as Hin.
  { apply index_Some in Hid as [_ Hid]. eapply list_elem_of_lookup_2, Hid. }
  assert (id <> "") as Hne.
  { intros ->. exact (scanned_nonempty p Hs Hin). }
  destruct Hinv as [Hnd Hdom]. destruct (proj1 (Hdom id) Hin) as [path Hpath].
  exists id, path. split; [exact Hid|]. split; [exact Hne|].
  split; [exact Hpath|]. apply GetPos_at; [split| | |]; assumption.
Qed.

Lemma scanned_GetPos_opens_witness :
  GetPos (fst (result (AddGit (fst (result (AddDir NewRepositoryPool "/repos"
                                              Fixture.world)))
                         "/tmp/wt" Fixture.world))) 2 Fixture.world
  = (Ok (NewRepository "wt" Fixture.basic), [EvPlainOpen "/tmp/wt"]).
Proof.
  destruct (scanned_GetPos_opens
              (fst (result (AddGit (fst (result (AddDir NewRepositoryPool
                                                   "/repos" Fixture.world)))
                              "/tmp/wt" Fixture.world))) 2 Fixture.world)
    as (id & path & Hid & _ & Hpath & Hget).
  - apply scanned_AddGit, scanned_AddDir, scanned_New.
  - vm_compute. split; [discriminate 1|reflexivity].
  - vm_compute in Hid. injection Hid as <-.
    vm_compute in Hpath. injection Hpath as <-.
    rewrite Hget. reflexivity.
Defined.

(** ** What [AddDir] asks of the file system *)

Lemma AddDir_range_asked path w dirs :
  forall p,
    snd (AddDir_range p path dirs w)
    = map (fun f => EvPlainOpen (child path f))
          (filter (fun f => IsDir f = true) dirs).
Proof.
  induction dirs as [|f rest IH]; intros p; [reflexivity|].
  rewrite AddDir_range_cons. destruct (IsDir f) eqn:Hd.
  - cbv zeta. cbn [snd]. rewrite IH, filter_cons_True by exact Hd. reflexivity.
  - rewrite filter_cons_False by congruence. apply IH.
Qed.

(** X6.  [AddDir] lists its directory once and then tries to open, in the
    order of the listing, the joined path of each entry that is a
    directory, once each and whether the ones before opened or not; an
    entry that is not a directory is never opened, and when the listing
    fails nothing is.  None of this depends on what the pool holds. *)
Theorem AddDir_opens_directories (p : RepositoryPool) (path : string)
    (w : World) :
  asked (AddDir p path w)
  = EvReadDir path
      :: match ioutil_ReadDir w path with
         | inl dirs => map (fun f => EvPlainOpen (filepath.Join [path; Name f]))
                           (filter (fun f => IsDir f = true) dirs)
         | inr _ => []
         end.
Proof.
  rewrite AddDir_eq. unfold asked.
  destruct (ioutil_ReadDir w path) as [dirs|err]; [|reflexivity].
  cbv zeta. cbn [snd]. rewrite AddDir_range_asked. reflexivity.
Qed.

(** ** [AddDir] twice *)

Lemma Add_present p id path :
  repositories p !! id = Some path -> Add p id path = p.
Proof.
  intros Hid. destruct p as [m l]. unfold Add; cbn in *.
  rewrite Hid, insert_id by exact Hid. reflexivity.
Qed.

Lemma Add_all_idOrder_present kvs :
  forall p, (forall k, k ∈ map fst kvs -> is_Some (repositories p !! k)) ->
    idOrder (Add_all p kvs) = idOrder p.
Proof.
  induction kvs as [|[k v] kvs IH]; intros p Hp; [reflexivity|].
  cbn. fold (Add_all (Add p k v) kvs). rewrite IH.
  - unfold Add; cbn. destruct (Hp k) as [old ->]; [cbn; left|reflexivity].
  - intros k' Hk'. apply (proj2 (Add_grows p k v)), Hp. cbn. right. exact Hk'.
Qed.

(** The pairs a second time change nothing. *)
Lemma Add_all_twice kvs p :
  Add_all (Add_all p kvs) kvs = Add_all p kvs.
Proof.
  assert (forall q q' : RepositoryPool,
            repositories q = repositories q' -> idOrder q = idOrder q' -> q = q')
    as Hext by (intros [? ?] [? ?]; cbn; congruence).
  apply Hext.
  - rewrite !Add_all_repositories, (assoc_L (∪)), (idemp_L (∪)). reflexivity.
  - apply Add_all_idOrder_present. intros k Hk.
    rewrite Add_all_repositories. apply lookup_union_is_Some. left.
    apply lookup_list_to_map_reverse, Hk.
Qed.

(** X7.  Scanning a directory a second time, the file system being as it
    was, changes nothing: [AddDir] on the pool that [AddDir] left returns
    that pool again, with no identifier twice in the slice and every
    location as it was, and the same error or nil. *)
Theorem AddDir_twice (p : RepositoryPool) (path : string) (w : World) :
  result (AddDir (fst (result (AddDir p path w))) path w)
  = result (AddDir p path w).
Proof.
  rewrite !AddDir_eq. unfold result.
  destruct (ioutil_ReadDir w path) as [dirs|err] eqn:Hls; cbn [fst];
    [|reflexivity].
  rewrite !AddDir_range_Add_all, Add_all_twice. reflexivity.
Qed.

(** ** [AddDir], then [GetPos] *)

(** X8.  After [AddDir] on a pool the API built and that held none of the
    listed names, every directory of the listing that opens as a repository
    can be fetched: the i-th of them sits i places after the old end of the
    slice, and [GetPos] there opens its joined path and returns its
    repository under the entry's name. *)
Theorem AddDir_then_GetPos (p : RepositoryPool) (path : string) (w : World)
    (dirs : list FileInfo) (i : nat) (f : FileInfo) :
  reachable p ->
  ioutil_ReadDir w path = inl dirs -> listingOK dirs ->
  (forall g, g ∈ dirs -> repositories p !! Name g = None) ->
  filter (fun f => opensAsRepo w path f = true) dirs !! i = Some f ->
  exists repo,
    git_PlainOpen w (child path f) = inl repo
    /\ GetPos (fst (result (AddDir p path w)))
         (Z.of_nat (length (idOrder p) + i)) w
       = (Ok (NewRepository (Name f) repo), [EvPlainOpen (child path f)]).
Proof.
  intros Hr Hls [Hnd Hvalid] Hfresh Hi.
  set (valid := filter (fun f => opensAsRepo w path f = true) dirs) in *.
  assert (forall g, g ∈ valid -> g ∈ dirs /\ opensAsRepo w path g = true) as Hsub.
  { intros g Hg. apply list_elem_of_filter in Hg as [? ?]. split; assumption. }
  assert (f ∈ valid) as Hf by (eapply list_elem_of_lookup_2, Hi).
  destruct (Hsub f Hf) as [Hfd Hopen].
  assert (exists repo, git_PlainOpen w (child path f) = inl repo) as [repo Hrepo].
  { unfold opensAsRepo in Hopen. apply andb_true_iff in Hopen as [_ Hopen].
    destruct (git_PlainOpen w (child path f)) as [repo|]; [eauto|discriminate]. }
  exists repo. split; [exact Hrepo|].
  pose proof (pool_inv_AddDir p path w (reachable_inv p Hr)) as Hinv'.
  set (kvs := map (fun f => (Name f, child path f)) valid).
  assert (fst (result (AddDir p path w)) = Add_all p kvs) as Hp'.
  { rewrite AddDir_eq, Hls. unfold result; cbn [fst].
    rewrite AddDir_range_Add_all. fold valid. unfold kvs. f_equal.
    apply map_ext_in. intros g Hg. apply list_elem_of_In, Hsub in Hg as [Hg _].
    rewrite Forall_forall in Hvalid. unfold child.
    rewrite (Base_Join_name path (Name g)) by (apply Hvalid, Hg). reflexivity. }
  assert (map fst kvs = map Name valid) as Hkeys
    by (unfold kvs; rewrite List.map_map; reflexivity).
  assert (NoDup (map fst kvs)) as Hndk
    by (rewrite Hkeys; apply NoDup_map_filter, Hnd).
  destruct (Add_all_fresh kvs p Hndk) as [Hord _].
  { rewrite Hkeys. intros id Hid.
    apply list_elem_of_In, in_map_iff in Hid as (g & <- & Hg).
    apply Hfresh, (Hsub g), list_elem_of_In, Hg. }
  rewrite Hp' in Hinv' |- *.
  assert (Name f <> "") as Hne.
  { rewrite Forall_forall in Hvalid. specialize (Hvalid f Hfd).
    intros Heq. rewrite Heq in Hvalid. discriminate Hvalid. }
  rewrite (GetPos_at _ _ (Name f) (child path f) w Hinv'); [| |exact Hne|].
  - unfold opened. rewrite Hrepo. reflexivity.
  - apply index_Some. split; [lia|]. rewrite Nat2Z.id, Hord.
    rewrite lookup_app_r by lia.
    replace (length (idOrder p) + i - length (idOrder p))%nat with i by lia.
    rewrite Hkeys. change (map Name valid) with (Name <$> valid).
    rewrite list_lookup_fmap, Hi. reflexivity.
  - apply Add_all_lookup; [exact Hndk|].
    apply list_elem_of_In, in_map_iff. exists f. split; [reflexivity|].
    apply list_elem_of_In, Hf.
Qed.

Lemma AddDir_then_GetPos_witness :
  GetPos (fst (result (AddDir (Add NewRepositoryPool "0" "/tmp/wt") "/repos"
                         Fixture.world))) 2 Fixture.world
  = (Ok (NewRepository "b" Fixture.basic), [EvPlainOpen "/repos/b"]).
Proof.
  destruct (AddDir_then_GetPos (Add NewRepositoryPool "0" "/tmp/wt") "/repos"
              Fixture.world _ 1 {| Name := "b"; IsDir := true |}
              (reachable_Add _ "0" "/tmp/wt" reachable_New) eq_refl)
    as (repo & Hrepo & Hget).
  - split.
    + cbn. apply (bool_decide_unpack _). vm_compute. exact I.
    + repeat constructor.
  - intros g Hg. apply list_elem_of_In in Hg. cbn in Hg.
    destruct Hg as [<-|[<-|[<-|[<-|[]]]]]; reflexivity.
  - reflexivity.
  - vm_compute in Hrepo. injection Hrepo as <-. exact Hget.
Defined.

(** ** Walking a pool with [RepoIter] and [Next] *)

Lemma Next_times_app a b pool i w :
  Next_times (a + b) pool i w
  = (fst (Next_times b pool (fst (Next_times a pool i w)) w),
     snd (Next_times a pool i w)
     ++ snd (Next_times b pool (fst (Next_times a pool i w)) w)).
Proof.
  revert i. induction a as [|a IH]; intros i.
  - cbn. destruct (Next_times b pool i w); reflexivity.
  - cbn [Nat.add Next_times].
    destruct (result (RepositoryIter_Next pool i w)) as [i' r].
    rewrite IH. destruct (Next_times a pool i' w) as [i'' rs]. cbn [fst snd].
    destruct (Next_times b pool i'' w); reflexivity.
Qed.

(** As long as [GetPos] succeeds the cursor goes up by one a call and
    [Next] returns what [GetPos] does. *)
Lemma Next_times_Ok pool w n :
  forall k,
    (forall j, (k <= j < k + n)%nat ->
       exists repo, result (GetPos pool (Z.of_nat j) w) = Ok repo) ->
    Next_times n pool {| pos := Z.of_nat k |} w
    = ({| pos := Z.of_nat (k + n) |},
       map (fun j => result (GetPos pool (Z.of_nat j) w)) (seq k n)).
Proof.
  induction n as [|n IH]; intros k Hok.
  - cbn. rewrite Nat.add_0_r. reflexivity.
  - cbn [Next_times seq map]. rewrite RepositoryIter_Next_eq.
    unfold result at 1; cbn [fst pos].
    destruct (Hok k) as [repo Hrepo]; [lia|]. rewrite Hrepo.
    replace (Z.of_nat k + 1) with (Z.of_nat (S k)) by lia.
    rewrite IH by (intros j Hj; apply Hok; lia).
    replace (S k + n)%nat with (k + S n)%nat by lia. reflexivity.
Qed.

Lemma Next_times_Err pool i w err :
  result (GetPos pool (pos i) w) = Err err ->
  forall n, Next_times n pool i w = (i, repeat (Err err) n).
Proof.
  intros Herr. induction n as [|n IH]; [reflexivity|].
  cbn [Next_times]. rewrite RepositoryIter_Next_eq.
  unfold result at 1; cbn [fst]. rewrite Herr, IH. reflexivity.
Qed.

(** X9.  A cursor from [RepoIter] stops for good at the first position that
    [GetPos] returns an error at, whichever error it is: if the [k]
    positions before it give repositories, then [k + n] calls of [Next]
    return these [k] repositories in the order of their positions and then
    [n] times that error, and the cursor is left at [k]: a repository that
    does not open is not skipped, and none after it is ever returned. *)
Theorem Next_stops_at_first_error (pool : RepositoryPool) (w : World)
    (k : nat) (err : error) (n : nat) :
  (forall j, (j < k)%nat ->
     exists repo, result (GetPos pool (Z.of_nat j) w) = Ok repo) ->
  result (GetPos pool (Z.of_nat k) w) = Err err ->
  Next_times (k + n) pool (fst RepoIter) w
  = ({| pos := Z.of_nat k |},
     map (fun j => result (GetPos pool (Z.of_nat j) w)) (seq 0 k)
     ++ repeat (Err err) n).
Proof.
  intros Hok Herr.
  change (fst RepoIter) with {| pos := Z.of_nat 0 |}.
  rewrite Next_times_app, (Next_times_Ok pool w k 0) by (intros j Hj; apply Hok; lia).
  cbn [fst snd Nat.add].
  rewrite (Next_times_Err pool {| pos := Z.of_nat k |} w err Herr).
  reflexivity.
Qed.

Lemma Next_stops_at_first_error_witness :
  Next_times 4 (Add (Add (Add NewRepositoryPool "0" "/tmp/wt") "1" "/repos/notes")
                  "2" "/repos/a") (fst RepoIter) Fixture.world
  = ({| pos := 1 |},
     [Ok (NewRepository "0" Fixture.basic);
      Err (errorString "repository does not exist");
      Err (errorString "repository does not exist");
      Err (errorString "repository does not exist")]).
Proof.
  apply (Next_stops_at_first_error
           (Add (Add (Add NewRepositoryPool "0" "/tmp/wt") "1" "/repos/notes")
              "2" "/repos/a") Fixture.world 1
           (errorString "repository does not exist") 3).
  - intros j Hj. assert (j = 0%nat) as -> by lia.
    exists (NewRepository "0" Fixture.basic). reflexivity.
  - reflexivity.
Defined.

(** X10.  In a pool whose identifiers are not empty and whose locations all
    open, a cursor from [RepoIter] returns the repositories in the order in
    which their identifiers were first added: as many calls of [Next] as
    the slice has entries return, for each identifier in turn, the
    repository opened at the location the map holds for it, under that
    identifier; the call after returns [io.EOF]. *)
Theorem RepoIter_in_insertion_order (pool : RepositoryPool) (w : World) :
  validPool w pool ->
  exists repos,
    Next_times (length (idOrder pool)) pool (fst RepoIter) w
    = ({| pos := Z.of_nat (length (idOrder pool)) |}, map Ok repos)
    /\ map ID repos = idOrder pool
    /\ Forall (fun repo => exists path,
                 repositories pool !! ID repo = Some path
                 /\ git_PlainOpen w path = inl (Repo repo)) repos
    /\ result (RepositoryIter_Next pool
                 {| pos := Z.of_nat (length (idOrder pool)) |} w)
       = ({| pos := Z.of_nat (length (idOrder pool)) |}, Err io_EOF).
Proof.
  intros [Hinv Hvalid].
  assert (forall j id, idOrder pool !! j = Some id ->
            exists repo path,
              result (GetPos pool (Z.of_nat j) w) = Ok repo
              /\ ID repo = id /\ repositories pool !! id = Some path
              /\ git_PlainOpen w path = inl (Repo repo)) as Hget.
  { intros j id Hj.
    assert (id ∈ idOrder pool) as Hin by (eapply list_elem_of_lookup_2, Hj).
    destruct Hinv as [Hnd Hdom]. destruct (proj1 (Hdom id) Hin) as [path Hpath].
    destruct (Hvalid id path Hpath) as [Hne [repo Hrepo]].
    exists (NewRepository id repo), path.
    rewrite (GetPos_at pool (Z.of_nat j) id path w); [|split; assumption| |exact Hne|exact Hpath].
    - unfold opened, result; cbn [fst]. rewrite Hrepo. auto.
    - apply index_Some. split; [lia|]. rewrite Nat2Z.id. exact Hj. }
  assert (forall n k, (k + n <= length (idOrder pool))%nat ->
            exists repos,
              map (fun j => result (GetPos pool (Z.of_nat j) w)) (seq k n)
              = map Ok repos
              /\ map ID repos = take n (drop k (idOrder pool))
              /\ Forall (fun repo => exists path,
                           repositories pool !! ID repo = Some path
                           /\ git_PlainOpen w path = inl (Repo repo)) repos)
    as Hall.
  { induction n as [|n IH]; intros k Hk.
    - exists []. split; [reflexivity|]. split; [reflexivity|constructor].
    - destruct (lookup_lt_is_Some_2 (idOrder pool) k) as [id Hid]; [lia|].
      destruct (Hget k id Hid) as (repo & path & Hrepo & Hidr & Hpath & Hopen).
      destruct (IH (S k)) as (repos & Hmap & Hids & Hopens); [lia|].
      exists (repo :: repos). cbn [seq map]. rewrite Hrepo, Hmap.
      split; [reflexivity|]. split.
      + rewrite (drop_S _ id k Hid). cbn [take]. rewrite Hidr, Hids. reflexivity.
      + constructor; [|exact Hopens]. exists path. rewrite Hidr. auto. }
  destruct (Hall (length (idOrder pool)) 0%nat) as (repos & Hmap & Hids & Hopens);
    [lia|].
  exists repos. split; [|split; [|split; [exact Hopens|]]].
  - change (fst RepoIter) with {| pos := Z.of_nat 0 |}.
    rewrite Next_times_Ok, Hmap; [reflexivity|].
    intros j Hj. destruct (lookup_lt_is_Some_2 (idOrder pool) j) as [id Hid]; [lia|].
    destruct (Hget j id Hid) as (repo & _ & Hrepo & _). eauto.
  - rewrite Hids. cbn [drop]. apply firstn_all.
  - rewrite RepositoryIter_Next_eq. unfold result at 1; cbn [fst pos].
    rewrite GetPos_eq, (pool_inv_size pool Hinv).
    destruct (Z.geb_spec (Z.of_nat (length (idOrder pool)))
                (Z.of_nat (length (idOrder pool)))); [reflexivity|lia].
Qed.

Lemma RepoIter_in_insertion_order_witness :
  exists repos,
    Next_times 2 (Add (Add NewRepositoryPool "b" "/repos/b") "a" "/repos/a")
      (fst RepoIter) Fixture.world
    = ({| pos := 2 |}, map Ok repos)
    /\ map ID repos = ["b"; "a"].
Proof.
  destruct (RepoIter_in_insertion_order
              (Add (Add NewRepositoryPool "b" "/repos/b") "a" "/repos/a")
              Fixture.world) as (repos & Hrun & Hids & _).
  - split; [apply pool_inv_Add, pool_inv_Add, pool_inv_New|].
    intros id path Hid.
    destruct (decide (id = "a")) as [->|Ha];
      [|destruct (decide (id = "b")) as [->|Hb]].
    + vm_compute in Hid. injection Hid as <-.
      split; [discriminate|]. exists Fixture.basic. reflexivity.
    + vm_compute in Hid. injection Hid as <-.
      split; [discriminate|]. exists Fixture.basic. reflexivity.
    + cbn in Hid. rewrite !lookup_insert_ne in Hid by congruence.
      rewrite lookup_empty in Hid. discriminate.
  - exists repos. split; [exact Hrun|exact Hids].
Defined.

(** ** The channels of the pipeline *)

Section Protocol.

Context {Iter : Type} `{RowRepoIter Iter}.
Variable template : Iter.
Variable w : World.
Variable pool : RepositoryPool.
Implicit Types σ : pipeline Iter.

Lemma walk_mono fuel :
  forall fuel' c err, (fuel <= fuel')%nat ->
    walk w pool fuel c = Some err -> walk w pool fuel' c = Some err.
Proof.
  induction fuel as [|fuel IH]; intros fuel' c err Hle Hw; [discriminate|].
  destruct fuel' as [|fuel']; [lia|]. cbn [walk] in *.
  destruct (result (RepositoryIter_Next pool c w)) as [c' [repo|e|msg]];
    [|exact Hw|exact Hw].
  apply IH; [lia|exact Hw].
Qed.

(** The loop ends with one error at most. *)
Lemma WalkEnds_unique c err err' :
  WalkEnds w pool c err -> WalkEnds w pool c err' -> err = err'.
Proof.
  intros [f1 H1] [f2 H2].
  apply (walk_mono f1 (f1 + f2)) in H1; [|lia].
  apply (walk_mono f2 (f1 + f2)) in H2; [|lia]. congruence.
Qed.

(** What the feeder's [Next] on the cursor can give. *)
Lemma afterRepoNext_protocol c c' r cs :
  0 <= pos c ->
  (forall err, WalkEnds w pool c err -> WalkEnds w pool (fst RepoIter) err) ->
  result (RepositoryIter_Next pool c w) = (c', r) ->
  feederAt w pool (afterRepoNext r) false false cs
  /\ 0 <= pos c'
  /\ (forall err, WalkEnds w pool c' err -> WalkEnds w pool (fst RepoIter) err).
Proof.
  intros Hpos Hreach Hnext.
  assert (forall err, r = Err err -> WalkEnds w pool (fst RepoIter) err) as Herr.
  { intros err ->. apply Hreach. exists 1%nat. cbn [walk]. rewrite Hnext.
    reflexivity. }
  assert (forall repo err, r = Ok repo -> WalkEnds w pool c' err ->
            WalkEnds w pool (fst RepoIter) err) as Hok.
  { intros repo err -> [fuel Hw]. apply Hreach. exists (S fuel).
    cbn [walk]. rewrite Hnext. exact Hw. }
  pose proof Hnext as Hnext'.
  rewrite RepositoryIter_Next_eq in Hnext'. unfold result at 1 in Hnext'.
  cbn [fst] in Hnext'.
  destruct (result (GetPos pool (pos c) w)) as [repo|err|msg] eqn:Hget;
    injection Hnext' as <- <-.
  - split; [split; reflexivity|]. split; [cbn; lia|]. intros err. eapply Hok.
    reflexivity.
  - split; [|split; [exact Hpos|exact Hreach]].
    destruct err as [|m]; cbn.
    + split; [reflexivity|]. split; [reflexivity|]. apply Herr. reflexivity.
    + split; [reflexivity|]. split; [reflexivity|]. split; [reflexivity|].
      apply Herr. reflexivity.
  - split; [|split; [exact Hpos|exact Hreach]].
    cbn. split; [reflexivity|]. split; [reflexivity|].
    rewrite GetPos_eq in Hget. unfold result in Hget.
    destruct (Z.geb_spec (pos c) (Z.of_nat (size (repositories pool))));
      [discriminate|].
    destruct (index (idOrder pool) (pos c)) as [id|] eqn:Hid.
    + destruct (String.eqb id ""); [discriminate|]. cbn in Hget.
      destruct (git_PlainOpen w _); discriminate.
    + cbn in Hget. injection Hget as <-. split; [reflexivity|].
      intros Hinv. rewrite (pool_inv_size pool Hinv) in *.
      destruct (index_in_bounds (idOrder pool) (pos c)) as [id Hid']; [lia|].
      congruence.
Qed.

Lemma afterRowNext_panicIsNil (iter : Iter) :
  panicIsNil (afterRowNext (Next iter)).
Proof.
  unfold afterRowNext, panicIsNil.
  destruct (Next iter) as [iter' [row|[|m]]]; intros msg; discriminate.
Qed.

Lemma protocolInv_move σ σ' :
  deliveryInv σ -> protocolInv w pool σ -> move template w pool σ σ' ->
  protocolInv w pool σ'.
Proof.
  intros (Hclosed & Hcaller & Hnone & _) (Hfeed & Hpos & Hreach & Hpanic) Hmove.
  inversion Hmove; subst; unfold protocolInv;
    cbn [rowReaders fillRepoChannel rows_closed consumer done_closed
         repos_closed repositoryIter feederAt] in *;
    try match goal with
        | Hj : ?ws !! _ = Some ?r |- _ =>
            assert (rw = false) as Hrw
              by (eapply not_returned_rows_open; [exact Hclosed|exact Hj|reflexivity]);
            try discriminate Hrw
        end;
    try match goal with
        | Hj : ?ws !! _ = Some W_closeDone |- _ =>
            exfalso; rewrite Forall_lookup in Hnone; exact (Hnone _ _ Hj eq_refl)
        end.
  all: try (destruct Hfeed as [? ?]; discriminate).
  all: try (destruct Hfeed as (? & ? & ?); discriminate).
  all: try (split; [exact Hfeed|split; [exact Hpos|split; [exact Hreach|]]]).
  all: try (apply Forall_insert; [exact Hpanic|]).
  all: try (intros msg; discriminate).
  all: try (intros msg [= <-]; reflexivity).
  all: try apply afterRowNext_panicIsNil.
  all: try exact Hpanic.
  - (* fill_next *)
    destruct (afterRepoNext_protocol c c' r cs Hpos Hreach) as (Hf & Hp & Hr);
      [assumption|].
    destruct Hfeed as [_ ->]. auto.
  - (* fill_closeDone *)
    destruct Hfeed as (_ & -> & Heof & Hwalk).
    split; [|auto]. rewrite Heof. auto.
  - (* fill_closeRepos *)
    destruct Hfeed as (-> & _ & Hwalk). split; [|auto]. auto.
  - (* fill_sendErr *)
    destruct Hfeed as (-> & -> & Hwalk). split; [|auto]. split; [reflexivity|].
    exists err. auto.
  - (* read_sendRow_closed *)
    exfalso.
    assert (true = false) by
      (eapply not_returned_rows_open; [exact Hclosed|eassumption|reflexivity]).
    discriminate.
  - (* read_sendErr *)
    exfalso. assert (rw = true) by (apply Hcaller; discriminate). congruence.
  - (* next_closed *)
    split; [|auto]. destruct f; cbn [feederAt] in *; try exact Hfeed.
    destruct Hfeed as (_ & err & Herr & _). discriminate Herr.
Qed.

Lemma protocolInv_start wNum : protocolInv w pool (@start Iter wNum).
Proof.
  unfold protocolInv; cbn. split; [auto|]. split; [lia|]. split; [auto|].
  apply Forall_replicate. intros msg; discriminate.
Qed.

Lemma protocolInv_runs wNum σ :
  runs template w pool wNum σ -> protocolInv w pool σ.
Proof.
  intros Hruns. unfold runs in Hruns.
  assert (deliveryInv σ /\ protocolInv w pool σ) as [_ Hinv]; [|exact Hinv].
  revert σ Hruns. apply rtc_ind_r.
  - split; [apply deliveryInv_start|apply protocolInv_start].
  - intros σ1 σ2 _ [_ Hmove] [Hd Hp]. split.
    + eapply deliveryInv_move; eassumption.
    + eapply protocolInv_move; eassumption.
Qed.

End Protocol.

Lemma cancelled_runs :
  @runs _ Iterators.testCommitIter [] Fixture.world broken 1 cancelled.
Proof.
  unfold runs, start, cancelled. cbn [replicate fst RepoIter].
  one_step ltac:(apply (fill_next _ _ _ _ {| pos := 0 |}
                          (Err repositoryNotExists)); reflexivity).
  one_step ltac:(apply fill_closeDone).
  one_step ltac:(apply fill_closeRepos).
  one_step ltac:(eapply (read_range_closed _ _ _ _ _ _ 0%nat); reflexivity).
  one_step ltac:(apply join_close; reflexivity).
  one_step ltac:(apply next_closed).
  one_step ltac:(apply fill_sendErr).
  apply rtc_refl.
Qed.

Section ProtocolProperties.

Context {Iter : Type} `{RowRepoIter Iter}.
Variable template : Iter.
Variable w : World.
Variable pool : RepositoryPool.
Implicit Types σ : pipeline Iter.

(** X11.  In no run, whatever the pool, the row iterator, the number of
    readers and the schedule, does a goroutine close a closed channel or
    send on a closed one.  A reader that panics has dereferenced a nil
    iterator; the feeder panics only on the index expression of [GetPos],
    and only over a pool in which the map and the slice disagree. *)
Theorem panics_of_a_run (wNum : nat) σ :
  runs template w pool wNum σ ->
  (forall msg, fillRepoChannel σ = F_panic msg ->
     msg = "index out of range" /\ ~ pool_inv pool)
  /\ Forall (fun r => forall msg, r = W_panic msg -> msg = nilDereference)
       (rowReaders σ)
  /\ fillRepoChannel σ <> F_panic closeOfClosed
  /\ fillRepoChannel σ <> F_panic sendOnClosed
  /\ (W_panic closeOfClosed ∉ rowReaders σ)
  /\ (W_panic sendOnClosed ∉ rowReaders σ).
Proof.
  intros Hruns.
  destruct (protocolInv_runs template w pool wNum σ Hruns)
    as (Hfeed & _ & _ & Hpanic).
  assert (forall msg, fillRepoChannel σ = F_panic msg ->
            msg = "index out of range" /\ ~ pool_inv pool) as Hf.
  { intros msg Hmsg. rewrite Hmsg in Hfeed. cbn in Hfeed. tauto. }
  split; [exact Hf|]. split; [exact Hpanic|].
  rewrite Forall_forall in Hpanic.
  split; [|split; [|split]].
  - intros Hc. apply Hf in Hc as [Hc _]. discriminate Hc.
  - intros Hc. apply Hf in Hc as [Hc _]. discriminate Hc.
  - intros Hin. specialize (Hpanic _ Hin _ eq_refl). discriminate Hpanic.
  - intros Hin. specialize (Hpanic _ Hin _ eq_refl). discriminate Hpanic.
Qed.

(** X12.  Over a pool that keeps the invariant of the API, with a row
    iterator whose [NewIterator] succeeds on every repository of the pool,
    no run panics: no goroutine of the pipeline ever does, under any
    schedule and with any number of readers. *)
Theorem run_never_panics (wNum : nat) σ :
  pool_inv pool -> factoryNeverFails template w pool ->
  runs template w pool wNum σ ->
  crashed σ = false.
Proof.
  intros Hinv Hfactory Hruns.
  destruct (protocolInv_runs template w pool wNum σ Hruns)
    as (Hfeed & _ & _ & Hpanic).
  destruct (nilInv_runs template w pool wNum σ Hfactory Hruns) as [Hnil _].
  assert (existsb isPanic (rowReaders σ) = false) as Hreaders.
  { apply not_true_is_false. intros Hex.
    apply existsb_exists in Hex as (r & Hin & Hr).
    apply list_elem_of_In in Hin.
    rewrite Forall_forall in Hpanic, Hnil.
    specialize (Hpanic r Hin). specialize (Hnil r Hin).
    destruct r; try discriminate Hr. cbn in Hnil.
    apply Hnil, Hpanic. reflexivity. }
  unfold crashed. destruct (fillRepoChannel σ); try exact Hreaders.
  cbn in Hfeed. tauto.
Qed.

(** X13.  [done] is closed by the feeder alone, and only after [Next] on
    the cursor returned an error that is not [io.EOF]: when [done] is
    closed the feeder is past its [close(i.done)] with that error in hand,
    or has returned after the caller took it.  The feeder is then never
    back at its [select], so its [case <-i.done] is never taken, and no
    reader is ever at its own [close(i.done)]. *)
Theorem done_closed_by_feeder (wNum : nat) σ :
  runs template w pool wNum σ ->
  (W_closeDone ∉ rowReaders σ)
  /\ (done_closed σ = true ->
      fillRepoChannel σ <> F_select
      /\ exists err,
           err <> io_EOF /\ WalkEnds w pool (fst RepoIter) err
           /\ (fillRepoChannel σ = F_closeRepos err
               \/ fillRepoChannel σ = F_sendErr err
               \/ fillRepoChannel σ = F_return
                  /\ consumer σ = C_returned err)).
Proof.
  intros Hruns.
  destruct (protocolInv_runs template w pool wNum σ Hruns) as (Hfeed & _).
  destruct (deliveryInv_runs template w pool wNum σ Hruns)
    as (_ & _ & Hnone & _).
  split.
  { intros Hin. rewrite Forall_forall in Hnone. exact (Hnone _ Hin eq_refl). }
  intros Hdone. rewrite Hdone in Hfeed.
  assert (forall err, true = negb (isEOF err) -> err <> io_EOF) as Hne.
  { intros err Heq ->. discriminate Heq. }
  destruct (fillRepoChannel σ) as [|repo|err|err|err| |msg]; cbn in Hfeed.
  - destruct Hfeed; discriminate.
  - destruct Hfeed; discriminate.
  - destruct Hfeed; discriminate.
  - destruct Hfeed as (Hd & _ & Hwalk). split; [discriminate|].
    exists err. auto.
  - destruct Hfeed as (Hd & _ & Hwalk). split; [discriminate|].
    exists err. auto.
  - destruct Hfeed as (_ & err & Hcs & Hd & Hwalk). split; [discriminate|].
    exists err. auto 6.
  - destruct Hfeed; discriminate.
Qed.

(** X14.  The error [Next] returns at the end of a run is the one at which
    a plain loop of [Next] over the pool's cursor stops, [io.EOF] after the
    last repository or the error of the first repository that does not
    open; an error of a row iterator is never what [Next] returns. *)
Theorem Next_returns_error_of_cursor (wNum : nat) σ (err : error) :
  runs template w pool wNum σ -> consumer σ = C_returned err ->
  WalkEnds w pool (fst RepoIter) err
  /\ forall err', WalkEnds w pool (fst RepoIter) err' -> err' = err.
Proof.
  intros Hruns Hc.
  destruct (protocolInv_runs template w pool wNum σ Hruns) as (Hfeed & _).
  destruct (deliveryInv_runs template w pool wNum σ Hruns)
    as (_ & _ & _ & Hret).
  rewrite (Hret err Hc), Hc in Hfeed. cbn in Hfeed.
  destruct Hfeed as (_ & err0 & [= <-] & _ & Hwalk).
  split; [exact Hwalk|].
  intros err' Hwalk'. eapply WalkEnds_unique; eassumption.
Qed.

(** X15.  When [Next] has returned its error, the run is over and nothing
    is left behind: the feeder and every reader have returned, [repos] and
    [rows] are closed, [done] is closed exactly if the error is not
    [io.EOF], and no goroutine can take another step. *)
Theorem nothing_left_after_error (wNum : nat) σ (err : error) :
  runs template w pool wNum σ -> consumer σ = C_returned err ->
  fillRepoChannel σ = F_return
  /\ Forall (fun r => r = W_return) (rowReaders σ)
  /\ repos_closed σ = true /\ rows_closed σ = true
  /\ done_closed σ = negb (isEOF err)
  /\ stuck template w pool σ.
Proof.
  intros Hruns Hc.
  destruct (protocolInv_runs template w pool wNum σ Hruns) as (Hfeed & _).
  destruct (deliveryInv_runs template w pool wNum σ Hruns)
    as (Hclosed & Hcaller & _ & Hret).
  pose proof (Hret err Hc) as Hf. rewrite Hf, Hc in Hfeed. cbn in Hfeed.
  destruct Hfeed as (Hrp & err0 & [= <-] & Hd & _).
  assert (rows_closed σ = true) as Hrw by (apply Hcaller; rewrite Hc; discriminate).
  assert (Forall (fun r => r = W_return) (rowReaders σ)) as Hall.
  { eapply Forall_impl; [apply Hclosed, Hrw|].
    intros r Hr. destruct r; try discriminate Hr. reflexivity. }
  repeat (split; [assumption|]).
  intros σ' [_ Hmove]. rewrite Forall_lookup in Hall.
  inversion Hmove; subst;
    cbn [fillRepoChannel rowReaders rows_closed consumer] in *;
    try discriminate;
    match goal with
    | Hj : _ !! _ = Some _ |- _ => specialize (Hall _ _ Hj); discriminate Hall
    end.
Qed.

End ProtocolProperties.

Lemma panics_of_a_run_witness :
  (W_panic closeOfClosed ∉ rowReaders cancelled)
  /\ fillRepoChannel cancelled <> F_panic closeOfClosed.
Proof.
  destruct (panics_of_a_run [] Fixture.world broken 1 cancelled cancelled_runs)
    as (_ & _ & Hf & _ & Hr & _).
  split; [exact Hr|exact Hf].
Defined.

Lemma run_never_panics_witness : crashed finished = false.
Proof.
  apply (@run_never_panics _ Iterators.testCommitIter [] Fixture.world
           Iterators.single 1 finished).
  - apply pool_inv_Add, pool_inv_New.
  - intros pos repo _. eexists. reflexivity.
  - exact finished_runs.
Defined.

Lemma done_closed_by_feeder_witness :
  exists err,
    err <> io_EOF /\ WalkEnds Fixture.world broken (fst RepoIter) err
    /\ consumer cancelled = C_returned err.
Proof.
  destruct (done_closed_by_feeder [] Fixture.world broken 1 cancelled
              cancelled_runs) as [_ Hdone].
  destruct (Hdone eq_refl) as (_ & err & Hne & Hwalk & [Hf|[Hf|[_ Hc]]]);
    [discriminate Hf|discriminate Hf|].
  exists err. auto.
Defined.

Lemma Next_returns_error_of_cursor_witness :
  WalkEnds Fixture.world broken (fst RepoIter) repositoryNotExists
  /\ WalkEnds Fixture.world Iterators.single (fst RepoIter) io_EOF.
Proof.
  split.
  - apply (Next_returns_error_of_cursor (H := Iterators.testCommitIter) []
             Fixture.world broken 1 cancelled repositoryNotExists
             cancelled_runs eq_refl).
  - apply (Next_returns_error_of_cursor (H := Iterators.testCommitIter) []
             Fixture.world Iterators.single 1 finished io_EOF
             finished_runs eq_refl).
Defined.

Lemma nothing_left_after_error_witness :
  done_closed cancelled = true /\ done_closed finished = false
  /\ stuck (H := Iterators.testCommitIter) [] Fixture.world broken cancelled.
Proof.
  destruct (nothing_left_after_error (H := Iterators.testCommitIter) []
              Fixture.world broken 1 cancelled repositoryNotExists
              cancelled_runs eq_refl) as (_ & _ & _ & _ & Hd & Hstuck).
  destruct (nothing_left_after_error (H := Iterators.testCommitIter) []
              Fixture.world Iterators.single 1 finished io_EOF
              finished_runs eq_refl) as (_ & _ & _ & _ & Hd' & _).
  split; [exact Hd|]. split; [exact Hd'|exact Hstuck].
Defined.

(** ** The rows returned so far *)

(** A list of lists interleaves to its concatenation. *)
Lemma Interleaving_sequential {A} (ls : list (list A)) :
  Interleaving ls (concat ls).
Proof.
  induction ls as [|l ls IH].
  - apply Interleaving_done. constructor.
  - induction l as [|x l IHl].
    + apply Interleaving_nil_cons, IH.
    + cbn. eapply Interleaving_take; [reflexivity|exact IHl].
Qed.

Section RowsSoFar.

Context {Iter : Type} `{RowRepoIter Iter}.
Variable template : Iter.
Variable w : World.
Variable pool : RepositoryPool.
Implicit Types σ : pipeline Iter.

(** X16.  When the sequential loop over the pool ends without an error
    with the rows [rowss], then at every moment of every run, not only at
    its end, the rows [Next] has returned so far are the beginning of an
    interleaving of [rowss]: no row has been returned twice or made up,
    and the rows of one repository have come in the order of its
    iterator. *)
Theorem rows_so_far (wNum : nat) (rowss : list (list Row)) σ :
  Completes template w pool (fst RepoIter) rowss ->
  runs template w pool wNum σ ->
  (exists rest, Interleaving rowss (yielded σ ++ rest))
  /\ yielded σ ⊆+ concat rowss.
Proof.
  intros Hc Hruns.
  destruct (cleanInv_runs template w pool wNum rowss σ Hc Hruns)
    as (pw & pf & _ & _ & _ & _ & _ & _ & Hint).
  pose proof (Hint _ (Interleaving_sequential (pw ++ pf))) as Hall.
  split; [eauto|].
  apply Interleaving_concat in Hall. rewrite <- Hall.
  apply submseteq_inserts_r. reflexivity.
Qed.

End RowsSoFar.

Lemma midway_runs :
  @runs _ Iterators.testCommitIter [] Fixture.world Iterators.single 1 midway.
Proof.
  unfold runs, start, midway. cbn [replicate fst RepoIter].
  one_step ltac:(apply fill_next, Next_single_0).
  one_step ltac:(apply (fill_send _ _ _ repoA _ _ 0%nat); reflexivity).
  one_step ltac:(eapply (read_next _ _ _ _ _ _ 0%nat); reflexivity).
  one_step ltac:(eapply (read_sendRow _ _ _ _ _ _ 0%nat); reflexivity).
  apply rtc_refl.
Qed.

Lemma rows_so_far_witness :
  (exists rest, Interleaving [[[]; []; []]] (yielded midway ++ rest))
  /\ yielded midway ⊆+ [[]; []; []].
Proof.
  apply (rows_so_far (H := Iterators.testCommitIter) [] Fixture.world
           Iterators.single 1 [[[]; []; []]] midway).
  - exists 5%nat. reflexivity.
  - exact midway_runs.
Defined.

(** ** The iterator of the tests *)

Lemma GetPos_Ok_inv p pos w repo :
  pool_inv p -> result (GetPos p pos w) = Ok repo ->
  exists path,
    repositories p !! ID repo = Some path
    /\ git_PlainOpen w path = inl (Repo repo).
Proof.
  intros [_ Hdom]. rewrite GetPos_eq. unfold result.
  destruct (pos >=? _); [discriminate|].
  destruct (index (idOrder p) pos) as [id|] eqn:Hid; [|discriminate].
  destruct (String.eqb id ""); [discriminate|]. cbn [fst].
  apply index_Some in Hid as [_ Hid]. apply list_elem_of_lookup_2 in Hid.
  apply Hdom in Hid as [path Hpath]. rewrite Hpath. cbn.
  destruct (git_PlainOpen w path) as [repo'|err] eqn:Hopen; [|discriminate].
  intros [= <-]. exists path. cbn. auto.
Qed.

Section TestCommitIter.

#[local] Existing Instance Iterators.testCommitIter.
Variable template : list string.
Variable w : World.
Variable pool : RepositoryPool.

Lemma Drains_unique (iter : list string) rows rows' :
  Drains iter rows -> Drains iter rows' -> rows = rows'.
Proof.
  intros [f1 H1] [f2 H2].
  apply (drain_mono f1 (f1 + f2)) in H1; [|lia].
  apply (drain_mono f2 (f1 + f2)) in H2; [|lia]. congruence.
Qed.

(** What the sequential loop gets with the iterator of the tests: for each
    repository one empty row for each of its commits. *)
Lemma testCommitIter_rowss (c : nat) :
  pool_inv pool ->
  (forall id path repo,
     repositories pool !! id = Some path -> git_PlainOpen w path = inl repo ->
     length (CommitObjects repo) = c) ->
  forall rowss cur,
    Completes template w pool cur rowss ->
    Forall (fun rows => rows = replicate c []) rowss.
Proof.
  intros Hinv Hcommits.
  induction rowss as [|rows rest IH]; intros cur Hc; [constructor|].
  destruct (result (RepositoryIter_Next pool cur w)) as [cur' r] eqn:Hnext.
  pose proof (Completes_next template w pool cur cur' r _ Hc Hnext) as Hturn.
  destruct r as [repo|err|msg]; [|destruct Hturn; discriminate|contradiction].
  destruct Hturn as (iter & rows' & rest' & Hnew & Hdrain & [= <- <-] & Hrest).
  constructor; [|eapply IH, Hrest].
  cbn in Hnew. injection Hnew as <-.
  rewrite (Drains_unique _ _ _ Hdrain (testCommitIter_drains _)).
  rewrite RepositoryIter_Next_eq in Hnext. unfold result at 1 in Hnext.
  cbn [fst] in Hnext.
  destruct (result (GetPos pool (pos cur) w)) as [repo'|err|msg] eqn:Hget;
    try discriminate.
  injection Hnext as _ ->.
  destruct (GetPos_Ok_inv pool (pos cur) w repo Hinv Hget) as (path & Hpath & Hopen).
  rewrite <- (Hcommits _ _ _ Hpath Hopen).
  generalize (CommitObjects (Repo repo)).
  intros l. induction l as [|x l IHl]; [reflexivity|]. cbn. rewrite IHl. reflexivity.
Qed.

(** X17.  What [testRepoIter] of the package's tests asserts holds under
    every schedule and with any number of readers: over a pool whose
    locations all open, under non-empty identifiers, to repositories with
    [c] commits each, once [Next] of the pipeline built on [testCommitIter]
    has returned an error that error is [io.EOF], and [Next] has returned
    before it exactly [c] rows for each registered identifier, each of them
    an empty row. *)
Theorem testRepoIter_count (c wNum : nat) (σ : pipeline (list string))
    (err : error) :
  validPool w pool ->
  (forall id path repo,
     repositories pool !! id = Some path -> git_PlainOpen w path = inl repo ->
     length (CommitObjects repo) = c) ->
  runs template w pool wNum σ -> consumer σ = C_returned err ->
  err = io_EOF
  /\ length (yielded σ) = (c * length (idOrder pool))%nat
  /\ Forall (fun row => row = []) (yielded σ).
Proof.
  intros Hvalid Hcommits Hruns Hret.
  destruct (sequential_completes template w pool Hvalid) with
    (n := length (idOrder pool)) (p := 0%nat) as (rowss & Hc & Hlen);
    [|reflexivity|].
  { intros repo. eexists _, _. split; [reflexivity|apply testCommitIter_drains]. }
  change {| pos := Z.of_nat 0 |} with (fst RepoIter) in Hc.
  destruct (clean_run_rows template w pool wNum rowss σ err Hc Hruns Hret)
    as [Herr Hint].
  split; [exact Herr|].
  apply Interleaving_concat in Hint.
  pose proof (testCommitIter_rowss c (proj1 Hvalid) Hcommits rowss _ Hc) as Hrows.
  assert (concat rowss = replicate (c * length rowss) []) as Hconcat.
  { clear -Hrows. induction Hrows as [|rows rest -> _ IH]; cbn.
    - rewrite Nat.mul_0_r. reflexivity.
    - rewrite IH, <- replicate_add. f_equal. lia. }
  rewrite Hint, Hconcat, Hlen. split; [apply length_replicate|].
  apply Forall_replicate. reflexivity.
Qed.

End TestCommitIter.

Lemma testRepoIter_count_witness :
  length (yielded finished) = (3 * length (idOrder Iterators.single))%nat.
Proof.
  refine (proj1 (proj2 (testRepoIter_count [] Fixture.world Iterators.single 3 1
                          finished io_EOF single_valid _ finished_runs eq_refl))).
  intros id path repo _ Hopen. cbn in Hopen.
  destruct (_ || _); [|discriminate]. injection Hopen as <-. reflexivity.
Defined.

(** ** A repository that does not open *)

(** The rows a cancelled reader drops can be set aside. *)
Lemma Interleaving_set_aside {A} (pw rest : list (list A)) j l lost r :
  pw !! j = Some l ->
  Interleaving (<[j := []]> pw ++ rest ++ l :: lost) r ->
  Interleaving (pw ++ rest ++ lost) r.
Proof.
  intros Hj Hint.
  assert (j < length pw)%nat as Hlt by (eapply lookup_lt_Some, Hj).
  apply Interleaving_nil_inv.
  eapply Interleaving_perm; [|exact Hint].
  assert (<[j := []]> pw ≡ₚ [] :: delete j pw) as ->.
  { rewrite (delete_Permutation (<[j := []]> pw) j [])
      by (apply list_lookup_insert_eq, Hlt).
    rewrite delete_insert_same. reflexivity. }
  rewrite (delete_Permutation pw j l Hj) at 2. cbn.
  apply perm_skip. rewrite !app_assoc. symmetry. apply Permutation_middle.
Qed.

Section FailingRun.

Context {Iter : Type} `{RowRepoIter Iter}.
Variable template : Iter.
Variable w : World.
Variable pool : RepositoryPool.
Implicit Types σ : pipeline Iter.

Lemma endsAt_move rowss err σ σ' pw pf lost :
  deliveryInv σ -> endsAt template w pool rowss err σ pw pf lost ->
  move template w pool σ σ' ->
  exists pw' pf' lost',
    endsAt template w pool rowss err σ' pw' pf' lost'
    /\ (movesLeft σ' pw' pf' < movesLeft σ pw pf)%nat.
Proof.
  intros (Hclosed & _) (Herr & Hret & Hopen & Hpw & Hpf & Hint) Hmove.
  inversion Hmove; subst; unfold endsAt, movesLeft;
    cbn [consumer yielded done_closed rows_closed rowReaders repos_closed
         fillRepoChannel repositoryIter] in *;
    try match goal with
        | Hj : ?ws !! _ = Some _ |- _ =>
            destruct (Forall2_lookup_l _ _ _ _ _ Hpw Hj) as (l & Hl & Hpend);
            cbn [readerPending] in Hpend; try contradiction
        end;
    cbn [feederLeft] in Hpf; try contradiction.
  - (* [case <-i.done] of the feeder *)
    destruct Hpf as [Hd _]. discriminate Hd.
  - (* the feeder asks the cursor *)
    destruct Hpf as (_ & -> & Hends). exists pw, pf, lost.
    destruct pf as [|rows rest]; cbn [EndsWith] in Hends.
    + destruct Hends as [c'' Hnext]. rewrite Hnext in H0. injection H0 as <- <-.
      destruct err as [|msg]; cbn [afterRepoNext feederLeft feederStepsLeft].
      * split; [|cbn; lia]. repeat split; try assumption; try reflexivity.
        intros Hf; discriminate Hf.
      * split; [|cbn; lia]. repeat split; try assumption; try reflexivity.
        intros Hf; discriminate Hf.
    + destruct Hends as (c'' & repo & iter & Hnext & Hnew & Hrows & Hrest).
      rewrite Hnext in H0. injection H0 as <- <-.
      cbn [afterRepoNext feederLeft feederStepsLeft].
      split; [|lia]. repeat split; try assumption; try reflexivity.
      * intros Hf; discriminate Hf.
      * exists iter, rows, rest. auto.
  - (* a reader receives a repository *)
    destruct Hpf as (-> & _ & iter & rows & rest & Hnew & Hrows & -> & Hrest).
    subst l. exists (<[j := rows]> pw), rest, lost. split.
    + split; [exact Herr|].
      split; [intros Hf; discriminate Hf|].
      split; [intros _ _; apply Forall_insert; [auto|reflexivity]|].
      split; [apply Forall2_insert; [exact Hpw|]; rewrite Hnew; exact Hrows|].
      split; [repeat split; try reflexivity; exact Hrest|].
      intros rest0 Hi. apply Hint.
      apply (Interleaving_hand_over pw (rest ++ lost) j); assumption.
    + pose proof (readersSteps_insert ws pw j W_range []
                    (W_select (dropError (NewIterator template repo))) rows H0 Hl)
        as Hsteps.
      cbn [feederStepsLeft readerSteps length] in *. rewrite cost_cons. lia.
  - destruct Hpf as (_ & Hrp & _). discriminate Hrp.
  - (* the feeder closes [done] *)
    destruct Hpf as (_ & -> & -> & ->). exists pw, [], lost. split; [|cbn; lia].
    repeat split; try assumption; try reflexivity.
    + intros Hf; discriminate Hf.
    + intros Hd; discriminate Hd.
  - destruct Hpf as (Hd & _). discriminate Hd.
  - (* the feeder closes [repos] *)
    destruct Hpf as (_ & -> & ->). exists pw, [], lost. split; [|cbn; lia].
    repeat split; try assumption; try reflexivity.
    + intros Hf; discriminate Hf.
    + intros _ Hrp; discriminate Hrp.
  - destruct Hpf as (Hrp & _). discriminate Hrp.
  - (* [Next] receives the feeder's error *)
    destruct Hpf as (-> & -> & ->). exists pw, [], lost. split; [|cbn; lia].
    split; [intros e He; injection He as <-; reflexivity|].
    split; [intros _; eauto|].
    split; [intros _ Hrp; discriminate Hrp|].
    split; [exact Hpw|]. split; [reflexivity|exact Hint].
  - (* a reader finds [repos] closed *)
    exists pw, pf, lost. split.
    + split; [exact Herr|]. split; [exact Hret|].
      split; [intros _ Hrp; discriminate Hrp|].
      split; [|split; [exact Hpf|exact Hint]].
      rewrite <- (list_insert_id pw j l Hl).
      apply Forall2_insert; [exact Hpw|exact Hpend].
    + pose proof (readersSteps_insert_l ws pw j W_range l W_return H0 Hl) as Hsteps.
      cbn [readerSteps] in Hsteps. lia.
  - (* a reader finds [done] closed and drops its iterator *)
    exists (<[j := []]> pw), pf, (l :: lost). split.
    + split; [exact Herr|]. split; [exact Hret|].
      split; [intros Hd; discriminate Hd|].
      split; [apply Forall2_insert; [exact Hpw|reflexivity]|].
      split; [exact Hpf|].
      intros rest Hi. apply Hint.
      apply (Interleaving_set_aside pw pf j l lost); assumption.
    + pose proof (readersSteps_insert ws pw j (W_select (Some iter)) l
                    W_return [] H0 Hl) as Hsteps.
      cbn [readerSteps length] in Hsteps. lia.
  - (* a reader asks its row iterator *)
    exists pw, pf, lost. split.
    + split; [exact Herr|]. split; [exact Hret|].
      split; [intros _ Hrp; apply Forall_insert;
              [auto|apply afterRowNext_not_returned]|].
      split; [|split; [exact Hpf|exact Hint]].
      rewrite <- (list_insert_id pw j l Hl).
      apply Forall2_insert; [exact Hpw|].
      destruct (Next iter) as [iter' [row|e]] eqn:Hnext.
      * exact (Drains_row iter iter' row l Hpend Hnext).
      * destruct (Drains_err iter iter' e l Hpend Hnext) as [-> ->]. reflexivity.
    + pose proof (readersSteps_insert_l ws pw j (W_select (Some iter)) l
                    (afterRowNext (Next iter)) H0 Hl) as Hsteps.
      destruct (Next iter) as [iter' [row|e]] eqn:Hnext.
      * cbn [afterRowNext readerSteps] in *. lia.
      * destruct (Drains_err iter iter' e l Hpend Hnext) as [-> ->].
        cbn [afterRowNext readerSteps length] in *. lia.
  - (* [Next] receives a row and returns it *)
    destruct iter as [iter|]; [|contradiction].
    destruct Hpend as (rows & -> & Hrows).
    assert (j < length pw)%nat as Hlt by (eapply lookup_lt_Some, Hl).
    exists (<[j := rows]> pw), pf, lost. split.
    + split; [intros e He; discriminate He|].
      split; [exact Hret|].
      split; [intros Hd Hrp; apply Forall_insert; [auto|reflexivity]|].
      split; [apply Forall2_insert; [exact Hpw|exact Hrows]|].
      split; [exact Hpf|].
      intros rest Hi. rewrite <- app_assoc. apply Hint.
      apply (Interleaving_take_at (pw ++ pf ++ lost) j row rows).
      * apply lookup_app_l_Some, Hl.
      * rewrite insert_app_l by exact Hlt. exact Hi.
    + pose proof (readersSteps_insert ws pw j (W_sendRow (Some iter) row)
                    (row :: rows) (W_select (Some iter)) rows H0 Hl) as Hsteps.
      cbn [readerSteps length] in Hsteps. lia.
  - exfalso. specialize (Hclosed eq_refl). rewrite Forall_lookup in Hclosed.
    specialize (Hclosed _ _ H0). discriminate Hclosed.
  - (* the last reader has returned: [rows] is closed *)
    exists pw, pf, lost. split; [|lia]. repeat split; assumption.
  - (* [Next] finds [rows] closed *)
    exists pw, pf, lost. split; [|cbn; lia].
    split; [intros e He; discriminate He|].
    split; [intros Hf; destruct (Hret Hf) as [e He]; discriminate He|].
    repeat split; assumption.
Qed.

Lemma endsAt_start wNum rowss err :
  EndsWith template w pool rowss (fst RepoIter) err ->
  endsAt template w pool rowss err (start wNum) (replicate wNum []) rowss []
  /\ movesLeft (@start Iter wNum) (replicate wNum []) rowss
     = (cost rowss + wNum + 7)%nat.
Proof.
  intros Hends. unfold endsAt, movesLeft, start;
    cbn [consumer yielded done_closed rowReaders repos_closed rows_closed
         fillRepoChannel repositoryIter].
  split.
  - split; [intros e He; discriminate He|].
    split; [intros Hf; discriminate Hf|].
    split; [intros _ _; apply Forall_replicate; reflexivity|].
    split; [apply Forall2_replicate; reflexivity|].
    split; [repeat split; try reflexivity; exact Hends|].
    intros rest Hi. cbn [app]. rewrite app_nil_r in Hi.
    apply Interleaving_replicate_nil in Hi. exact Hi.
  - cbn [feederStepsLeft callerSteps].
    assert (forall n, readersSteps (replicate n (@W_range Iter)) (replicate n [])
                      = n) as ->.
    { induction n as [|n IH]; [reflexivity|]. cbn [replicate readersSteps].
      rewrite IH. reflexivity. }
    lia.
Qed.

Lemma ends_nsteps wNum rowss err n :
  EndsWith template w pool rowss (fst RepoIter) err ->
  forall σ, nsteps (step template w pool) n (start wNum) σ ->
  exists pw pf lost,
    endsAt template w pool rowss err σ pw pf lost
    /\ (n + movesLeft σ pw pf <= cost rowss + wNum + 7)%nat.
Proof.
  intros Hends. induction n as [|n IH]; intros σ Hn.
  - inversion Hn; subst.
    destruct (endsAt_start wNum rowss err Hends) as [Hinv Hsteps].
    exists (replicate wNum []), rowss, []. split; [exact Hinv|].
    rewrite Hsteps. lia.
  - apply nsteps_inv_r in Hn as (σ1 & Hn & [_ Hmove]).
    destruct (IH σ1 Hn) as (pw & pf & lost & Hinv & Hle).
    assert (deliveryInv σ1) as Hdel.
    { eapply deliveryInv_runs. eapply rtc_nsteps_2, Hn. }
    destruct (endsAt_move rowss err σ1 σ pw pf lost Hdel Hinv Hmove)
      as (pw' & pf' & lost' & Hinv' & Hlt).
    exists pw', pf', lost'. split; [exact Hinv'|lia].
Qed.

Lemma endsAt_not_crashed rowss err σ pw pf lost :
  endsAt template w pool rowss err σ pw pf lost -> crashed σ = false.
Proof.
  intros (_ & _ & _ & Hpw & Hpf & _). unfold crashed.
  rewrite (readerPending_no_panic _ _ Hpw).
  destruct (fillRepoChannel σ); try reflexivity. contradiction.
Qed.

(** With at least one reader, as long as [Next] has not returned an error
    some goroutine can move, whether [done] is closed or not. *)
Lemma ends_progress rowss err σ pw pf lost :
  deliveryInv σ -> endsAt template w pool rowss err σ pw pf lost ->
  (0 < length (rowReaders σ))%nat ->
  (exists e, consumer σ = C_returned e)
  \/ exists σ', step template w pool σ σ'.
Proof.
  intros Hdel Hinv Hlen.
  pose proof (endsAt_not_crashed rowss err σ pw pf lost Hinv) as Hcrash.
  destruct Hinv as (Herr & Hret & Hopen & Hpw & Hpf & _).
  destruct σ as [f c ws d rp rw y cs].
  cbn [consumer yielded done_closed rows_closed rowReaders repos_closed
       fillRepoChannel repositoryIter] in *.
  destruct (existsb working ws) eqn:Hwork.
  { (* a reader with an iterator asks it, drops it, or hands its row over *)
    right. apply existsb_lookup in Hwork as (j & r & Hj & Hr).
    destruct (Forall2_lookup_l _ _ _ _ _ Hpw Hj) as (l & Hl & Hpend).
    destruct r as [|[iter|]|[iter|] row| | | |]; try discriminate Hr;
      try contradiction.
    - destruct d.
      + eexists. split; [exact Hcrash|]. eapply read_cancelled, Hj.
      + eexists. split; [exact Hcrash|]. eapply read_next, Hj.
    - destruct (deliveryInv_waiting _ j _ Hdel Hj eq_refl) as [Hrw Hcs].
      cbn in Hrw, Hcs. subst rw cs.
      eexists. split; [exact Hcrash|]. eapply read_sendRow, Hj. }
  destruct f as [|repo|e|e|e| |msg]; cbn [feederLeft] in Hpf;
    try contradiction.
  - right. destruct Hpf as (-> & _).
    destruct (result (RepositoryIter_Next pool c w)) as [c' r] eqn:Hnext.
    eexists. split; [exact Hcrash|]. eapply fill_next, Hnext.
  - (* the feeder hands over a repository: a reader is waiting for it *)
    right. destruct Hpf as (-> & -> & _).
    destruct (existsb waiting ws) eqn:Hwait.
    + apply existsb_lookup in Hwait as (j & r & Hj & Hr).
      destruct r; try discriminate Hr.
      eexists. split; [exact Hcrash|]. eapply fill_send, Hj.
    + exfalso. pose proof (idle_readers_returned ws pw Hpw Hwork Hwait) as Hall.
      specialize (Hopen eq_refl eq_refl).
      destruct ws as [|r ws]; [cbn in Hlen; lia|].
      apply Forall_cons in Hopen as [Hr _]. cbn in Hall.
      rewrite Hr in Hall. discriminate Hall.
  - right. destruct Hpf as (-> & _).
    eexists. split; [exact Hcrash|]. apply fill_closeDone.
  - right. destruct Hpf as (-> & _).
    eexists. split; [exact Hcrash|]. apply fill_closeRepos.
  - destruct Hpf as (-> & _).
    destruct (existsb waiting ws) eqn:Hwait.
    { right. apply existsb_lookup in Hwait as (j & r & Hj & Hr).
      destruct r; try discriminate Hr.
      eexists. split; [exact Hcrash|]. eapply read_range_closed, Hj. }
    pose proof (idle_readers_returned ws pw Hpw Hwork Hwait) as Hall.
    destruct rw.
    + destruct cs as [| |e'].
      * right. eexists. split; [exact Hcrash|]. apply next_closed.
      * right. eexists. split; [exact Hcrash|]. apply fill_sendErr.
      * left. eauto.
    + right. eexists. split; [exact Hcrash|]. apply join_close, Hall.
  - left. apply Hret. reflexivity.
Qed.

(** X18.  A repository that does not open ends the run, and its error is
    what [Next] returns.  When the cursor of the pool gives repositories
    whose row iterators give the rows [rowss], each ending with [io.EOF],
    and then returns an error, of whatever kind: in every run, with any
    number of readers and under any schedule, an error [Next] returns is
    that error, and the rows [Next] returned before it are the beginning of
    an interleaving of [rowss] (rows that readers held when the feeder
    closed [done] may be missing, none is returned twice or made up).
    With at least one reader every state in which [Next] has not returned
    the error has a next step, and no run is longer than
    [cost rowss + wNum + 7] steps: no schedule blocks and the error
    arrives. *)
Theorem cursor_error_ends_the_run (wNum : nat) (rowss : list (list Row))
    (err : error) :
  EndsWith template w pool rowss (fst RepoIter) err ->
  (forall σ e,
     runs template w pool wNum σ -> consumer σ = C_returned e ->
     e = err /\ exists rest, Interleaving rowss (yielded σ ++ rest))
  /\ ((0 < wNum)%nat ->
      forall σ, runs template w pool wNum σ ->
        (exists e, consumer σ = C_returned e)
        \/ exists σ', step template w pool σ σ')
  /\ (forall n σ,
        nsteps (step template w pool) n (start wNum) σ ->
        (n <= cost rowss + wNum + 7)%nat).
Proof.
  intros Hends. split; [|split].
  - intros σ e Hruns Hret. apply rtc_nsteps_1 in Hruns as [n Hn].
    destruct (ends_nsteps wNum rowss err n Hends σ Hn)
      as (pw & pf & lost & (Herr & _ & _ & _ & _ & Hint) & _).
    split; [exact (Herr e Hret)|].
    exists (concat (pw ++ pf ++ lost)). apply Hint, Interleaving_sequential.
  - intros Hnum σ Hruns.
    pose proof (deliveryInv_runs template w pool wNum σ Hruns) as Hdel.
    pose proof (runs_length template w pool wNum σ Hruns) as Hlen.
    apply rtc_nsteps_1 in Hruns as [n Hn].
    destruct (ends_nsteps wNum rowss err n Hends σ Hn)
      as (pw & pf & lost & Hinv & _).
    apply (ends_progress rowss err σ pw pf lost Hdel Hinv). lia.
  - intros n σ Hn.
    destruct (ends_nsteps wNum rowss err n Hends σ Hn)
      as (pw & pf & lost & _ & Hle).
    lia.
Qed.

End FailingRun.

Lemma interrupted_runs :
  @runs _ Iterators.testCommitIter [] Fixture.world mixed 1 interrupted.
Proof.
  unfold runs, start, interrupted. cbn [replicate fst RepoIter].
  one_step ltac:(apply (fill_next _ _ _ _ {| pos := 1 |} (Ok repoA));
                 reflexivity).
  one_step ltac:(apply (fill_send _ _ _ repoA _ _ 0%nat); reflexivity).
  one_step ltac:(eapply (read_next _ _ _ _ _ _ 0%nat); reflexivity).
  one_step ltac:(eapply (read_sendRow _ _ _ _ _ _ 0%nat); reflexivity).
  one_step ltac:(apply (fill_next _ _ _ _ {| pos := 1 |}
                          (Err repositoryNotExists)); reflexivity).
  one_step ltac:(apply fill_closeDone).
  one_step ltac:(apply fill_closeRepos).
  one_step ltac:(eapply (read_cancelled _ _ _ _ _ _ 0%nat); reflexivity).
  one_step ltac:(apply join_close; reflexivity).
  one_step ltac:(apply next_closed).
  one_step ltac:(apply fill_sendErr).
  apply rtc_refl.
Qed.

Lemma cursor_error_ends_the_run_witness :
  EndsWith (H := Iterators.testCommitIter) [] Fixture.world mixed
    [[[]; []; []]] (fst RepoIter) repositoryNotExists
  /\ consumer interrupted = C_returned repositoryNotExists
  /\ yielded interrupted = [[]]
  /\ exists rest, Interleaving [[[]; []; []]] (yielded interrupted ++ rest).
Proof.
  assert (EndsWith (H := Iterators.testCommitIter) [] Fixture.world mixed
            [[[]; []; []]] (fst RepoIter) repositoryNotExists) as Hends.
  { exists {| pos := 1 |}, repoA, (CommitObjects Fixture.basic).
    split; [reflexivity|]. split; [reflexivity|].
    split; [apply (testCommitIter_drains (CommitObjects Fixture.basic))|].
    exists {| pos := 1 |}. reflexivity. }
  split; [exact Hends|]. split; [reflexivity|]. split; [reflexivity|].
  destruct (cursor_error_ends_the_run (H := Iterators.testCommitIter) []
              Fixture.world mixed 1 [[[]; []; []]] repositoryNotExists Hends)
    as (Hsafe & _ & _).
  exact (proj2 (Hsafe interrupted repositoryNotExists interrupted_runs eq_refl)).
Defined.

(** ** [GetPos] at a negative position, and after [AddGit] *)

(** X19.  In a pool the API built, [GetPos] panics exactly at the negative
    positions: a negative position passes the bound check against the size
    of the map and then indexes the slice out of range, with nothing
    opened; at every position from 0 on [GetPos] returns a repository or
    an error. *)
Theorem GetPos_panics_iff_negative (p : RepositoryPool) (pos : Z) (w : World) :
  reachable p ->
  ((exists msg, result (GetPos p pos w) = Panic msg) <-> pos < 0)
  /\ (pos < 0 -> GetPos p pos w = (Panic "index out of range", [])).
Proof.
  intros Hr. pose proof (reachable_inv p Hr) as Hinv.
  assert (pos < 0 -> GetPos p pos w = (Panic "index out of range", [])) as Hneg.
  { intros Hlt. rewrite GetPos_eq.
    destruct (Z.geb_spec pos (Z.of_nat (size (repositories p)))); [lia|].
    unfold index. destruct (Z.ltb_spec pos 0); [reflexivity|lia]. }
  split; [|exact Hneg]. split.
  - intros [msg Hmsg]. destruct (Z.lt_ge_cases pos 0) as [Hlt|Hge]; [exact Hlt|].
    exfalso. rewrite GetPos_eq, (pool_inv_size p Hinv) in Hmsg.
    destruct (Z.geb_spec pos (Z.of_nat (length (idOrder p)))); [discriminate|].
    destruct (index_in_bounds (idOrder p) pos) as [id Hid]; [lia|].
    rewrite Hid in Hmsg. destruct (String.eqb id ""); [discriminate|].
    unfold result in Hmsg. cbn in Hmsg.
    destruct (git_PlainOpen w _); discriminate.
  - intros Hlt. rewrite (Hneg Hlt). eexists. reflexivity.
Qed.

Lemma GetPos_panics_iff_negative_witness :
  GetPos (Add NewRepositoryPool "0" "/tmp/wt") (-1) Fixture.world
  = (Panic "index out of range", []).
Proof.
  apply (GetPos_panics_iff_negative (Add NewRepositoryPool "0" "/tmp/wt") (-1)
           Fixture.world).
  - apply reachable_Add, reachable_New.
  - lia.
Defined.

(** X20.  What [AddGit] registers can be fetched.  When [AddGit] on a pool
    the API built succeeds, the identifier it returns has a position, and
    [GetPos] there, in the same file system, opens the path given to
    [AddGit] again and returns the repository that the open in [AddGit]
    found, under that identifier. *)
Theorem AddGit_then_GetPos (p : RepositoryPool) (path : string) (w : World)
    (repo : git_Repository) :
  reachable p -> git_PlainOpen w path = inl repo ->
  snd (result (AddGit p path w)) = (filepath.Base path, None)
  /\ exists pos,
       index (idOrder (fst (result (AddGit p path w)))) pos
       = Some (filepath.Base path)
       /\ GetPos (fst (result (AddGit p path w))) pos w
          = (Ok (NewRepository (filepath.Base path) repo), [EvPlainOpen path]).
Proof.
  intros Hr Hopen. pose proof (reachable_inv p Hr) as Hinv.
  rewrite AddGit_eq, Hopen. unfold result; cbn [fst snd].
  split; [reflexivity|].
  destruct (Add_registers p (filepath.Base path) path Hinv) as [Hpath Hin].
  destruct (elem_of_index _ _ Hin) as [pos Hpos].
  exists pos. split; [exact Hpos|].
  rewrite (GetPos_at _ pos (filepath.Base path) path w);
    [|apply pool_inv_Add, Hinv|exact Hpos|apply Base_nonempty|exact Hpath].
  unfold opened. rewrite Hopen. reflexivity.
Qed.

Lemma AddGit_then_GetPos_witness :
  GetPos (fst (result (AddGit (Add NewRepositoryPool "0" "/repos/notes")
                         "/repos/b" Fixture.world))) 1 Fixture.world
  = (Ok (NewRepository "b" Fixture.basic), [EvPlainOpen "/repos/b"]).
Proof.
  destruct (AddGit_then_GetPos (Add NewRepositoryPool "0" "/repos/notes")
              "/repos/b" Fixture.world Fixture.basic)
    as (_ & pos & Hpos & Hget).
  - apply reachable_Add, reachable_New.
  - reflexivity.
  - assert (pos = 1) as ->; [|exact Hget].
    apply index_Some in Hpos as [H0 Hpos].
    vm_compute (idOrder _) in Hpos.
    destruct (Z.to_nat pos) as [|[|n]] eqn:Hn; try discriminate Hpos. lia.
Defined.

(** ** A row iterator that fails, in general *)

Section ReaderError.

Context {Iter : Type} `{RowRepoIter Iter}.
Variable template : Iter.
Variable w : World.
Variable pool : RepositoryPool.
Implicit Types σ : pipeline Iter.

(** What [Next] has returned stays returned. *)
Lemma yielded_rtc σ σ' :
  rtc (step template w pool) σ σ' -> yielded σ `prefix_of` yielded σ'.
Proof.
  induction 1 as [|σ1 σ2 σ3 [_ Hmove] _ IH]; [reflexivity|].
  etransitivity; [|exact IH].
  inversion Hmove; subst; cbn [yielded]; try reflexivity.
  apply prefix_app_r. reflexivity.
Qed.

(** X21.  Whatever the pool, the row iterator, the number of readers and
    the schedule: once a reader has got from its iterator an error that is
    not [io.EOF] and stands at [i.err <- err], it is still there in every
    continuation of the run; [rows] stays open, the caller stays inside
    [Next] at its receive on [rows] (it may still be handed rows of other
    readers), and [Next] returns no error any more, neither this one nor
    [io.EOF] nor one of the feeder. *)
Theorem reader_error_blocks_Next (wNum : nat) σ σ' (j : nat) (err : error) :
  runs template w pool wNum σ ->
  rowReaders σ !! j = Some (W_sendErr err) ->
  rtc (step template w pool) σ σ' ->
  rowReaders σ' !! j = Some (W_sendErr err)
  /\ rows_closed σ' = false
  /\ consumer σ' = C_recvRow
  /\ yielded σ `prefix_of` yielded σ'
  /\ fillRepoChannel σ' <> F_return.
Proof.
  intros Hruns Hj Hrtc.
  pose proof (deliveryInv_runs template w pool wNum σ Hruns) as Hinv.
  pose proof (sendErr_rtc template w pool σ σ' j err Hinv Hj Hrtc) as Hj'.
  assert (runs template w pool wNum σ') as Hruns'
    by (unfold runs in *; etransitivity; eassumption).
  pose proof (deliveryInv_runs template w pool wNum σ' Hruns') as Hinv'.
  destruct (deliveryInv_waiting σ' j _ Hinv' Hj' eq_refl) as [Hrows Hcs].
  split; [exact Hj'|]. split; [exact Hrows|]. split; [exact Hcs|].
  split; [apply yielded_rtc, Hrtc|].
  destruct (protocolInv_runs template w pool wNum σ' Hruns') as (Hfeed & _).
  intros Hf. rewrite Hf, Hcs in Hfeed. cbn in Hfeed.
  destruct Hfeed as (_ & e & He & _). discriminate He.
Qed.

End ReaderError.

Lemma reader_error_blocks_Next_witness :
  rowReaders deadlock !! 0%nat = Some (W_sendErr objectNotFound)
  /\ consumer deadlock = C_recvRow
  /\ fillRepoChannel deadlock <> F_return.
Proof.
  destruct (reader_error_blocks_Next (H := Iterators.corrupt) [] Fixture.world
              Iterators.single 1 deadlock deadlock 0 objectNotFound
              deadlock_runs eq_refl (rtc_refl _ _))
    as (Hj & _ & Hcs & _ & Hf).
  split; [exact Hj|]. split; [exact Hcs|exact Hf].
Defined.
